(** * Horse race simulation: the per-agent race model of [src/js/horse.js]

    The development embeds the simulation core of the [Horse] class
    (constructor ranges, [update], [handleRaceEvents],
    [updateRacePositioningFactors], [applyFinalLapBalancing], [reset],
    [finishRace]) and states the race invariants over it.

    Modelling conventions.
    - A JavaScript number is idealised as an exact rational ([Q]); rounding,
      [NaN] and the infinities are outside the model.  Lap counts and ranks,
      which the code only ever produces through [Math.floor], [findIndex]
      and [length], are integers ([Z]).
    - [Math.random()] is an oracle [rnd : nat -> Q] read through a cursor
      that advances by one per call, so the order of the draws is the
      order of the calls in the source.
    - [this.scene.horses] is the roster; [this] is a position in it, so the
      agent that is updated is the very object the ranking reads.
    - Sprites, labels and the console are presentation and are left out;
      [scene.horseFinished(this)] is recorded in a notification log. *)

From Stdlib Require Import QArith Qround Qabs Qminmax Qpower ZArith List Sorted Lia Lqa Bool String.
From stdpp Require Import base list.

Local Open Scope Q_scope.

(** ** Numbers *)

Module JS.

(** [Math.floor], on the rationals. *)
Definition floor (x : Q) : Z := Qfloor x.

(** Truncation toward zero, the rounding of the [%] operator. *)
Definition trunc (x : Q) : Z :=
  if Qlt_le_dec x 0 then Qceiling x else Qfloor x.

(** [a % b]: the remainder takes the sign of the dividend. *)
Definition rem (a b : Q) : Q := a - b * inject_Z (trunc (a / b)).

(** [a < b], [a > b], [a <= b], [a >= b] as decisions carrying their proof. *)
Definition lt (a b : Q) : {a < b} + {b <= a} := Qlt_le_dec a b.
Definition gt (a b : Q) : {b < a} + {a <= b} := Qlt_le_dec b a.
Definition le (a b : Q) : {a <= b} + {b < a} :=
  match Qlt_le_dec b a with left H => right H | right H => left H end.
Definition ge (a b : Q) : {b <= a} + {a < b} :=
  match Qlt_le_dec a b with left H => right H | right H => left H end.

(** Truthiness of a possibly missing number: [null], [undefined] and [0]
    are falsy. *)
Definition truthy (x : option Q) : bool :=
  match x with
  | Some t => negb (Qeq_bool t 0)
  | None => false
  end.

End JS.

(** ** Data model *)

(** One entry of [lapFactors]. *)
Record LapFactor := mkLapFactor {
  speedBoost : Q;
  staminaBoost : Q
}.

(** The values [currentEvent] takes besides [null]. *)
Inductive RaceEvent :=
| BurstOfSpeed
| SlightSlowdown
| ComebackEffort
| BriefFatigue.

(** The fields of a [Horse] that the simulation reads or writes. *)
Record Horse := mkHorse {
  lane : Z;
  name : string;
  baseSpeed : Q;
  stamina : Q;
  acceleration : Q;
  luckFactor : Q;
  currentSpeed : Q;
  distance : Q;
  currentLap : Z;
  finished : bool;
  finishTime : option Q;
  position : option Z;
  catchUpFactor : Q;
  leadHandicap : Q;
  nextEventTime : Q;
  eventDuration : Q;
  currentEvent : option RaceEvent;
  eventMultiplier : Q;
  momentum : Q;
  lapFactors : list LapFactor;
  laneOffset : Q;
  legMovement : Q
}.

(** What a horse reads from [this.scene], the roster apart. *)
Record Scene := mkScene {
  totalLaps : Z;
  trackLength : Q;
  totalRaceDistance : Q;
  trackWidth : Q;
  trackHeight : Q;
  numHorses : Z;
  raceInProgress : bool;
  raceStartTime : option Q
}.

(** Field assignments [this.f = v]. *)
Definition set_currentSpeed (v : Q) (h : Horse) : Horse :=
  mkHorse (lane h) (name h) (baseSpeed h) (stamina h) (acceleration h)
    (luckFactor h) v (distance h) (currentLap h) (finished h)
    (finishTime h) (position h) (catchUpFactor h) (leadHandicap h)
    (nextEventTime h) (eventDuration h) (currentEvent h) (eventMultiplier h)
    (momentum h) (lapFactors h) (laneOffset h) (legMovement h).

Definition set_distance (v : Q) (h : Horse) : Horse :=
  mkHorse (lane h) (name h) (baseSpeed h) (stamina h) (acceleration h)
    (luckFactor h) (currentSpeed h) v (currentLap h) (finished h)
    (finishTime h) (position h) (catchUpFactor h) (leadHandicap h)
    (nextEventTime h) (eventDuration h) (currentEvent h) (eventMultiplier h)
    (momentum h) (lapFactors h) (laneOffset h) (legMovement h).

Definition set_currentLap (v : Z) (h : Horse) : Horse :=
  mkHorse (lane h) (name h) (baseSpeed h) (stamina h) (acceleration h)
    (luckFactor h) (currentSpeed h) (distance h) v (finished h)
    (finishTime h) (position h) (catchUpFactor h) (leadHandicap h)
    (nextEventTime h) (eventDuration h) (currentEvent h) (eventMultiplier h)
    (momentum h) (lapFactors h) (laneOffset h) (legMovement h).

Definition set_finished (v : bool) (h : Horse) : Horse :=
  mkHorse (lane h) (name h) (baseSpeed h) (stamina h) (acceleration h)
    (luckFactor h) (currentSpeed h) (distance h) (currentLap h) v
    (finishTime h) (position h) (catchUpFactor h) (leadHandicap h)
    (nextEventTime h) (eventDuration h) (currentEvent h) (eventMultiplier h)
    (momentum h) (lapFactors h) (laneOffset h) (legMovement h).

Definition set_finishTime (v : option Q) (h : Horse) : Horse :=
  mkHorse (lane h) (name h) (baseSpeed h) (stamina h) (acceleration h)
    (luckFactor h) (currentSpeed h) (distance h) (currentLap h) (finished h)
    v (position h) (catchUpFactor h) (leadHandicap h)
    (nextEventTime h) (eventDuration h) (currentEvent h) (eventMultiplier h)
    (momentum h) (lapFactors h) (laneOffset h) (legMovement h).

Definition set_position (v : option Z) (h : Horse) : Horse :=
  mkHorse (lane h) (name h) (baseSpeed h) (stamina h) (acceleration h)
    (luckFactor h) (currentSpeed h) (distance h) (currentLap h) (finished h)
    (finishTime h) v (catchUpFactor h) (leadHandicap h)
    (nextEventTime h) (eventDuration h) (currentEvent h) (eventMultiplier h)
    (momentum h) (lapFactors h) (laneOffset h) (legMovement h).

Definition set_catchUpFactor (v : Q) (h : Horse) : Horse :=
  mkHorse (lane h) (name h) (baseSpeed h) (stamina h) (acceleration h)
    (luckFactor h) (currentSpeed h) (distance h) (currentLap h) (finished h)
    (finishTime h) (position h) v (leadHandicap h)
    (nextEventTime h) (eventDuration h) (currentEvent h) (eventMultiplier h)
    (momentum h) (lapFactors h) (laneOffset h) (legMovement h).

Definition set_leadHandicap (v : Q) (h : Horse) : Horse :=
  mkHorse (lane h) (name h) (baseSpeed h) (stamina h) (acceleration h)
    (luckFactor h) (currentSpeed h) (distance h) (currentLap h) (finished h)
    (finishTime h) (position h) (catchUpFactor h) v
    (nextEventTime h) (eventDuration h) (currentEvent h) (eventMultiplier h)
    (momentum h) (lapFactors h) (laneOffset h) (legMovement h).

Definition set_nextEventTime (v : Q) (h : Horse) : Horse :=
  mkHorse (lane h) (name h) (baseSpeed h) (stamina h) (acceleration h)
    (luckFactor h) (currentSpeed h) (distance h) (currentLap h) (finished h)
    (finishTime h) (position h) (catchUpFactor h) (leadHandicap h)
    v (eventDuration h) (currentEvent h) (eventMultiplier h)
    (momentum h) (lapFactors h) (laneOffset h) (legMovement h).

Definition set_eventDuration (v : Q) (h : Horse) : Horse :=
  mkHorse (lane h) (name h) (baseSpeed h) (stamina h) (acceleration h)
    (luckFactor h) (currentSpeed h) (distance h) (currentLap h) (finished h)
    (finishTime h) (position h) (catchUpFactor h) (leadHandicap h)
    (nextEventTime h) v (currentEvent h) (eventMultiplier h)
    (momentum h) (lapFactors h) (laneOffset h) (legMovement h).

Definition set_currentEvent (v : option RaceEvent) (h : Horse) : Horse :=
  mkHorse (lane h) (name h) (baseSpeed h) (stamina h) (acceleration h)
    (luckFactor h) (currentSpeed h) (distance h) (currentLap h) (finished h)
    (finishTime h) (position h) (catchUpFactor h) (leadHandicap h)
    (nextEventTime h) (eventDuration h) v (eventMultiplier h)
    (momentum h) (lapFactors h) (laneOffset h) (legMovement h).

Definition set_eventMultiplier (v : Q) (h : Horse) : Horse :=
  mkHorse (lane h) (name h) (baseSpeed h) (stamina h) (acceleration h)
    (luckFactor h) (currentSpeed h) (distance h) (currentLap h) (finished h)
    (finishTime h) (position h) (catchUpFactor h) (leadHandicap h)
    (nextEventTime h) (eventDuration h) (currentEvent h) v
    (momentum h) (lapFactors h) (laneOffset h) (legMovement h).

Definition set_momentum (v : Q) (h : Horse) : Horse :=
  mkHorse (lane h) (name h) (baseSpeed h) (stamina h) (acceleration h)
    (luckFactor h) (currentSpeed h) (distance h) (currentLap h) (finished h)
    (finishTime h) (position h) (catchUpFactor h) (leadHandicap h)
    (nextEventTime h) (eventDuration h) (currentEvent h) (eventMultiplier h)
    v (lapFactors h) (laneOffset h) (legMovement h).

Definition set_laneOffset (v : Q) (h : Horse) : Horse :=
  mkHorse (lane h) (name h) (baseSpeed h) (stamina h) (acceleration h)
    (luckFactor h) (currentSpeed h) (distance h) (currentLap h) (finished h)
    (finishTime h) (position h) (catchUpFactor h) (leadHandicap h)
    (nextEventTime h) (eventDuration h) (currentEvent h) (eventMultiplier h)
    (momentum h) (lapFactors h) v (legMovement h).

Definition set_legMovement (v : Q) (h : Horse) : Horse :=
  mkHorse (lane h) (name h) (baseSpeed h) (stamina h) (acceleration h)
    (luckFactor h) (currentSpeed h) (distance h) (currentLap h) (finished h)
    (finishTime h) (position h) (catchUpFactor h) (leadHandicap h)
    (nextEventTime h) (eventDuration h) (currentEvent h) (eventMultiplier h)
    (momentum h) (lapFactors h) (laneOffset h) v.

(** ** The state a method call runs in *)

(** [self] is [this]; [cursor] counts the draws taken from [Math.random]
    so far; [notified] lists the roster positions passed to
    [scene.horseFinished], oldest first. *)
Record St := mkSt {
  self : Horse;
  cursor : nat;
  notified : list nat
}.

Definition M (A : Type) : Type := St -> A * St.

Definition ret {A : Type} (a : A) : M A := fun s => (a, s).

Definition bind {A B : Type} (c : M A) (k : A -> M B) : M B :=
  fun s => let (a, s') := c s in k a s'.

Declare Scope js_scope.
Delimit Scope js_scope with js.
Notation "x <- c ;; k" := (bind c (fun x => k))
  (at level 100, c at next level, right associativity) : js_scope.
Notation "c ;; k" := (bind c (fun _ => k))
  (at level 100, right associativity) : js_scope.
Local Open Scope js_scope.

(** Reading [this]. *)
Definition this : M Horse := fun s => (self s, s).

(** A write to fields of [this]. *)
Definition assign (f : Horse -> Horse) : M unit :=
  fun s => (tt, mkSt (f (self s)) (cursor s) (notified s)).

(** The final state of a call. *)
Definition exec {A : Type} (c : M A) (s : St) : St := snd (c s).

(** ** Ranking by distance *)

(** A roster paired with the positions of its members: the position is the
    identity that [h === this] compares. *)
Definition indexed (hs : list Horse) : list (nat * Horse) :=
  combine (seq 0 (length hs)) hs.

(** [scene.horses.filter(h => !h.finished)]. *)
Definition activeOf (hs : list Horse) : list (nat * Horse) :=
  List.filter (fun p => negb (finished (snd p))) (indexed hs).

(** [Array.prototype.sort] with the comparator
    [(a, b) => b.distance - a.distance].  The sort is stable and the
    comparator is a total preorder on the rationals, so the result is the
    one a stable insertion sort gives: [x], which stood before every member
    of [l], moves behind [y] only when the comparator is positive, that is
    when [x.distance < y.distance]. *)
Fixpoint insertByDistance (x : nat * Horse) (l : list (nat * Horse))
  : list (nat * Horse) :=
  match l with
  | [] => [x]
  | y :: ys =>
      if JS.lt (distance (snd x)) (distance (snd y))
      then y :: insertByDistance x ys
      else x :: y :: ys
  end.

Definition sortByDistance (l : list (nat * Horse)) : list (nat * Horse) :=
  fold_right insertByDistance [] l.

(** [Array.prototype.findIndex]: the first position that satisfies [p],
    or [-1]. *)
Fixpoint findIndexFrom {A : Type} (p : A -> bool) (k : Z) (l : list A) : Z :=
  match l with
  | [] => (-1)%Z
  | x :: xs => if p x then k else findIndexFrom p (k + 1) xs
  end.

Definition findIndex {A : Type} (p : A -> bool) (l : list A) : Z :=
  findIndexFrom p 0 l.

(** [this.lapFactors[lapIndex]], [None] standing for [undefined]. *)
Definition lapFactorAt (lfs : list LapFactor) (lapIndex : Z) : option LapFactor :=
  if (lapIndex <? 0)%Z then None else nth_error lfs (Z.to_nat lapIndex).

(** The literal [{ speedBoost: 0, staminaBoost: 0 }]. *)
Definition noLapFactor : LapFactor := mkLapFactor 0 0.

(** [Math.floor(numHorses / 2) - 1] and the lane offset computed from it,
    as the constructor and [reset] both write it. *)
Definition laneOffsetOf (scene : Scene) (lane : Z) : Q :=
  let referenceIndex := (JS.floor (inject_Z (numHorses scene) / 2) - 1)%Z in
  let laneWidth := Qmin (trackWidth scene) (trackHeight scene) / 300 in
  (inject_Z (numHorses scene) - 1 - inject_Z referenceIndex) * laneWidth
  + (inject_Z lane - inject_Z referenceIndex) * (laneWidth * 0.1).

(** ** The methods of [Horse] *)

Section Simulation.

(** [this.scene], the source of [Math.random], the roster
    [this.scene.horses] as it stands when the method is entered, and the
    position of [this] in it. *)
Variable scene : Scene.
Variable rnd : nat -> Q.
Variable peers : list Horse.
Variable me : nat.

(** [Math.random()]. *)
Definition Math_random : M Q :=
  fun s => (rnd (cursor s), mkSt (self s) (S (cursor s)) (notified s)).

(** [this.scene.horses], read during the call: [this] is one of its
    members, so its entry is the current [self]. *)
Definition sceneHorses : M (list Horse) :=
  fun s => (<[me := self s]> peers, s).

(** [this.scene.horseFinished(this)]. *)
Definition horseFinished : M unit :=
  fun s => (tt, mkSt (self s) (cursor s) (notified s ++ [me])).

(** [this.momentum += d]. *)
Definition addMomentum (d : Q) : M unit :=
  assign (fun h => set_momentum (momentum h + d) h).

(** [handleRaceEvents(time, delta)], lines 298-364. *)
Definition handleRaceEvents (time delta : Q) : M unit :=
  h <- this ;;
  match raceStartTime scene with
  | None => ret tt
  | Some raceStart =>
    if negb (JS.truthy (Some raceStart)) then ret tt else
    if JS.gt time (raceStart + nextEventTime h) then
      match currentEvent h with
      | Some _ =>
          assign (fun h => set_eventDuration (eventDuration h - delta) h) ;;
          h <- this ;;
          if JS.le (eventDuration h) 0 then
            assign (set_currentEvent None) ;;
            assign (set_eventMultiplier 1) ;;
            r <- Math_random ;;
            assign (set_nextEventTime (time - raceStart + 5000 + r * 7000))
          else ret tt
      | None =>
          eventChance <- Math_random ;;
          if JS.lt eventChance 0.12 then
            assign (set_currentEvent (Some BurstOfSpeed)) ;;
            assign (set_eventMultiplier 1.25) ;;
            r <- Math_random ;;
            assign (set_eventDuration (800 + r * 1200))
          else if JS.lt eventChance 0.24 then
            assign (set_currentEvent (Some SlightSlowdown)) ;;
            assign (set_eventMultiplier 0.85) ;;
            r <- Math_random ;;
            assign (set_eventDuration (800 + r * 1200))
          else if JS.lt eventChance 0.36 then
            coin <- Math_random ;;
            (if JS.lt coin 0.5 then
               r <- Math_random ;; addMomentum (0.15 + r * 0.1)
             else
               r <- Math_random ;; addMomentum (- (0.1 + r * 0.15))) ;;
            r <- Math_random ;;
            assign (set_nextEventTime (time - raceStart + 5000 + r * 7000))
          else if JS.lt eventChance 0.42 then
            if JS.gt (catchUpFactor h) 0.2 then
              assign (set_currentEvent (Some ComebackEffort)) ;;
              assign (set_eventMultiplier 1.35) ;;
              r <- Math_random ;;
              assign (set_eventDuration (1000 + r * 1000))
            else
              r <- Math_random ;;
              assign (set_nextEventTime (time - raceStart + 4000 + r * 6000))
          else if JS.lt eventChance 0.48 then
            assign (set_currentEvent (Some BriefFatigue)) ;;
            assign (set_eventMultiplier 0.8) ;;
            r <- Math_random ;;
            assign (set_eventDuration (1000 + r * 1000))
          else
            r <- Math_random ;;
            assign (set_nextEventTime (time - raceStart + 4000 + r * 6000))
      end
    else ret tt
  end.

(** [updateRacePositioningFactors()], lines 366-423.  [sortedHorses[0]]
    and [sortedHorses[1]] exist where they are read, the list having more
    than one member there. *)
Definition updateRacePositioningFactors : M unit :=
  h <- this ;;
  if negb (raceInProgress scene) || finished h then ret tt else
  hs <- sceneHorses ;;
  let activeHorses := activeOf hs in
  if (Z.of_nat (length activeHorses) <=? 1)%Z then ret tt else
  let sortedHorses := sortByDistance activeHorses in
  let position := findIndex (fun p => Nat.eqb (fst p) me) sortedHorses in
  if (position >? 0)%Z then
    match sortedHorses with
    | [] => ret tt
    | (_, leader) :: _ =>
        let distanceBehind := distance leader - distance h in
        let percentBehind := distanceBehind / trackLength scene in
        let positionFactor := Qmin 0.25 (0.03 * inject_Z position) in
        let distanceFactor := Qmin 0.25 (percentBehind * 1.5) in
        r <- Math_random ;;
        let randomBoost := r * 0.1 in
        assign (set_catchUpFactor (positionFactor + distanceFactor + randomBoost)) ;;
        (if (position =? Z.of_nat (length sortedHorses) - 1)%Z then
           assign (fun h => set_catchUpFactor (catchUpFactor h + 0.15) h)
         else ret tt) ;;
        r <- Math_random ;;
        if JS.lt r 0.02 then
          if JS.gt (inject_Z position) (inject_Z (Z.of_nat (length sortedHorses)) / 2)
          then addMomentum 0.2
          else ret tt
        else ret tt
    end
  else
    match sortedHorses with
    | _ :: (_, secondPlace) :: _ =>
        let leadDistance := distance h - distance secondPlace in
        let percentAhead := leadDistance / trackLength scene in
        assign (set_leadHandicap (Qmin 0.3 (percentAhead * 2))) ;;
        r <- Math_random ;;
        (if JS.lt r 0.05 then
           if JS.gt percentAhead 0.03 then addMomentum (- 0.1) else ret tt
         else ret tt) ;;
        assign (set_catchUpFactor 0)
    | _ => ret tt
    end.

(** [applyFinalLapBalancing()], lines 425-465. *)
Definition applyFinalLapBalancing : M unit :=
  h <- this ;;
  hs <- sceneHorses ;;
  let activeHorses := activeOf hs in
  if (Z.of_nat (length activeHorses) <=? 1)%Z then ret tt else
  let sortedHorses := sortByDistance activeHorses in
  let position := findIndex (fun p => Nat.eqb (fst p) me) sortedHorses in
  let totalHorses := Z.of_nat (length sortedHorses) in
  if (position =? 0)%Z then
    match sortedHorses with
    | _ :: (_, secondPlace) :: _ =>
        let leadDistance := distance h - distance secondPlace in
        if JS.gt leadDistance (trackLength scene * 0.05)
        then addMomentum (- 0.1)
        else ret tt
    | _ => ret tt
    end
  else
    let boostFactor :=
      Qmin (0.1 + (inject_Z position / inject_Z totalHorses) * 0.15) 0.25 in
    addMomentum boostFactor ;;
    if (position =? totalHorses - 1)%Z then addMomentum 0.1 else ret tt.

(** Lines 162-179 of [update]: the lap is recomputed from the distance,
    and a change of lap may bring a surge and the final-lap balancing. *)
Definition enterLap : M unit :=
  h <- this ;;
  let previousLap := currentLap h in
  assign (set_currentLap
            (Z.min (totalLaps scene)
                   (JS.floor (distance h / trackLength scene) + 1))) ;;
  h <- this ;;
  if (currentLap h >? previousLap)%Z then
    r <- Math_random ;;
    (if JS.lt r 0.3 then
       r' <- Math_random ;; addMomentum (r' * 0.15)
     else ret tt) ;;
    if (currentLap h =? totalLaps scene)%Z
    then applyFinalLapBalancing
    else ret tt
  else ret tt.

(** Lines 191-196 of [update]: the decay of the momentum. *)
Definition applyMomentum : M unit :=
  h <- this ;;
  if JS.gt (Qabs (momentum h)) 0.01
  then assign (set_momentum (momentum h * 0.995))
  else assign (set_momentum 0).

(** Lines 187-189 and 198-227 of [update]: speed and distance. *)
Definition advance (delta : Q) : M unit :=
  h <- this ;;
  let lapIndex := (currentLap h - 1)%Z in
  let lapFactor :=
    match lapFactorAt (lapFactors h) lapIndex with
    | Some lf => lf
    | None => noLapFactor
    end in
  applyMomentum ;;
  h <- this ;;
  let raceProgress := distance h / totalRaceDistance scene in
  let staminaFactor :=
    Qmax 0.7 (1 - raceProgress / (stamina h + staminaBoost lapFactor)) in
  r <- Math_random ;;
  let instantRandomFactor := 1 + (r - 0.5) * (luckFactor h + 0.15) in
  let raceEventFactor := eventMultiplier h in
  let targetSpeed :=
    baseSpeed h * (1 + speedBoost lapFactor + catchUpFactor h
                   - leadHandicap h + momentum h) in
  (if JS.lt (currentSpeed h) targetSpeed then
     let accelerationBoost := 1 + catchUpFactor h in
     assign (set_currentSpeed
               (currentSpeed h
                + acceleration h * accelerationBoost * (delta / 1000)))
   else if JS.gt (currentSpeed h) (targetSpeed * 1.1) then
     assign (set_currentSpeed
               (currentSpeed h - acceleration h * 0.5 * (delta / 1000)))
   else ret tt) ;;
  let minRaceSpeed := 0.7 + catchUpFactor h * 1.5 in
  assign (fun h => set_currentSpeed (Qmax minRaceSpeed (currentSpeed h)) h) ;;
  h <- this ;;
  let actualSpeed :=
    currentSpeed h * staminaFactor * instantRandomFactor * raceEventFactor in
  let speedScale :=
    Qmax 0.7 (Qmin (trackWidth scene) (trackHeight scene) / 400) in
  assign (set_distance
            (distance h + actualSpeed * (delta / 1000) * 80 * speedScale)).

(** [finishRace(time)], lines 515-520. *)
Definition finishRace (time : Q) : M unit :=
  assign (set_finished true) ;;
  assign (set_finishTime (Some time)) ;;
  horseFinished.

(** Lines 230 and 266-270 of [update]: the finish check, on the distance
    [advance] has just written. *)
Definition checkFinish (time : Q) : M unit :=
  h <- this ;;
  let lapDistance := JS.rem (distance h) (trackLength scene) in
  let totalDistance := inject_Z (totalLaps scene) * trackLength scene in
  if negb (finished h) then
    if JS.ge (distance h) totalDistance then
      if JS.ge lapDistance 0 then
        if JS.le lapDistance 50 then finishRace time else ret tt
      else ret tt
    else ret tt
  else ret tt.

(** [update(time, delta)], lines 154-271. *)
Definition update (time delta : Q) : M unit :=
  h <- this ;;
  if finished h then ret tt else
  enterLap ;;
  handleRaceEvents time delta ;;
  updateRacePositioningFactors ;;
  advance delta ;;
  assign (fun h => set_legMovement (legMovement h + delta * 0.01) h) ;;
  checkFinish time.

(** [reset()], lines 467-507. *)
Definition reset : M unit :=
  assign (set_currentSpeed 0) ;;
  assign (set_distance 0) ;;
  assign (set_currentLap 1) ;;
  assign (set_finished false) ;;
  assign (set_finishTime None) ;;
  assign (set_position None) ;;
  assign (set_catchUpFactor 0) ;;
  assign (set_leadHandicap 0) ;;
  assign (fun h => set_laneOffset (laneOffsetOf scene (lane h)) h) ;;
  assign (set_legMovement 0).

(** The loop of lines 49-54: one pair of boosts per lap, two draws each. *)
Fixpoint drawLapFactors (laps : nat) : M (list LapFactor) :=
  match laps with
  | O => ret []
  | S k =>
      r1 <- Math_random ;;
      r2 <- Math_random ;;
      rest <- drawLapFactors k ;;
      ret (mkLapFactor (r1 * 0.2 - 0.1) (r2 * 0.16 - 0.08) :: rest)
  end.

(** [new Horse(scene, lane, name, color)], lines 6-71, for a caller that
    passes the name and the colour: the draws are those of the attributes,
    of the first event time and of the lap factors, in this order. *)
Definition construct (lane : Z) (name : string) : M Horse :=
  r1 <- Math_random ;;
  r2 <- Math_random ;;
  r3 <- Math_random ;;
  r4 <- Math_random ;;
  r5 <- Math_random ;;
  lfs <- drawLapFactors (Z.to_nat (totalLaps scene)) ;;
  ret (mkHorse lane name
         (1.9 + r1 * 0.06 - 0.03)
         (0.85 + r2 * 0.06 - 0.03)
         (0.3 + r3 * 0.06 - 0.03)
         (r4 * 0.2 + 0.05)
         0 0 1 false None None 0 0
         (3000 + r5 * 4000) 0 None 1 0
         lfs
         (laneOffsetOf scene lane)
         0).

End Simulation.

(** ** Calls on a roster *)

(** The roster [scene.horses], the number of draws taken from
    [Math.random] so far, and the finish notifications the scene has
    received. *)
Record World := mkWorld {
  horses : list Horse;
  draws : nat;
  finishers : list nat
}.

(** The call [scene.horses[me].m()] of a method [m]: the method runs on the
    member at position [me], which is written back in place.  A position
    outside the roster names no horse and nothing is called. *)
Definition call (scene : Scene) (rnd : nat -> Q)
    (m : Scene -> (nat -> Q) -> list Horse -> nat -> M unit)
    (me : nat) (w : World) : World :=
  match horses w !! me with
  | None => w
  | Some h =>
      let s := exec (m scene rnd (horses w) me)
                    (mkSt h (draws w) (finishers w)) in
      mkWorld (<[me := self s]> (horses w)) (cursor s) (notified s)
  end.

(** [scene.horses[me].update(time, delta)]. *)
Definition Horse_update (scene : Scene) (rnd : nat -> Q) (time delta : Q)
    (me : nat) (w : World) : World :=
  call scene rnd (fun sc r p i => update sc r p i time delta) me w.

(** [scene.horses[me].updateRacePositioningFactors()]. *)
Definition Horse_updateRacePositioningFactors (scene : Scene)
    (rnd : nat -> Q) (me : nat) (w : World) : World :=
  call scene rnd updateRacePositioningFactors me w.

(** [scene.horses[me].reset()]. *)
Definition Horse_reset (scene : Scene) (rnd : nat -> Q) (me : nat)
    (w : World) : World :=
  call scene rnd (fun sc _ _ _ => reset sc) me w.


(** ** The constructor's helpers and the placement of sprite and labels *)

(** [a[i]] for a number [i] that is an integer, [None] standing for
    [undefined]. *)
Definition elementAt {A : Type} (a : list A) (i : Z) : option A :=
  if (i <? 0)%Z then None else nth_error a (Z.to_nat i).

(** The palette of [getRandomColor], lines 74-87. *)
Definition colors : list Z :=
  [ 0xff0000; 0x00ff00; 0x0000ff; 0xffff00; 0xff00ff; 0x00ffff;
    0xffa500; 0x800080; 0x008000; 0x800000; 0x808000; 0x008080 ]%Z.

(** [getRandomColor()], lines 73-90. *)
Definition getRandomColor (rnd : nat -> Q) : M (option Z) :=
  r <- Math_random rnd ;;
  ret (elementAt colors
         (JS.floor (r * inject_Z (Z.of_nat (length colors))))).

(** [color || this.getRandomColor()], line 10: a missing colour and the
    colour [0] are falsy. *)
Definition chooseColor (rnd : nat -> Q) (color : option Z) : M (option Z) :=
  match color with
  | Some c => if (c =? 0)%Z then getRandomColor rnd else ret (Some c)
  | None => getRandomColor rnd
  end.





(** [scene.horses[me].handleRaceEvents(time, delta)]. *)
Definition Horse_handleRaceEvents (scene : Scene) (rnd : nat -> Q)
    (time delta : Q) (me : nat) (w : World) : World :=
  call scene rnd (fun sc r _ _ => handleRaceEvents sc r time delta) me w.

(** [scene.horses[me].applyFinalLapBalancing()]. *)
Definition Horse_applyFinalLapBalancing (scene : Scene) (rnd : nat -> Q)
    (me : nat) (w : World) : World :=
  call scene rnd (fun sc _ p i => applyFinalLapBalancing sc p i) me w.
(** * Specification *)

(** ** A frame logic for method bodies

    [keeps R c] says that every run of [c] relates the state it starts in
    to the state it ends in by [R].  With a preorder [R] this is closed
    under sequencing, so that a body is handled statement by statement. *)

Definition keeps {A : Type} (R : St -> St -> Prop) (c : M A) : Prop :=
  forall s, R s (snd (c s)).

(** [f] has the same value before and after. *)
Definition same {X : Type} (f : St -> X) : St -> St -> Prop :=
  fun s s' => f s' = f s.

(** [P] holds after if it held before. *)
Definition stable (P : St -> Prop) : St -> St -> Prop :=
  fun s s' => P s -> P s'.

(** A reading [g] of a horse that a field assignment does not change. *)
Definition untouchedBy {X V : Type} (g : Horse -> X)
    (set : V -> Horse -> Horse) : Prop :=
  forall v h, g (set v h) = g h.

(** [c] leaves the reading [g] of [this] as it was. *)
Definition preserves {A X : Type} (g : Horse -> X) (c : M A) : Prop :=
  keeps (same (fun s => g (self s))) c.

(** ** Calls and the states they go through *)

(** The member of the roster at position [me] before and after a call. *)
Definition horseAt (w : World) (me : nat) : option Horse := horses w !! me.

(** The state a call on the member [h] of [w] starts in. *)
Definition entry (w : World) (h : Horse) : St :=
  mkSt h (draws w) (finishers w).

(** The state in which [update] reaches the decay of the momentum
    (line 191): the lap bookkeeping, the race events and the positioning
    factors have run. *)
Definition atMomentum (scene : Scene) (rnd : nat -> Q) (peers : list Horse)
    (me : nat) (time delta : Q) (s : St) : St :=
  exec (updateRacePositioningFactors scene rnd peers me)
    (exec (handleRaceEvents scene rnd time delta)
       (exec (enterLap scene rnd peers me) s)).

(** The state in which [update] reaches the finish check (line 266). *)
Definition atFinishCheck (scene : Scene) (rnd : nat -> Q) (peers : list Horse)
    (me : nat) (time delta : Q) (s : St) : St :=
  exec (assign (fun h => set_legMovement (legMovement h + delta * 0.01) h))
    (exec (advance scene rnd delta)
       (atMomentum scene rnd peers me time delta s)).

(** ** Ranking *)

(** The ranking [updateRacePositioningFactors] builds, and the rank
    [findIndex] reads from it. *)
Definition ranking (hs : list Horse) : list (nat * Horse) :=
  sortByDistance (activeOf hs).

Definition rankOf (hs : list Horse) (me : nat) : Z :=
  findIndex (fun p => Nat.eqb (fst p) me) (ranking hs).

(** The number of horses that have not finished. *)
Definition activeCount (hs : list Horse) : Z :=
  Z.of_nat (length (activeOf hs)).

(** [p] is not behind [q]. *)
Definition leads (p q : nat * Horse) : Prop :=
  distance (snd q) <= distance (snd p).

(** The distance of the horse at the head of the ranking. *)
Definition leaderDistance (hs : list Horse) : Q :=
  match ranking hs with
  | (_, leader) :: _ => distance leader
  | [] => 0
  end.

(** The distance of the horse ranked second. *)
Definition secondDistance (hs : list Horse) : Q :=
  match ranking hs with
  | _ :: (_, secondPlace) :: _ => distance secondPlace
  | _ => 0
  end.

(** [q] is placed before [p] by a stable sort on the distance, descending:
    [q] is strictly ahead of [p], or level with it and earlier in the
    roster. *)
Definition placedBefore (p q : nat * Horse) : bool :=
  if JS.lt (distance (snd p)) (distance (snd q)) then true
  else if JS.lt (distance (snd q)) (distance (snd p)) then false
  else Nat.ltb (fst q) (fst p).

(** The number of active horses placed before the member [h] at position
    [me]. *)
Definition placesBefore (hs : list Horse) (me : nat) (h : Horse) : Z :=
  Z.of_nat (length (List.filter (placedBefore (me, h)) (activeOf hs))).

(** Roster positions in increasing order. *)
Definition byPosition (p q : nat * Horse) : Prop := (fst p < fst q)%nat.

(** ** The quantities of the statements *)

(** The catch-up factor of a trailing horse as the design describes it:
    position factor, distance factor and random boost, and 0.15 more for
    the last of [N]. *)
Definition catchUpFormula (trackLength : Q) (r N : Z)
    (leaderDist myDist u : Q) : Q :=
  let percentBehind := (leaderDist - myDist) / trackLength in
  let positionFactor := Qmin 0.25 (0.03 * inject_Z r) in
  let distanceFactor := Qmin 0.25 (percentBehind * 1.5) in
  let randomBoost := u * 0.1 in
  if (r =? N - 1)%Z
  then positionFactor + distanceFactor + randomBoost + 0.15
  else positionFactor + distanceFactor + randomBoost.

(** Exactly one of the two balancing factors of a horse is non-zero. *)
Definition exactlyOneFactor (h : Horse) : Prop :=
  (~ catchUpFactor h == 0 /\ leadHandicap h == 0) \/
  (catchUpFactor h == 0 /\ ~ leadHandicap h == 0).

(** The lap that line 164 computes from a distance. *)
Definition lapOf (scene : Scene) (d : Q) : Z :=
  Z.min (totalLaps scene) (JS.floor (d / trackLength scene) + 1).

(** The finish condition of line 268, on a distance. *)
Definition onFinishLine (scene : Scene) (d : Q) : Prop :=
  inject_Z (totalLaps scene) * trackLength scene <= d /\
  0 <= JS.rem d (trackLength scene) /\
  JS.rem d (trackLength scene) <= 50.

(** What one tick does to a momentum that nothing else touches. *)
Definition decay (m : Q) : Q :=
  if JS.gt (Qabs m) 0.01 then m * 0.995 else 0.

(** A call of [update] on a running horse in which the momentum reaches
    the decay of line 191 as the call found it: no surge, no event, no
    positioning nudge. *)
Definition quietTick (h h' : Horse) : Prop :=
  exists scene rnd time delta me w,
    horseAt w me = Some h /\ finished h = false /\
    horseAt (Horse_update scene rnd time delta me w) me = Some h' /\
    momentum (self (atMomentum scene rnd (horses w) me time delta (entry w h)))
    = momentum h.

(** [n] such calls in a row. *)
Inductive quietTicks : nat -> Horse -> Horse -> Prop :=
| quiet_none h : quietTicks 0 h h
| quiet_more n h h1 h2 :
    quietTicks n h h1 -> quietTick h1 h2 -> quietTicks (S n) h h2.

(** ** Well-formed races *)

(** The contract of [Math.random]: a number in [0, 1). *)
Definition unitInterval (rnd : nat -> Q) : Prop :=
  forall k, 0 <= rnd k /\ rnd k < 1.

(** A scene whose track and race have a positive length, so that the
    divisions of [update] are divisions by a positive number. *)
Definition ValidScene (scene : Scene) : Prop :=
  0 < trackLength scene /\ 0 < totalRaceDistance scene.

(** The innate attributes of a horse. *)
Definition innate (h : Horse) : Q * Q * Q * Q * list LapFactor :=
  (baseSpeed h, stamina h, acceleration h, luckFactor h, lapFactors h).

(** The ranges the constructor draws the innate attributes from
    (lines 19-24 and 51-52). *)
Definition lapFactorInRange (lf : LapFactor) : Prop :=
  (- 0.1 <= speedBoost lf /\ speedBoost lf <= 0.1) /\
  (- 0.08 <= staminaBoost lf /\ staminaBoost lf <= 0.08).

Definition innateInRange
    (i : Q * Q * Q * Q * list LapFactor) : Prop :=
  let '(baseSpeed, stamina, acceleration, luckFactor, lapFactors) := i in
  (1.87 <= baseSpeed /\ baseSpeed <= 1.93) /\
  (0.82 <= stamina /\ stamina <= 0.88) /\
  (0.27 <= acceleration /\ acceleration <= 0.33) /\
  (0.05 <= luckFactor /\ luckFactor <= 0.25) /\
  Forall lapFactorInRange lapFactors.

(** The invariant of a horse in a race: its attributes are in the
    constructor's ranges, its catch-up factor is not negative and its event
    multiplier is positive. *)
Definition WellFormed (h : Horse) : Prop :=
  innateInRange (innate h) /\
  0 <= catchUpFactor h /\
  0 < eventMultiplier h.

(** ** Sample races *)

Module Sample.

(** A four-lap race on a track of length 1000, under way since time 1000. *)
Definition oval : Scene := mkScene 4 1000 4000 800 600 2 true (Some 1000).

(** A one-lap race on the same track. *)
Definition sprint : Scene := mkScene 1 1000 1000 800 600 2 true (Some 1000).

(** A source of randomness that always answers one half. *)
Definition half : nat -> Q := fun _ => 0.5.

Definition laps (n : nat) : list LapFactor := repeat (mkLapFactor 0 0) n.

(** A horse in mid-race: [d] is its distance, [lh] its lead handicap. *)
Definition runner (lane : Z) (name : string) (nlaps : nat) (d lh : Q) : Horse :=
  mkHorse lane name 1.9 0.85 0.3 0.1 2 d 1 false None None 0 lh
    5000 0 None 1 0 (laps nlaps) 0 0.

(** A horse that has finished a four-lap race at time 61000. *)
Definition arrived : Horse :=
  mkHorse 0 "Comet" 1.9 0.85 0.3 0.1 2 4010 4 true (Some 61000) None 0.1 0
    70000 0 None 1 0.05 (laps 4) 0 12.

(** A horse stopped in mid-race with momentum and a running event. *)
Definition spirited : Horse :=
  mkHorse 0 "Comet" 1.9 0.85 0.3 0.1 2 2500 3 false None None 0.1 0
    20000 500 (Some BurstOfSpeed) 1.25 0.2 (laps 4) 0 12.

(** A horse coasting through its first lap with momentum 0.2. *)
Definition coasting : Horse :=
  mkHorse 0 "Comet" 1.9 0.85 0.3 0.1 2 500 1 false None None 0 0
    5000 0 None 1 0.2 (laps 4) 0 0.

End Sample.

Module Pair.

(** Two horses on the one-lap track: A at 950, B at 900. *)
Definition A : Horse := Sample.runner 0 "Aster" 1 950 0.
Definition B : Horse := Sample.runner 1 "Bramble" 1 900 0.

(** The same pair a moment earlier, B leading by 50, and A once it has
    passed B. *)
Definition A_behind : Horse := Sample.runner 0 "Aster" 1 900 0.
Definition B_ahead : Horse := Sample.runner 1 "Bramble" 1 950 0.
Definition A_past : Horse := Sample.runner 0 "Aster" 1 1000 0.

(** The pair on the starting line. *)
Definition A_start : Horse := Sample.runner 0 "Aster" 1 0 0.
Definition B_start : Horse := Sample.runner 1 "Bramble" 1 0 0.

End Pair.

(** ** Events *)

(** The multiplier [handleRaceEvents] writes next to each event, and 1 when
    no event runs. *)
Definition multiplierOf (e : option RaceEvent) : Q :=
  match e with
  | Some BurstOfSpeed => 1.25
  | Some SlightSlowdown => 0.85
  | Some ComebackEffort => 1.35
  | Some BriefFatigue => 0.8
  | None => 1
  end.

(** The event multiplier of a horse is the one of its current event. *)
Definition EventConsistent (h : Horse) : Prop :=
  eventMultiplier h = multiplierOf (currentEvent h).

(** The durations an event can start with. *)
Definition durationRange (e : RaceEvent) (d : Q) : Prop :=
  match e with
  | BurstOfSpeed | SlightSlowdown => 800 <= d /\ d < 2000
  | ComebackEffort | BriefFatigue => 1000 <= d /\ d < 2000
  end.

(** The guard of line 300: the race has a start time that is neither
    missing nor 0, and the time is past the next event check. *)
Definition checkDue (scene : Scene) (time : Q) (h : Horse) (raceStart : Q)
  : Prop :=
  raceStartTime scene = Some raceStart /\ ~ raceStart == 0 /\
  raceStart + nextEventTime h < time.

(** ** Balancing factors in range *)

Definition Balanced (h : Horse) : Prop :=
  (0 <= catchUpFactor h /\ catchUpFactor h < 0.75) /\
  (0 <= leadHandicap h /\ leadHandicap h <= 0.3).

(** ** More sample races *)

Module Meadow.

(** Three horses in the third lap of the four-lap race. *)
Definition first : Horse := Sample.runner 0 "Aster" 4 2900 0.
Definition second : Horse := Sample.runner 1 "Bramble" 4 2800 0.
Definition third : Horse := Sample.runner 2 "Clover" 4 2700 0.

Definition field : list Horse := [first; second; third].

(** A horse in the middle of a burst of speed, its next check long due. *)
Definition bursting : Horse :=
  mkHorse 0 "Comet" 1.9 0.85 0.3 0.1 2 2500 3 false None None 0.1 0
    20000 500 (Some BurstOfSpeed) 1.25 0.2 (Sample.laps 4) 0 12.

End Meadow.

(** ** Runs *)

(** One call [scene.horses[tickHorse].update(tickTime, tickDelta)]. *)
Record Tick := mkTick { tickTime : Q; tickDelta : Q; tickHorse : nat }.

(** The calls of [update] that the scene makes, in order. *)
Definition run (scene : Scene) (rnd : nat -> Q) (ticks : list Tick)
    (w : World) : World :=
  fold_left
    (fun w t => Horse_update scene rnd (tickTime t) (tickDelta t)
                  (tickHorse t) w)
    ticks w.

(** The scene has been told of exactly the finished horses, of each
    once. *)
Definition ArrivalsInOrder (w : World) : Prop :=
  List.NoDup (finishers w) /\
  forall k, In k (finishers w) <->
            exists h, horseAt w k = Some h /\ finished h = true.

(** * Proofs *)
#[local] Instance same_preorder {X : Type} (f : St -> X) : PreOrder (same f).
Proof.
  split.
  - intros s. reflexivity.
  - intros s1 s2 s3 H12 H23. unfold same in *. congruence.
Qed.

#[local] Instance stable_preorder (P : St -> Prop) : PreOrder (stable P).
Proof.
  split.
  - intros s H. exact H.
  - intros s1 s2 s3 H12 H23 H. apply H23, H12, H.
Qed.

Lemma exec_bind {A B : Type} (c : M A) (k : A -> M B) (s : St) :
  exec (bind c k) s = exec (k (fst (c s))) (snd (c s)).
Proof. unfold exec, bind. destruct (c s). reflexivity. Qed.

Lemma exec_seq {A B : Type} (c : M A) (k : M B) (s : St) :
  exec (c ;; k) s = exec k (exec c s).
Proof. apply exec_bind. Qed.

Lemma exec_ret {A : Type} (a : A) (s : St) : exec (ret a) s = s.
Proof. reflexivity. Qed.

Lemma exec_assign (f : Horse -> Horse) (s : St) :
  exec (assign f) s = mkSt (f (self s)) (cursor s) (notified s).
Proof. reflexivity. Qed.

Section Frame.

Context (R : St -> St -> Prop) `{!PreOrder R}.

Lemma keeps_ret {A : Type} (a : A) : keeps R (ret a).
Proof. intros s. simpl. reflexivity. Qed.

Lemma keeps_this : keeps R this.
Proof. intros s. simpl. reflexivity. Qed.

Lemma keeps_bind {A B : Type} (c : M A) (k : A -> M B) :
  keeps R c -> (forall a, keeps R (k a)) -> keeps R (bind c k).
Proof.
  intros Hc Hk s. unfold bind.
  specialize (Hc s). destruct (c s) as [a s1]. simpl in Hc.
  etransitivity; [exact Hc | apply Hk].
Qed.

Lemma keeps_sceneHorses (peers : list Horse) (me : nat) :
  keeps R (sceneHorses peers me).
Proof. intros s. simpl. reflexivity. Qed.

End Frame.

Lemma keeps_exec {A : Type} (R : St -> St -> Prop) (c : M A) (s : St) :
  keeps R c -> R s (exec c s).
Proof. intros H. apply H. Qed.

(** Statement-by-statement decomposition of a body. *)
Ltac frame_step :=
  match goal with
  | |- keeps ?R (bind _ _) => apply (keeps_bind R); [ | intros ? ]
  | |- keeps ?R (ret _) => apply (keeps_ret R)
  | |- keeps ?R this => apply (keeps_this R)
  | |- keeps ?R (sceneHorses _ _) => apply (keeps_sceneHorses R)
  | |- keeps _ (match ?x with _ => _ end) => destruct x
  | |- keeps _ (let _ := _ in _) => cbv zeta
  end.

Ltac frame := repeat frame_step.

(** Statements that touch [self] only, and statements that leave it. *)
Lemma keeps_assign_self {X : Type} (g : Horse -> X) (f : Horse -> Horse) :
  (forall h, g (f h) = g h) -> keeps (same (fun s => g (self s))) (assign f).
Proof. intros H s. unfold same. simpl. apply H. Qed.

Lemma keeps_random_self {X : Type} (g : Horse -> X) (rnd : nat -> Q) :
  keeps (same (fun s => g (self s))) (Math_random rnd).
Proof. intros s. reflexivity. Qed.

Lemma keeps_finished_self {X : Type} (g : Horse -> X) (me : nat) :
  keeps (same (fun s => g (self s))) (horseFinished me).
Proof. intros s. reflexivity. Qed.

Lemma keeps_assign_notified (f : Horse -> Horse) :
  keeps (same notified) (assign f).
Proof. intros s. reflexivity. Qed.

Lemma keeps_random_notified (rnd : nat -> Q) :
  keeps (same notified) (Math_random rnd).
Proof. intros s. reflexivity. Qed.

Lemma keeps_assign_stable (P : Horse -> Prop) (f : Horse -> Horse) :
  (forall h, P h -> P (f h)) ->
  keeps (stable (fun s => P (self s))) (assign f).
Proof. intros H s. unfold stable. simpl. apply H. Qed.

Lemma keeps_random_stable (P : Horse -> Prop) (rnd : nat -> Q) :
  keeps (stable (fun s => P (self s))) (Math_random rnd).
Proof. intros s H. exact H. Qed.

Create HintDb frame.
#[local] Hint Resolve keeps_random_self keeps_finished_self
  keeps_assign_notified keeps_random_notified keeps_random_stable : frame.
#[local] Hint Extern 2 (keeps (same (fun s => _ (self s))) (assign _)) =>
  (apply keeps_assign_self; intros; reflexivity) : frame.
#[local] Hint Extern 2 (keeps (same (fun s => _ (self s))) (addMomentum _)) =>
  (apply keeps_assign_self; intros; reflexivity) : frame.
#[local] Hint Extern 2 (keeps (same notified) (addMomentum _)) =>
  (apply keeps_assign_notified) : frame.

(** A body is solved by decomposition once its calls are known to the
    hint database. *)
Ltac frame_auto := frame; auto with frame.

(** ** The shape of a call *)

Lemma update_finished scene rnd peers me time delta s :
  finished (self s) = true ->
  exec (update scene rnd peers me time delta) s = s.
Proof.
  intros H. unfold update. rewrite exec_bind. simpl. rewrite H. reflexivity.
Qed.

Lemma update_running scene rnd peers me time delta s :
  finished (self s) = false ->
  exec (update scene rnd peers me time delta) s =
  exec (checkFinish scene me time)
    (exec (assign (fun h => set_legMovement (legMovement h + delta * 0.01) h))
       (exec (advance scene rnd delta)
          (atMomentum scene rnd peers me time delta s))).
Proof.
  intros H. unfold update, atMomentum. rewrite exec_bind. simpl. rewrite H.
  rewrite !exec_seq. reflexivity.
Qed.

Lemma call_horseAt scene rnd m me w h :
  horseAt w me = Some h ->
  horseAt (call scene rnd m me w) me =
  Some (self (exec (m scene rnd (horses w) me) (entry w h))).
Proof.
  unfold horseAt, call, entry. intros H. rewrite H. simpl.
  apply list_lookup_insert_eq. eapply lookup_lt_Some; eauto.
Qed.

Lemma call_draws scene rnd m me w h :
  horseAt w me = Some h ->
  draws (call scene rnd m me w) =
  cursor (exec (m scene rnd (horses w) me) (entry w h)).
Proof. unfold horseAt, call, entry. intros H. rewrite H. reflexivity. Qed.

Lemma call_finishers scene rnd m me w h :
  horseAt w me = Some h ->
  finishers (call scene rnd m me w) =
  notified (exec (m scene rnd (horses w) me) (entry w h)).
Proof. unfold horseAt, call, entry. intros H. rewrite H. reflexivity. Qed.

Lemma call_others scene rnd m me w k :
  k <> me ->
  horseAt (call scene rnd m me w) k = horseAt w k.
Proof.
  unfold horseAt, call. intros Hk.
  destruct (horses w !! me) eqn:E; [|reflexivity]. simpl.
  apply list_lookup_insert_ne. congruence.
Qed.

Lemma Horse_update_horseAt scene rnd time delta me w h :
  horseAt w me = Some h ->
  horseAt (Horse_update scene rnd time delta me w) me =
  Some (self (exec (update scene rnd (horses w) me time delta) (entry w h))).
Proof. intros H. unfold Horse_update. rewrite (call_horseAt _ _ _ _ _ _ H). reflexivity. Qed.

Lemma Horse_update_finishers scene rnd time delta me w h :
  horseAt w me = Some h ->
  finishers (Horse_update scene rnd time delta me w) =
  notified (exec (update scene rnd (horses w) me time delta) (entry w h)).
Proof. intros H. unfold Horse_update. rewrite (call_finishers _ _ _ _ _ _ H). reflexivity. Qed.

(** ** The ranking *)

Section Ranking.

Lemma insertByDistance_In x y l :
  In x (insertByDistance y l) <-> x = y \/ In x l.
Proof.
  induction l as [|z l IH]; simpl.
  - intuition.
  - destruct (JS.lt _ _); simpl; rewrite ?IH; intuition.
Qed.

Lemma sortByDistance_In x l : In x (sortByDistance l) <-> In x l.
Proof.
  induction l as [|y l IH]; simpl.
  - reflexivity.
  - rewrite insertByDistance_In, IH. intuition.
Qed.

Lemma insertByDistance_length x l :
  length (insertByDistance x l) = S (length l).
Proof.
  induction l as [|y l IH]; simpl; [reflexivity|].
  destruct (JS.lt _ _); simpl; [rewrite IH|]; reflexivity.
Qed.

Lemma sortByDistance_length l : length (sortByDistance l) = length l.
Proof.
  induction l as [|y l IH]; simpl; [reflexivity|].
  rewrite insertByDistance_length, IH. reflexivity.
Qed.

Lemma insertByDistance_sorted x l :
  StronglySorted leads l -> StronglySorted leads (insertByDistance x l).
Proof.
  induction 1 as [|y l Hs IH Hy]; simpl.
  - constructor; [constructor | constructor].
  - destruct (JS.lt _ _) as [Hlt|Hge].
    + constructor; [exact IH|].
      rewrite List.Forall_forall. intros z Hz.
      apply insertByDistance_In in Hz. destruct Hz as [->|Hz].
      * unfold leads. apply Qlt_le_weak, Hlt.
      * rewrite List.Forall_forall in Hy. auto.
    + constructor; [constructor; assumption|].
      constructor; [exact Hge|].
      rewrite List.Forall_forall in Hy |- *. intros z Hz.
      unfold leads in *. specialize (Hy z Hz).
      eapply Qle_trans; eassumption.
Qed.

Lemma sortByDistance_sorted l : StronglySorted leads (sortByDistance l).
Proof.
  induction l as [|y l IH]; simpl.
  - constructor.
  - apply insertByDistance_sorted, IH.
Qed.

(** The head of the ranking is not behind any ranked horse. *)
Lemma ranking_head hs p rest q :
  ranking hs = p :: rest -> In q (ranking hs) ->
  distance (snd q) <= distance (snd p).
Proof.
  intros E Hq. pose proof (sortByDistance_sorted (activeOf hs)) as Hs.
  unfold ranking in E. rewrite E in Hs. unfold ranking in Hq. rewrite E in Hq.
  inversion Hs as [|? ? _ Hall]; subst.
  destruct Hq as [<-|Hq].
  - apply Qle_refl.
  - rewrite List.Forall_forall in Hall. apply (Hall q Hq).
Qed.

Lemma findIndexFrom_found {A : Type} (p : A -> bool) l k :
  (0 <= k)%Z -> (0 <= findIndexFrom p k l)%Z ->
  exists x, In x l /\ p x = true.
Proof.
  revert k. induction l as [|y l IH]; simpl; intros k Hk H.
  - lia.
  - destruct (p y) eqn:E.
    + exists y. auto.
    + destruct (IH (k + 1)%Z) as (x & Hx & Hp); [lia | exact H |].
      exists x. auto.
Qed.

Lemma findIndexFrom_range {A : Type} (p : A -> bool) l k :
  findIndexFrom p k l = (-1)%Z \/
  (k <= findIndexFrom p k l < k + Z.of_nat (length l))%Z.
Proof.
  revert k. induction l as [|y l IH]; simpl; intros k.
  - left. reflexivity.
  - destruct (p y).
    + right. lia.
    + destruct (IH (k + 1)%Z) as [->|H]; [left; reflexivity | right; lia].
Qed.

Lemma indexed_from_In (l : list Horse) a i h :
  In (i, h) (combine (seq a (length l)) l) ->
  (a <= i)%nat /\ l !! (i - a)%nat = Some h.
Proof.
  revert a. induction l as [|x l IH]; simpl; intros a H.
  - contradiction.
  - destruct H as [H|H].
    + inversion H; subst. split; [lia|]. rewrite Nat.sub_diag. reflexivity.
    + apply IH in H. destruct H as [Ha Hl]. split; [lia|].
      replace (i - a)%nat with (S (i - S a)) by lia. exact Hl.
Qed.

Lemma indexed_In hs i h : In (i, h) (indexed hs) -> hs !! i = Some h.
Proof.
  intros H. apply indexed_from_In in H. destruct H as [_ H].
  rewrite Nat.sub_0_r in H. exact H.
Qed.

Lemma activeOf_In hs i h :
  In (i, h) (activeOf hs) -> hs !! i = Some h /\ finished h = false.
Proof.
  unfold activeOf. rewrite List.filter_In. simpl. intros [H1 H2].
  split; [apply indexed_In, H1 | destruct (finished h); [discriminate|reflexivity]].
Qed.

(** A rank that is not [-1] is the rank of the horse itself. *)
Lemma rankOf_member hs me :
  (0 <= rankOf hs me)%Z ->
  exists h, hs !! me = Some h /\ finished h = false /\ In (me, h) (ranking hs).
Proof.
  unfold rankOf, findIndex. intros H.
  apply findIndexFrom_found in H; [|lia].
  destruct H as ([i h] & Hin & Hp). simpl in Hp.
  apply Nat.eqb_eq in Hp. subst i.
  exists h. pose proof Hin as Hin'.
  unfold ranking in Hin. apply sortByDistance_In, activeOf_In in Hin.
  tauto.
Qed.

Lemma ranking_length hs : Z.of_nat (length (ranking hs)) = activeCount hs.
Proof. unfold ranking, activeCount. rewrite sortByDistance_length. reflexivity. Qed.

Lemma In_indexed_from (l : list Horse) a k h :
  l !! k = Some h -> In ((a + k)%nat, h) (combine (seq a (length l)) l).
Proof.
  revert a k. induction l as [|x l IH]; intros a k H.
  - discriminate H.
  - destruct k as [|k]; simpl in *.
    + left. inversion H; subst. rewrite Nat.add_0_r. reflexivity.
    + right. replace (a + S k)%nat with (S a + k)%nat by lia.
      apply IH, H.
Qed.

Lemma In_activeOf hs k h :
  hs !! k = Some h -> finished h = false -> In (k, h) (activeOf hs).
Proof.
  intros H Hf. unfold activeOf. apply List.filter_In. split.
  - apply (In_indexed_from hs 0 k h H).
  - simpl. rewrite Hf. reflexivity.
Qed.

(** The leader's distance is the greatest distance of an active horse. *)
Lemma leaderDistance_greatest hs k h :
  hs !! k = Some h -> finished h = false -> distance h <= leaderDistance hs.
Proof.
  intros H Hf. pose proof (In_activeOf hs k h H Hf) as Hin.
  apply sortByDistance_In in Hin. fold (ranking hs) in Hin.
  unfold leaderDistance.
  destruct (ranking hs) as [|[i l] rest] eqn:E; [contradiction|].
  apply (ranking_head hs (i, l) rest (k, h) E). rewrite E. exact Hin.
Qed.

Lemma leaderDistance_attained hs :
  (0 < activeCount hs)%Z ->
  exists k h, hs !! k = Some h /\ finished h = false /\
              leaderDistance hs = distance h.
Proof.
  intros HN. rewrite <- ranking_length in HN. unfold leaderDistance.
  destruct (ranking hs) as [|[i l] rest] eqn:E; [simpl in HN; lia|].
  assert (Hin : In (i, l) (ranking hs)) by (rewrite E; left; reflexivity).
  unfold ranking in Hin. apply sortByDistance_In, activeOf_In in Hin.
  exists i, l. tauto.
Qed.

Lemma findIndexFrom_hit {A : Type} (p : A -> bool) l k x :
  In x l -> p x = true -> (k <= findIndexFrom p k l)%Z.
Proof.
  revert k. induction l as [|y l IH]; simpl; intros k Hin Hp.
  - contradiction.
  - destruct (p y) eqn:E; [lia|].
    destruct Hin as [->|Hin]; [congruence|].
    specialize (IH (k + 1)%Z Hin Hp). lia.
Qed.

(** An active member of the roster has a rank among the active horses. *)
Lemma rankOf_range hs me h :
  hs !! me = Some h -> finished h = false ->
  (0 <= rankOf hs me < activeCount hs)%Z.
Proof.
  intros H Hf. pose proof (In_activeOf hs me h H Hf) as Hin.
  apply sortByDistance_In in Hin. fold (ranking hs) in Hin.
  unfold rankOf, findIndex.
  pose proof (findIndexFrom_hit (fun p => Nat.eqb (fst p) me)
                (ranking hs) 0 (me, h) Hin (Nat.eqb_refl me)) as Hlo.
  destruct (findIndexFrom_range (fun p => Nat.eqb (fst p) me)
              (ranking hs) 0) as [E|Hr].
  - rewrite E in Hlo. lia.
  - rewrite ranking_length in Hr. lia.
Qed.

(** The horse of rank 0 is the head of the ranking. *)
Lemma rankOf_zero_head hs me h :
  hs !! me = Some h -> rankOf hs me = 0%Z ->
  exists rest, ranking hs = (me, h) :: rest.
Proof.
  intros H Hr. unfold rankOf, findIndex in Hr.
  destruct (ranking hs) as [|[i x] rest] eqn:E; simpl in Hr; [lia|].
  destruct (Nat.eqb i me) eqn:Ei.
  - apply Nat.eqb_eq in Ei. subst i.
    assert (Hin : In (me, x) (ranking hs)) by (rewrite E; left; reflexivity).
    unfold ranking in Hin. apply sortByDistance_In, activeOf_In in Hin.
    destruct Hin as [Hx _]. rewrite H in Hx. inversion Hx; subst.
    exists rest. reflexivity.
  - exfalso.
    destruct (findIndexFrom_range (fun p => Nat.eqb (fst p) me) rest (0 + 1))
      as [E1|E1]; lia.
Qed.

(** The leader is not behind the second. *)
Lemma secondDistance_le_leader hs :
  secondDistance hs <= leaderDistance hs \/ (activeCount hs <= 1)%Z.
Proof.
  unfold secondDistance, leaderDistance.
  pose proof (sortByDistance_sorted (activeOf hs)) as Hs.
  pose proof (ranking_length hs) as Hlen.
  fold (ranking hs) in Hs.
  destruct (ranking hs) as [|[i l] [|[j x] rest]]; simpl in Hlen;
    try (right; lia).
  left. inversion Hs as [|? ? _ Hall]; subst.
  inversion Hall; subst. assumption.
Qed.

End Ranking.

(** ** The rank is the number of horses placed before *)

Section RankCount.

Local Abbreviation key k := (fun p : nat * Horse => Nat.eqb (fst p) k).
Local Abbreviation strictlyAhead y :=
  (fun z : nat * Horse =>
     if JS.lt (distance (snd y)) (distance (snd z)) then true else false).

Lemma findIndexFrom_shift {A : Type} (p : A -> bool) l k x :
  In x l -> p x = true ->
  findIndexFrom p (k + 1) l = (findIndexFrom p k l + 1)%Z.
Proof.
  revert k. induction l as [|y l IH]; simpl; intros k Hin Hp.
  - contradiction.
  - destruct (p y) eqn:E; [reflexivity|].
    destruct Hin as [->|Hin]; [congruence|].
    apply IH; assumption.
Qed.

(** Inserting [y] into a ranking that does not hold it puts it behind the
    horses strictly ahead of it. *)
Lemma insert_rank_self y S k :
  StronglySorted leads S ->
  (forall z, In z S -> fst z <> fst y) ->
  findIndexFrom (key (fst y)) k (insertByDistance y S) =
  (k + Z.of_nat (length (List.filter (strictlyAhead y) S)))%Z.
Proof.
  intros Hs. revert k. induction Hs as [|z S Hs IH Hz]; intros k Hk; simpl.
  - rewrite Nat.eqb_refl. lia.
  - destruct (JS.lt (distance (snd y)) (distance (snd z))) as [Hlt|Hge]; simpl.
    + assert (E : Nat.eqb (fst z) (fst y) = false).
      { apply Nat.eqb_neq, Hk. left. reflexivity. }
      rewrite E. rewrite IH by (intros w Hw; apply Hk; right; exact Hw).
      lia.
    + rewrite Nat.eqb_refl.
      assert (E : List.filter (strictlyAhead y) S = []).
      { rewrite (List.filter_ext_in _ (fun _ => false));
          [apply List.filter_false|].
        intros w Hw.
        rewrite List.Forall_forall in Hz. specialize (Hz w Hw).
        unfold leads in Hz.
        destruct (JS.lt (distance (snd y)) (distance (snd w))) as [C|_];
          [|reflexivity].
        exfalso. apply (Qlt_not_le _ _ C). eapply Qle_trans; eassumption. }
      rewrite E. simpl. lia.
Qed.

(** Inserting [y] moves a ranked horse [x] one place back exactly when [y]
    is not strictly behind it. *)
Lemma insert_rank_other x y S k :
  StronglySorted leads S -> In x S -> fst y <> fst x ->
  (forall z, In z S -> fst z = fst x -> z = x) ->
  findIndexFrom (key (fst x)) k (insertByDistance y S) =
  (findIndexFrom (key (fst x)) k S
   + if JS.lt (distance (snd y)) (distance (snd x)) then 0 else 1)%Z.
Proof.
  intros Hs. revert k.
  induction Hs as [|z S Hs IH Hz]; intros k Hin Hy Hkey; simpl.
  - contradiction.
  - assert (Ey : Nat.eqb (fst y) (fst x) = false) by (apply Nat.eqb_neq, Hy).
    destruct (Nat.eqb (fst z) (fst x)) eqn:Ez.
    + apply Nat.eqb_eq in Ez.
      assert (z = x) as -> by (apply Hkey; [left; reflexivity | exact Ez]).
      destruct (JS.lt (distance (snd y)) (distance (snd x))); simpl.
      * rewrite Nat.eqb_refl. lia.
      * rewrite Ey, Nat.eqb_refl. lia.
    + destruct Hin as [->|Hin]; [rewrite Nat.eqb_refl in Ez; discriminate|].
      destruct (JS.lt (distance (snd y)) (distance (snd z))) as [Hlt|Hge]; simpl.
      * rewrite Ez. apply IH; [exact Hin | exact Hy |].
        intros w Hw. apply Hkey. right. exact Hw.
      * rewrite Ey, Ez.
        rewrite (findIndexFrom_shift _ S (k + 1) x Hin (Nat.eqb_refl _)).
        rewrite List.Forall_forall in Hz. specialize (Hz x Hin).
        unfold leads in Hz.
        destruct (JS.lt (distance (snd y)) (distance (snd x))) as [C|_];
          [|reflexivity].
        exfalso. apply (Qlt_not_le _ _ C). eapply Qle_trans; eassumption.
Qed.

Lemma filter_insertByDistance (f : nat * Horse -> bool) y S :
  length (List.filter f (insertByDistance y S)) =
  length (List.filter f (y :: S)).
Proof.
  induction S as [|z S IH]; simpl; [reflexivity|].
  destruct (JS.lt _ _); simpl; [|reflexivity].
  simpl in IH. destruct (f z), (f y); simpl in *; rewrite IH; reflexivity.
Qed.

Lemma filter_sortByDistance (f : nat * Horse -> bool) l :
  length (List.filter f (sortByDistance l)) = length (List.filter f l).
Proof.
  induction l as [|y l IH]; simpl; [reflexivity|].
  rewrite filter_insertByDistance. simpl.
  destruct (f y); simpl; rewrite IH; reflexivity.
Qed.

Lemma byPosition_unique l a b :
  StronglySorted byPosition l -> In a l -> In b l -> fst a = fst b -> a = b.
Proof.
  induction 1 as [|z l Hs IH Hz]; intros Ha Hb E; [contradiction|].
  rewrite List.Forall_forall in Hz. unfold byPosition in Hz.
  destruct Ha as [->|Ha], Hb as [->|Hb].
  - reflexivity.
  - specialize (Hz b Hb). lia.
  - specialize (Hz a Ha). lia.
  - apply IH; assumption.
Qed.

(** In a list that lists the horses by roster position, the rank of a
    member after the sort is the number of members placed before it. *)
Lemma rank_counts l x :
  StronglySorted byPosition l -> In x l ->
  findIndexFrom (key (fst x)) 0 (sortByDistance l) =
  Z.of_nat (length (List.filter (placedBefore x) l)).
Proof.
  induction 1 as [|y l Hs IH Hy]; intros Hin; [contradiction|].
  pose proof Hy as Hy'. rewrite List.Forall_forall in Hy'.
  unfold byPosition in Hy'.
  simpl sortByDistance. destruct Hin as [->|Hin].
  - rewrite insert_rank_self.
    + rewrite filter_sortByDistance. simpl.
      assert (E : placedBefore x x = false).
      { unfold placedBefore.
        destruct (JS.lt (distance (snd x)) (distance (snd x))) as [C|_];
          [exfalso; apply (Qlt_irrefl _ C)|].
        apply Nat.ltb_irrefl. }
      rewrite E, Z.add_0_l. f_equal. f_equal.
      apply List.filter_ext_in. intros z Hz. specialize (Hy' z Hz).
      unfold placedBefore.
      destruct (JS.lt (distance (snd x)) (distance (snd z))); [reflexivity|].
      destruct (JS.lt (distance (snd z)) (distance (snd x))); [reflexivity|].
      symmetry. apply Nat.ltb_ge. lia.
    + apply sortByDistance_sorted.
    + intros z Hz. apply (proj1 (sortByDistance_In _ _)) in Hz. specialize (Hy' z Hz). lia.
  - pose proof (Hy' x Hin) as Hlt.
    rewrite insert_rank_other.
    + rewrite (IH Hin). simpl.
      assert (E : placedBefore x y =
                  if JS.lt (distance (snd y)) (distance (snd x))
                  then false else true).
      { unfold placedBefore.
        destruct (JS.lt (distance (snd x)) (distance (snd y))) as [A|A];
        destruct (JS.lt (distance (snd y)) (distance (snd x))) as [B|B];
          try reflexivity.
        - exfalso. apply (Qlt_irrefl (distance (snd x))).
          eapply Qlt_trans; eassumption.
        - apply Nat.ltb_lt. exact Hlt. }
      rewrite E.
      destruct (JS.lt (distance (snd y)) (distance (snd x))); simpl; lia.
    + apply sortByDistance_sorted.
    + apply sortByDistance_In, Hin.
    + lia.
    + intros z Hz Ez. apply (proj1 (sortByDistance_In _ _)) in Hz.
      apply (byPosition_unique l z x Hs Hz Hin Ez).
Qed.

Lemma indexed_from_byPosition (l : list Horse) a :
  StronglySorted byPosition (combine (seq a (length l)) l).
Proof.
  revert a. induction l as [|x l IH]; intros a; simpl.
  - constructor.
  - constructor; [apply IH|].
    rewrite List.Forall_forall. intros [i h] Hin.
    apply indexed_from_In in Hin. unfold byPosition. simpl. lia.
Qed.

Lemma filter_byPosition (f : nat * Horse -> bool) l :
  StronglySorted byPosition l -> StronglySorted byPosition (List.filter f l).
Proof.
  induction 1 as [|y l Hs IH Hy]; simpl; [constructor|].
  destruct (f y); [|exact IH].
  constructor; [exact IH|].
  rewrite List.Forall_forall in Hy |- *. intros z Hz.
  apply List.filter_In in Hz. apply Hy, Hz.
Qed.

(** The rank the service reads is the number of active horses that are
    strictly ahead, or level and earlier in the roster. *)
Lemma rankOf_counts hs me h :
  hs !! me = Some h -> finished h = false ->
  rankOf hs me = placesBefore hs me h.
Proof.
  intros H Hf. unfold rankOf, findIndex, ranking, placesBefore.
  apply (rank_counts (activeOf hs) (me, h)).
  - unfold activeOf. apply filter_byPosition, indexed_from_byPosition.
  - apply In_activeOf; assumption.
Qed.

End RankCount.

(** ** The positioning service, branch by branch *)

Section Positioning.

Variable scene : Scene.
Variable rnd : nat -> Q.
Variable peers : list Horse.
Variable me : nat.

Local Abbreviation service := (updateRacePositioningFactors scene rnd peers me).

Lemma positioning_idle s :
  raceInProgress scene = false \/ finished (self s) = true \/
  (activeCount (<[me := self s]> peers) <= 1)%Z ->
  exec service s = s.
Proof.
  intros H. unfold updateRacePositioningFactors, exec, bind, this, sceneHorses.
  simpl.
  destruct (raceInProgress scene); simpl.
  - destruct (finished (self s)); simpl; [reflexivity|].
    destruct H as [H|[H|H]]; try discriminate.
    unfold activeCount in H. apply Z.leb_le in H. rewrite H. reflexivity.
  - reflexivity.
Qed.

Lemma positioning_trailing s :
  raceInProgress scene = true -> finished (self s) = false ->
  let hs := <[me := self s]> peers in
  (1 < activeCount hs)%Z -> (0 < rankOf hs me)%Z ->
  let s' := exec service s in
  catchUpFactor (self s') =
    catchUpFormula (trackLength scene) (rankOf hs me) (activeCount hs)
      (leaderDistance hs) (distance (self s)) (rnd (cursor s)) /\
  leadHandicap (self s') = leadHandicap (self s) /\
  cursor s' = S (S (cursor s)).
Proof.
  intros Hrace Hfin hs HN Hr s'. subst s'.
  unfold updateRacePositioningFactors, exec, bind, this, sceneHorses.
  simpl. rewrite Hrace, Hfin. simpl. fold hs.
  unfold activeCount in HN.
  destruct (Z.of_nat (length (activeOf hs)) <=? 1)%Z eqn:E;
    [apply Z.leb_le in E; lia|].
  change (sortByDistance (activeOf hs)) with (ranking hs).
  change (findIndex (fun p => Nat.eqb (fst p) me) (ranking hs))
    with (rankOf hs me).
  destruct (rankOf hs me >? 0)%Z eqn:E2; [|rewrite Z.gtb_ltb in E2; apply Z.ltb_ge in E2; lia].
  unfold catchUpFormula, leaderDistance.
  rewrite <- ranking_length.
  destruct (ranking hs) as [|[i leader] rest] eqn:E3.
  - unfold rankOf, findIndex in Hr. rewrite E3 in Hr. simpl in Hr. lia.
  - unfold Math_random, assign, addMomentum, assign, ret. simpl.
    destruct (rankOf hs me =? _)%Z; simpl;
      destruct (JS.lt _ _); simpl; try destruct (JS.gt _ _); simpl;
      repeat split; reflexivity.
Qed.

Lemma positioning_leading s :
  raceInProgress scene = true -> finished (self s) = false ->
  let hs := <[me := self s]> peers in
  (1 < activeCount hs)%Z -> (rankOf hs me <= 0)%Z ->
  let s' := exec service s in
  leadHandicap (self s') =
    Qmin 0.3 ((distance (self s) - secondDistance hs) / trackLength scene * 2) /\
  catchUpFactor (self s') = 0 /\
  cursor s' = S (cursor s).
Proof.
  intros Hrace Hfin hs HN Hr s'. subst s'.
  unfold updateRacePositioningFactors, exec, bind, this, sceneHorses.
  simpl. rewrite Hrace, Hfin. simpl. fold hs.
  unfold activeCount in HN.
  destruct (Z.of_nat (length (activeOf hs)) <=? 1)%Z eqn:E;
    [apply Z.leb_le in E; lia|].
  change (sortByDistance (activeOf hs)) with (ranking hs).
  change (findIndex (fun p => Nat.eqb (fst p) me) (ranking hs))
    with (rankOf hs me).
  destruct (rankOf hs me >? 0)%Z eqn:E2;
    [rewrite Z.gtb_ltb in E2; apply Z.ltb_lt in E2; lia|].
  unfold secondDistance.
  pose proof (ranking_length hs) as Hlen. unfold activeCount in Hlen.
  destruct (ranking hs) as [|p1 [|[i second] rest]] eqn:E3;
    simpl in Hlen; try lia.
  unfold Math_random, assign, addMomentum, assign, ret. simpl.
  destruct (JS.lt _ _); simpl; try destruct (JS.gt _ _); simpl;
    repeat split; reflexivity.
Qed.

End Positioning.

(** ** What each method writes

    Each lemma names the fields a method assigns: a reading of [this]
    that none of these assignments changes is the same after the call. *)

Section Writes.

Context {X : Type} (g : Horse -> X).

Lemma preserves_exec {A : Type} (c : M A) s :
  preserves g c -> g (self (exec c s)) = g (self s).
Proof. intros H. apply H. Qed.

Lemma preserves_assign {V : Type} (set : V -> Horse -> Horse) (v : V) :
  untouchedBy g set -> preserves g (assign (set v)).
Proof. intros H. apply keeps_assign_self. intros h. apply H. Qed.

Lemma preserves_assign_fun {V : Type} (set : V -> Horse -> Horse)
    (v : Horse -> V) :
  untouchedBy g set -> preserves g (assign (fun h => set (v h) h)).
Proof. intros H. apply keeps_assign_self. intros h. apply H. Qed.

Lemma preserves_addMomentum d :
  untouchedBy g set_momentum -> preserves g (addMomentum d).
Proof. apply preserves_assign_fun. Qed.

Lemma preserves_random rnd : preserves g (Math_random rnd).
Proof. apply keeps_random_self. Qed.

Lemma preserves_horseFinished me : preserves g (horseFinished me).
Proof. apply keeps_finished_self. Qed.

End Writes.

#[local] Hint Resolve preserves_assign preserves_assign_fun
  preserves_addMomentum preserves_random preserves_horseFinished : frame.

Ltac writes := unfold preserves in *; frame; fold_preserves; auto with frame
with fold_preserves :=
  repeat match goal with
  | |- keeps (same (fun s => ?g (self s))) ?c => change (preserves g c)
  end.

Section Methods.

Variable scene : Scene.
Variable rnd : nat -> Q.
Variable peers : list Horse.
Variable me : nat.

Context {X : Type} (g : Horse -> X).

Lemma handleRaceEvents_writes time delta :
  untouchedBy g set_eventDuration -> untouchedBy g set_currentEvent ->
  untouchedBy g set_eventMultiplier -> untouchedBy g set_nextEventTime ->
  untouchedBy g set_momentum ->
  preserves g (handleRaceEvents scene rnd time delta).
Proof. intros. unfold handleRaceEvents. writes. Qed.

Lemma updateRacePositioningFactors_writes :
  untouchedBy g set_catchUpFactor -> untouchedBy g set_leadHandicap ->
  untouchedBy g set_momentum ->
  preserves g (updateRacePositioningFactors scene rnd peers me).
Proof. intros. unfold updateRacePositioningFactors. writes. Qed.

Lemma applyFinalLapBalancing_writes :
  untouchedBy g set_momentum ->
  preserves g (applyFinalLapBalancing scene peers me).
Proof. intros. unfold applyFinalLapBalancing. writes. Qed.

Lemma enterLap_writes :
  untouchedBy g set_currentLap -> untouchedBy g set_momentum ->
  preserves g (enterLap scene rnd peers me).
Proof.
  intros. unfold enterLap. writes.
  apply applyFinalLapBalancing_writes; assumption.
Qed.

Lemma applyMomentum_writes :
  untouchedBy g set_momentum -> preserves g applyMomentum.
Proof. intros. unfold applyMomentum. writes. Qed.

Lemma advance_writes delta :
  untouchedBy g set_momentum -> untouchedBy g set_currentSpeed ->
  untouchedBy g set_distance ->
  preserves g (advance scene rnd delta).
Proof.
  intros. unfold advance. writes.
  apply applyMomentum_writes; assumption.
Qed.

Lemma finishRace_writes time :
  untouchedBy g set_finished -> untouchedBy g set_finishTime ->
  preserves g (finishRace me time).
Proof. intros. unfold finishRace. writes. Qed.

Lemma checkFinish_writes time :
  untouchedBy g set_finished -> untouchedBy g set_finishTime ->
  preserves g (checkFinish scene me time).
Proof.
  intros. unfold checkFinish. writes.
  apply finishRace_writes; assumption.
Qed.

Lemma reset_writes :
  untouchedBy g set_currentSpeed -> untouchedBy g set_distance ->
  untouchedBy g set_currentLap -> untouchedBy g set_finished ->
  untouchedBy g set_finishTime -> untouchedBy g set_position ->
  untouchedBy g set_catchUpFactor -> untouchedBy g set_leadHandicap ->
  untouchedBy g set_laneOffset -> untouchedBy g set_legMovement ->
  preserves g (reset scene).
Proof. intros. unfold reset. writes. Qed.

End Methods.

(** A projection is untouched by the assignment of another field. *)
Ltac untouched := intros ? ?; reflexivity.

#[local] Hint Extern 1 (untouchedBy _ _) => untouched : frame.

(** ** What [update] writes before the finish check *)

Section UpdateWrites.

Variable scene : Scene.
Variable rnd : nat -> Q.
Variable peers : list Horse.
Variable me : nat.
Variables time delta : Q.

Lemma atMomentum_writes {X : Type} (g : Horse -> X) s :
  untouchedBy g set_currentLap -> untouchedBy g set_momentum ->
  untouchedBy g set_eventDuration -> untouchedBy g set_currentEvent ->
  untouchedBy g set_eventMultiplier -> untouchedBy g set_nextEventTime ->
  untouchedBy g set_catchUpFactor -> untouchedBy g set_leadHandicap ->
  g (self (atMomentum scene rnd peers me time delta s)) = g (self s).
Proof.
  intros. unfold atMomentum.
  etransitivity; [apply (updateRacePositioningFactors_writes scene rnd peers me g); assumption|].
  etransitivity; [apply (handleRaceEvents_writes scene rnd g); assumption|].
  apply (enterLap_writes scene rnd peers me g); assumption.
Qed.

Lemma atFinishCheck_writes {X : Type} (g : Horse -> X) s :
  untouchedBy g set_currentLap -> untouchedBy g set_momentum ->
  untouchedBy g set_eventDuration -> untouchedBy g set_currentEvent ->
  untouchedBy g set_eventMultiplier -> untouchedBy g set_nextEventTime ->
  untouchedBy g set_catchUpFactor -> untouchedBy g set_leadHandicap ->
  untouchedBy g set_currentSpeed -> untouchedBy g set_distance ->
  untouchedBy g set_legMovement ->
  g (self (atFinishCheck scene rnd peers me time delta s)) = g (self s).
Proof.
  intros. unfold atFinishCheck. rewrite exec_assign. simpl.
  match goal with H : untouchedBy g set_legMovement |- _ => rewrite H end.
  etransitivity; [apply (advance_writes scene rnd g); assumption|].
  apply atMomentum_writes; assumption.
Qed.

(** No finish is notified before the finish check. *)
Lemma applyFinalLapBalancing_quiet :
  keeps (same notified) (applyFinalLapBalancing scene peers me).
Proof. unfold applyFinalLapBalancing. frame_auto. Qed.

Lemma enterLap_quiet : keeps (same notified) (enterLap scene rnd peers me).
Proof.
  unfold enterLap. frame_auto. apply applyFinalLapBalancing_quiet.
Qed.

Lemma handleRaceEvents_quiet :
  keeps (same notified) (handleRaceEvents scene rnd time delta).
Proof. unfold handleRaceEvents. frame_auto. Qed.

Lemma updateRacePositioningFactors_quiet :
  keeps (same notified) (updateRacePositioningFactors scene rnd peers me).
Proof. unfold updateRacePositioningFactors. frame_auto. Qed.

Lemma advance_quiet : keeps (same notified) (advance scene rnd delta).
Proof. unfold advance, applyMomentum. frame_auto. Qed.

Lemma atFinishCheck_quiet s :
  notified (atFinishCheck scene rnd peers me time delta s) = notified s.
Proof.
  unfold atFinishCheck, atMomentum. rewrite exec_assign. simpl.
  etransitivity; [apply advance_quiet|].
  etransitivity; [apply updateRacePositioningFactors_quiet|].
  etransitivity; [apply handleRaceEvents_quiet|].
  apply enterLap_quiet.
Qed.

(** The finish check itself. *)
Lemma checkFinish_crossing s :
  finished (self s) = false ->
  onFinishLine scene (distance (self s)) ->
  exec (checkFinish scene me time) s =
  mkSt (set_finishTime (Some time) (set_finished true (self s)))
       (cursor s) (notified s ++ [me]).
Proof.
  intros Hf (H1 & H2 & H3).
  unfold checkFinish, exec, bind, this. simpl. rewrite Hf. simpl.
  destruct (JS.ge _ _) as [_|C]; [|exfalso; apply (Qlt_not_le _ _ C H1)].
  destruct (JS.ge _ _) as [_|C]; [|exfalso; apply (Qlt_not_le _ _ C H2)].
  destruct (JS.le _ _) as [_|C]; [|exfalso; apply (Qlt_not_le _ _ C H3)].
  reflexivity.
Qed.

Lemma checkFinish_short s :
  ~ onFinishLine scene (distance (self s)) ->
  exec (checkFinish scene me time) s = s.
Proof.
  intros Hn. unfold checkFinish, exec, bind, this. simpl.
  destruct (finished (self s)); simpl; [reflexivity|].
  destruct (JS.ge _ _) as [H1|]; [|reflexivity].
  destruct (JS.ge _ _) as [H2|]; [|reflexivity].
  destruct (JS.le _ _) as [H3|]; [|reflexivity].
  exfalso. apply Hn. repeat split; assumption.
Qed.

End UpdateWrites.

Lemma update_at_finish_check scene rnd peers me time delta s :
  finished (self s) = false ->
  exec (update scene rnd peers me time delta) s =
  exec (checkFinish scene me time)
       (atFinishCheck scene rnd peers me time delta s).
Proof. intros H. rewrite update_running by exact H. reflexivity. Qed.

Lemma onFinishLine_dec scene d :
  onFinishLine scene d \/ ~ onFinishLine scene d.
Proof.
  unfold onFinishLine.
  destruct (JS.ge d (inject_Z (totalLaps scene) * trackLength scene)) as [H1|H1];
  destruct (JS.ge (JS.rem d (trackLength scene)) 0) as [H2|H2];
  destruct (JS.le (JS.rem d (trackLength scene)) 50) as [H3|H3];
  first [ left; tauto
        | right; intros (A & B & C);
          first [ apply (Qlt_not_le _ _ H1 A)
                | apply (Qlt_not_le _ _ H2 B)
                | apply (Qlt_not_le _ _ H3 C) ] ].
Qed.

(** ** The lap counter *)

Section Lap.

Variable scene : Scene.
Variable rnd : nat -> Q.
Variable peers : list Horse.
Variable me : nat.

Lemma enterLap_currentLap s :
  currentLap (self (exec (enterLap scene rnd peers me) s)) =
  lapOf scene (distance (self s)).
Proof.
  unfold enterLap. rewrite exec_bind. simpl fst. simpl snd.
  rewrite exec_seq, exec_assign. rewrite exec_bind. simpl fst. simpl snd.
  cbv zeta.
  match goal with |- context [if ?c then _ else _] => destruct c end.
  - rewrite exec_bind, exec_seq.
    match goal with |- context [if ?c then _ else _] => destruct c end;
      [rewrite (preserves_exec currentLap)
         by (apply applyFinalLapBalancing_writes; untouched)
      | rewrite exec_ret];
      match goal with |- context [if ?c then _ else _] => destruct c end;
      try rewrite exec_bind; reflexivity.
  - reflexivity.
Qed.

(** Past the lap bookkeeping, [update] writes these fields only. *)
Lemma after_enterLap_writes {X : Type} (g : Horse -> X) time delta s :
  finished (self s) = false ->
  untouchedBy g set_momentum ->
  untouchedBy g set_eventDuration -> untouchedBy g set_currentEvent ->
  untouchedBy g set_eventMultiplier -> untouchedBy g set_nextEventTime ->
  untouchedBy g set_catchUpFactor -> untouchedBy g set_leadHandicap ->
  untouchedBy g set_currentSpeed -> untouchedBy g set_distance ->
  untouchedBy g set_legMovement ->
  untouchedBy g set_finished -> untouchedBy g set_finishTime ->
  g (self (exec (update scene rnd peers me time delta) s)) =
  g (self (exec (enterLap scene rnd peers me) s)).
Proof.
  intros Hf. intros. rewrite update_running by exact Hf.
  rewrite (preserves_exec g) by (apply checkFinish_writes; assumption).
  rewrite exec_assign. simpl.
  match goal with H : untouchedBy g set_legMovement |- _ => rewrite H end.
  rewrite (preserves_exec g) by (apply advance_writes; assumption).
  unfold atMomentum.
  rewrite (preserves_exec g)
    by (apply updateRacePositioningFactors_writes; assumption).
  rewrite (preserves_exec g) by (apply handleRaceEvents_writes; assumption).
  reflexivity.
Qed.

Lemma update_currentLap time delta s :
  finished (self s) = false ->
  currentLap (self (exec (update scene rnd peers me time delta) s)) =
  lapOf scene (distance (self s)).
Proof.
  intros Hf. rewrite (after_enterLap_writes currentLap) by (exact Hf || untouched).
  apply enterLap_currentLap.
Qed.

Lemma atMomentum_currentLap time delta s :
  currentLap (self (atMomentum scene rnd peers me time delta s)) =
  lapOf scene (distance (self s)).
Proof.
  unfold atMomentum.
  rewrite (preserves_exec currentLap)
    by (apply updateRacePositioningFactors_writes; untouched).
  rewrite (preserves_exec currentLap)
    by (apply handleRaceEvents_writes; untouched).
  apply enterLap_currentLap.
Qed.

Lemma lapOf_le_totalLaps d : (lapOf scene d <= totalLaps scene)%Z.
Proof. unfold lapOf. lia. Qed.

Lemma lapOf_monotone d1 d2 :
  0 < trackLength scene -> d1 <= d2 ->
  (lapOf scene d1 <= lapOf scene d2)%Z.
Proof.
  intros HL Hd. unfold lapOf, JS.floor.
  assert (Hq : d1 / trackLength scene <= d2 / trackLength scene).
  { unfold Qdiv. apply Qmult_le_compat_r; [exact Hd|].
    apply Qlt_le_weak, Qinv_lt_0_compat, HL. }
  apply Qfloor_resp_le in Hq. lia.
Qed.

Lemma lapOf_positive d :
  (1 <= totalLaps scene)%Z -> 0 < trackLength scene -> 0 <= d ->
  (1 <= lapOf scene d)%Z.
Proof.
  intros HT HL Hd. unfold lapOf, JS.floor.
  assert (Hq : 0 <= d / trackLength scene).
  { unfold Qdiv. apply Qmult_le_0_compat; [exact Hd|].
    apply Qlt_le_weak, Qinv_lt_0_compat, HL. }
  apply Qfloor_resp_le in Hq. change (Qfloor 0) with 0%Z in Hq. lia.
Qed.

End Lap.

Lemma lapFactorAt_in_bounds lfs k :
  (0 <= k < Z.of_nat (length lfs))%Z ->
  exists lf, lapFactorAt lfs k = Some lf /\ In lf lfs.
Proof.
  intros Hk. unfold lapFactorAt.
  destruct (k <? 0)%Z eqn:E; [apply Z.ltb_lt in E; lia|].
  destruct (nth_error lfs (Z.to_nat k)) as [lf|] eqn:En.
  - exists lf. split; [reflexivity|]. eapply nth_error_In, En.
  - apply nth_error_None in En. lia.
Qed.



(** ** The decay of the momentum *)

Lemma applyMomentum_decay s :
  momentum (self (exec applyMomentum s)) = decay (momentum (self s)).
Proof.
  unfold applyMomentum, decay, exec, bind, this, assign. simpl.
  destruct (JS.gt _ _); reflexivity.
Qed.

Lemma advance_momentum scene rnd delta s :
  momentum (self (exec (advance scene rnd delta) s)) =
  decay (momentum (self s)).
Proof.
  rewrite <- applyMomentum_decay.
  unfold advance. rewrite exec_bind. simpl fst. simpl snd. cbv zeta.
  rewrite exec_seq.
  set (s1 := exec applyMomentum s).
  apply (preserves_exec momentum).
  writes.
Qed.

Lemma update_momentum scene rnd peers me time delta s :
  finished (self s) = false ->
  momentum (self (exec (update scene rnd peers me time delta) s)) =
  decay (momentum (self (atMomentum scene rnd peers me time delta s))).
Proof.
  intros Hf. rewrite update_running by exact Hf.
  rewrite (preserves_exec momentum) by (apply checkFinish_writes; untouched).
  rewrite exec_assign. simpl.
  apply advance_momentum.
Qed.

Lemma decay_above m : 0.01 < Qabs m -> decay m = m * 0.995.
Proof.
  intros H. unfold decay. destruct (JS.gt _ _) as [_|C]; [reflexivity|].
  exfalso. apply (Qlt_not_le _ _ H C).
Qed.

Lemma decay_below m : Qabs m <= 0.01 -> decay m = 0.
Proof.
  intros H. unfold decay. destruct (JS.gt _ _) as [C|_]; [|reflexivity].
  exfalso. apply (Qlt_not_le _ _ C H).
Qed.

Lemma pow995_succ n :
  0.995 ^ Z.of_nat (S n) == 0.995 ^ Z.of_nat n * 0.995.
Proof.
  rewrite Nat2Z.inj_succ. unfold Z.succ.
  rewrite Qpower_plus by (intros C; vm_compute in C; discriminate C).
  reflexivity.
Qed.

(** After [n] decays the momentum is either the geometric value, having
    stayed above the threshold, or exactly 0, having met it. *)
Lemma iter_decay m0 n :
  ((forall k, (k < n)%nat -> 0.01 < Qabs (m0 * 0.995 ^ Z.of_nat k)) /\
   Nat.iter n decay m0 == m0 * 0.995 ^ Z.of_nat n)
  \/
  ((exists k, (k < n)%nat /\ Qabs (m0 * 0.995 ^ Z.of_nat k) <= 0.01) /\
   Nat.iter n decay m0 = 0).
Proof.
  induction n as [|n IH].
  - left. split; [intros k Hk; lia|]. simpl. ring.
  - change (Nat.iter (S n) decay m0) with (decay (Nat.iter n decay m0)).
    destruct IH as [[Habove Heq]|[(k & Hk & Hbelow) Hzero]].
    + destruct (Qlt_le_dec 0.01 (Qabs (m0 * 0.995 ^ Z.of_nat n))) as [Hn|Hn].
      * left. split.
        -- intros k Hk. destruct (Nat.eq_dec k n) as [->|Hne];
             [exact Hn | apply Habove; lia].
        -- rewrite decay_above by (rewrite Heq; exact Hn).
           rewrite Heq, pow995_succ. ring.
      * right. split; [exists n; split; [lia | exact Hn]|].
        apply decay_below. rewrite Heq. exact Hn.
    + right. split; [exists k; split; [lia | exact Hbelow]|].
      rewrite Hzero. reflexivity.
Qed.

Lemma quietTick_decay h h' : quietTick h h' -> momentum h' = decay (momentum h).
Proof.
  intros (scene & rnd & time & delta & me & w & Hh & Hf & Hat & Hq).
  rewrite (Horse_update_horseAt _ _ _ _ _ _ _ Hh) in Hat.
  injection Hat as <-.
  rewrite update_momentum by exact Hf. rewrite Hq. reflexivity.
Qed.

Lemma quietTicks_iter n h h' :
  quietTicks n h h' -> momentum h' = Nat.iter n decay (momentum h).
Proof.
  induction 1 as [h|n h h1 h2 _ IH Htick].
  - reflexivity.
  - rewrite (quietTick_decay _ _ Htick), IH. reflexivity.
Qed.

(** ** A floor for the catch-up factor *)

(** A trailing horse gets a catch-up factor of at least 0.03. *)
Lemma catchUpFormula_at_least L r N leaderDist myDist u :
  0 < L -> (0 < r)%Z -> myDist <= leaderDist -> 0 <= u ->
  0.03 <= catchUpFormula L r N leaderDist myDist u.
Proof.
  intros HL Hr Hd Hu. unfold catchUpFormula.
  assert (Hp : 0.03 <= Qmin 0.25 (0.03 * inject_Z r)).
  { apply Q.min_glb; [vm_compute; intros C; discriminate C|].
    assert (H1 : 1 <= inject_Z r).
    { change 1 with (inject_Z 1). rewrite <- Zle_Qle. lia. }
    lra. }
  assert (Hf : 0 <= Qmin 0.25 ((leaderDist - myDist) / L * 1.5)).
  { apply Q.min_glb; [vm_compute; intros C; discriminate C|].
    apply Qmult_le_0_compat; [|vm_compute; intros C; discriminate C].
    unfold Qdiv. apply Qmult_le_0_compat; [lra|].
    apply Qlt_le_weak, Qinv_lt_0_compat, HL. }
  cbv zeta. destruct (r =? N - 1)%Z; lra.
Qed.

(** ** The invariant of a horse in a race *)

Section Invariant.

Variable scene : Scene.
Variable rnd : nat -> Q.
Variable peers : list Horse.
Variable me : nat.

Hypothesis scene_valid : ValidScene scene.
Hypothesis rnd_unit : unitInterval rnd.

Lemma positioning_catchUp_nonneg s :
  0 <= catchUpFactor (self s) ->
  0 <= catchUpFactor
         (self (exec (updateRacePositioningFactors scene rnd peers me) s)).
Proof.
  intros H0.
  destruct (raceInProgress scene) eqn:Hrace;
    [|rewrite positioning_idle by auto; exact H0].
  destruct (finished (self s)) eqn:Hfin;
    [rewrite positioning_idle by auto; exact H0|].
  set (hs := <[me := self s]> peers).
  destruct (Z_le_gt_dec (activeCount hs) 1) as [HN|HN];
    [rewrite positioning_idle by auto; exact H0|].
  destruct (Z_lt_le_dec 0 (rankOf hs me)) as [Hr|Hr].
  - destruct (positioning_trailing scene rnd peers me s Hrace Hfin)
      as (Hc & _); [fold hs; lia | exact Hr |].
    rewrite Hc. fold hs.
    apply (Qle_trans _ 0.03); [vm_compute; intros C; discriminate C|].
    apply catchUpFormula_at_least;
      [apply scene_valid | exact Hr | | apply rnd_unit].
    destruct (rankOf_member hs me) as (h & Hat & Hf & _); [lia|].
    assert (h = self s) as ->.
    { unfold hs in Hat. rewrite list_lookup_insert_eq in Hat; [congruence|].
      apply lookup_lt_Some in Hat. rewrite length_insert in Hat. exact Hat. }
    eapply leaderDistance_greatest; eassumption.
  - destruct (positioning_leading scene rnd peers me s Hrace Hfin)
      as (_ & Hc & _); [fold hs; lia | exact Hr |].
    rewrite Hc. apply Qle_refl.
Qed.

Lemma handleRaceEvents_multiplier time delta :
  keeps (stable (fun s => 0 < eventMultiplier (self s)))
        (handleRaceEvents scene rnd time delta).
Proof.
  unfold handleRaceEvents, addMomentum. frame;
    try apply (keeps_random_stable (fun h => 0 < eventMultiplier h));
    apply (keeps_assign_stable (fun h => 0 < eventMultiplier h));
    intros h Hh; simpl;
    first [exact Hh | vm_compute; reflexivity].
Qed.

(** Everything [update] may write. *)
Lemma update_writes {X : Type} (g : Horse -> X) time delta s :
  untouchedBy g set_currentLap -> untouchedBy g set_momentum ->
  untouchedBy g set_eventDuration -> untouchedBy g set_currentEvent ->
  untouchedBy g set_eventMultiplier -> untouchedBy g set_nextEventTime ->
  untouchedBy g set_catchUpFactor -> untouchedBy g set_leadHandicap ->
  untouchedBy g set_currentSpeed -> untouchedBy g set_distance ->
  untouchedBy g set_legMovement ->
  untouchedBy g set_finished -> untouchedBy g set_finishTime ->
  g (self (exec (update scene rnd peers me time delta) s)) = g (self s).
Proof.
  intros. destruct (finished (self s)) eqn:Hf.
  - rewrite update_finished by exact Hf. reflexivity.
  - rewrite after_enterLap_writes by assumption.
    apply (preserves_exec g). apply enterLap_writes; assumption.
Qed.

Lemma update_WellFormed time delta s :
  WellFormed (self s) ->
  WellFormed (self (exec (update scene rnd peers me time delta) s)).
Proof.
  intros (Hi & Hc & He).
  destruct (finished (self s)) eqn:Hf;
    [rewrite update_finished by exact Hf; exact (conj Hi (conj Hc He))|].
  split; [|split].
  - rewrite (update_writes innate) by untouched. exact Hi.
  - rewrite update_running by exact Hf.
    rewrite (preserves_exec catchUpFactor)
      by (apply checkFinish_writes; untouched).
    rewrite exec_assign. simpl.
    rewrite (preserves_exec catchUpFactor)
      by (apply advance_writes; untouched).
    unfold atMomentum. apply positioning_catchUp_nonneg.
    rewrite (preserves_exec catchUpFactor)
      by (apply handleRaceEvents_writes; untouched).
    rewrite (preserves_exec catchUpFactor)
      by (apply enterLap_writes; untouched).
    exact Hc.
  - rewrite update_running by exact Hf.
    rewrite (preserves_exec eventMultiplier)
      by (apply checkFinish_writes; untouched).
    rewrite exec_assign. simpl.
    rewrite (preserves_exec eventMultiplier)
      by (apply advance_writes; untouched).
    unfold atMomentum.
    rewrite (preserves_exec eventMultiplier)
      by (apply updateRacePositioningFactors_writes; untouched).
    apply (keeps_exec _ _ _ (handleRaceEvents_multiplier _ _)).
    rewrite (preserves_exec eventMultiplier)
      by (apply enterLap_writes; untouched).
    exact He.
Qed.

(** The state that reaches the decay of the momentum is well formed and
    stands where the call found it. *)
Lemma atMomentum_WellFormed time delta s :
  WellFormed (self s) ->
  WellFormed (self (atMomentum scene rnd peers me time delta s)).
Proof.
  intros (Hi & Hc & He). unfold atMomentum. split; [|split].
  - fold (atMomentum scene rnd peers me time delta s).
    rewrite (atMomentum_writes _ _ _ _ _ _ innate) by untouched. exact Hi.
  - apply positioning_catchUp_nonneg.
    rewrite (preserves_exec catchUpFactor)
      by (apply handleRaceEvents_writes; untouched).
    rewrite (preserves_exec catchUpFactor)
      by (apply enterLap_writes; untouched).
    exact Hc.
  - rewrite (preserves_exec eventMultiplier)
      by (apply updateRacePositioningFactors_writes; untouched).
    apply (keeps_exec _ _ _ (handleRaceEvents_multiplier _ _)).
    rewrite (preserves_exec eventMultiplier)
      by (apply enterLap_writes; untouched).
    exact He.
Qed.

End Invariant.

(** ** The distance covered in one call *)

(** The increment of line 227: a speed that is at least the minimum race
    speed, times a stamina factor and a speed scale that are at least 0.7,
    the random factor, the event multiplier and the elapsed seconds. *)
Lemma advance_distance scene rnd delta s :
  exists speed staminaFactor speedScale,
    distance (self (exec (advance scene rnd delta) s)) =
      distance (self s)
      + speed * staminaFactor
        * (1 + (rnd (cursor s) - 0.5) * (luckFactor (self s) + 0.15))
        * eventMultiplier (self s)
        * (delta / 1000) * 80 * speedScale /\
    0.7 + catchUpFactor (self s) * 1.5 <= speed /\
    0.7 <= staminaFactor /\ 0.7 <= speedScale.
Proof.
  unfold advance, applyMomentum, exec, bind, this, assign, Math_random, ret.
  simpl.
  destruct (JS.gt _ _); simpl;
    (destruct (JS.lt _ _); simpl; [|destruct (JS.gt _ _); simpl]);
    (eexists; eexists; eexists; split; [reflexivity|];
     split; [apply Q.le_max_l | split; apply Q.le_max_l]).
Qed.

(** The random factor of line 203 lies between 0.8 and 1.2. *)
Lemma instantRandomFactor_range u luck :
  0 <= u -> u < 1 -> 0.05 <= luck -> luck <= 0.25 ->
  0.8 <= 1 + (u - 0.5) * (luck + 0.15) /\
  1 + (u - 0.5) * (luck + 0.15) <= 1.2.
Proof. intros. split; nra. Qed.

Lemma increment_nonneg speed staminaFactor randomFactor multiplier
    delta speedScale :
  0 <= speed -> 0 <= staminaFactor -> 0 <= randomFactor ->
  0 <= multiplier -> 0 <= delta -> 0 <= speedScale ->
  0 <= speed * staminaFactor * randomFactor * multiplier
       * (delta / 1000) * 80 * speedScale.
Proof.
  intros.
  assert (0 <= delta / 1000).
  { unfold Qdiv. apply Qmult_le_0_compat; [assumption|].
    vm_compute. intros C; discriminate C. }
  assert (0 <= 80) by (vm_compute; intros C; discriminate C).
  repeat match goal with
         | |- 0 <= _ * _ => apply Qmult_le_0_compat
         end; assumption.
Qed.

Lemma update_distance scene rnd peers me time delta s :
  ValidScene scene -> unitInterval rnd ->
  finished (self s) = false -> 0 <= delta -> WellFormed (self s) ->
  distance (self s) <=
  distance (self (exec (update scene rnd peers me time delta) s)).
Proof.
  intros Hscene Hrnd Hf Hdelta Hwf.
  rewrite update_running by exact Hf.
  rewrite (preserves_exec distance) by (apply checkFinish_writes; untouched).
  rewrite exec_assign. simpl.
  pose proof (atMomentum_WellFormed scene rnd peers me Hscene Hrnd
                time delta s Hwf) as (Hi & Hc & He).
  pose proof (atMomentum_writes scene rnd peers me time delta distance s)
    as Hd.
  remember (atMomentum scene rnd peers me time delta s) as s1 eqn:Es1.
  rewrite <- Hd by untouched.
  destruct (advance_distance scene rnd delta s1)
    as (speed & sf & sc & -> & Hspeed & Hsf & Hsc).
  unfold innate, innateInRange in Hi.
  destruct Hi as (_ & _ & _ & [Hl0 Hl1] & _).
  destruct (Hrnd (cursor s1)) as [Hu0 Hu1].
  destruct (instantRandomFactor_range _ _ Hu0 Hu1 Hl0 Hl1) as [Hr _].
  match goal with |- _ <= _ + ?x => assert (Hx : 0 <= x) end.
  { apply increment_nonneg; try lra. }
  lra.
Qed.

(** ** The invariant holds from the constructor on *)



Lemma reset_WellFormed scene s :
  WellFormed (self s) -> WellFormed (self (exec (reset scene) s)).
Proof.
  intros (Hi & _ & He). split; [|split].
  - exact Hi.
  - simpl. apply Qle_refl.
  - exact He.
Qed.

(** * Properties of the race *)

(** ** The early return of [update] *)

Lemma finished_horse_is_frozen scene rnd time delta me w h :
  horseAt w me = Some h -> finished h = true ->
  Horse_update scene rnd time delta me w = w.
Proof.
  intros Hh Hf. unfold Horse_update, call. unfold horseAt in Hh. rewrite Hh.
  rewrite update_finished by exact Hf. simpl.
  rewrite list_insert_id by exact Hh. destruct w; reflexivity.
Qed.

(** C9.  A call of [update] on a finished horse changes nothing: the
    roster, hence every field of the horse, the number of random draws and
    the finish notifications are as before, for every time and delta. *)
Theorem update_on_finished_is_noop scene rnd time delta me w h :
  horseAt w me = Some h -> finished h = true ->
  Horse_update scene rnd time delta me w = w.
Proof.
  intros Hh Hf. unfold Horse_update, call.
  assert (Hlook : horses w !! me = Some h) by exact Hh.
  rewrite Hlook. cbv beta.
  assert (Hstay : exec (update scene rnd (horses w) me time delta)
                    (mkSt h (draws w) (finishers w))
                  = mkSt h (draws w) (finishers w)).
  { apply update_finished. exact Hf. }
  rewrite Hstay. cbv zeta. simpl.
  rewrite list_insert_id by exact Hlook.
  destruct w as [hs n fs]. reflexivity.
Qed.

Lemma update_on_finished_is_noop_witness :
  Horse_update Sample.oval Sample.half 62000 16 0
    (mkWorld [Sample.arrived] 40 [0%nat]) = mkWorld [Sample.arrived] 40 [0%nat].
Proof.
  apply (update_on_finished_is_noop Sample.oval Sample.half 62000 16 0
           (mkWorld [Sample.arrived] 40 [0%nat]) Sample.arrived);
    reflexivity.
Defined.

(** ** [reset] *)

Section Reset.

Variable scene : Scene.

Lemma reset_fields s :
  let h := self (exec (reset scene) s) in
  currentSpeed h = 0 /\ distance h = 0 /\ currentLap h = 1%Z /\
  finished h = false /\ finishTime h = None /\ position h = None /\
  catchUpFactor h = 0 /\ leadHandicap h = 0 /\ legMovement h = 0.
Proof. simpl. repeat split; reflexivity. Qed.

(** [reset] assigns neither the momentum nor any field of the event
    state. *)
Lemma reset_event_state s :
  let h := self (exec (reset scene) s) in
  momentum h = momentum (self s) /\
  currentEvent h = currentEvent (self s) /\
  eventDuration h = eventDuration (self s) /\
  eventMultiplier h = eventMultiplier (self s) /\
  nextEventTime h = nextEventTime (self s).
Proof.
  cbv zeta. repeat apply conj.
  - apply (reset_writes scene momentum); untouched.
  - apply (reset_writes scene currentEvent); untouched.
  - apply (reset_writes scene eventDuration); untouched.
  - apply (reset_writes scene eventMultiplier); untouched.
  - apply (reset_writes scene nextEventTime); untouched.
Qed.

End Reset.

(** C8.  [reset] leaves the innate attributes and the whole sequence of
    lap factors of the horse exactly as they were. *)
Theorem reset_keeps_innate_attributes scene rnd me w h :
  horseAt w me = Some h ->
  exists h', horseAt (Horse_reset scene rnd me w) me = Some h' /\
    baseSpeed h' = baseSpeed h /\ stamina h' = stamina h /\
    acceleration h' = acceleration h /\ luckFactor h' = luckFactor h /\
    lapFactors h' = lapFactors h.
Proof.
  intros Hh. eexists. split.
  - unfold Horse_reset. apply (call_horseAt _ _ _ _ _ _ Hh).
  - repeat apply conj.
    + apply (reset_writes scene baseSpeed); untouched.
    + apply (reset_writes scene stamina); untouched.
    + apply (reset_writes scene acceleration); untouched.
    + apply (reset_writes scene luckFactor); untouched.
    + apply (reset_writes scene lapFactors); untouched.
Qed.

Lemma reset_keeps_innate_attributes_witness :
  exists h', horseAt (Horse_reset Sample.oval Sample.half 0
                        (mkWorld [Sample.spirited] 7 [])) 0 = Some h' /\
    baseSpeed h' = baseSpeed Sample.spirited /\
    stamina h' = stamina Sample.spirited /\
    acceleration h' = acceleration Sample.spirited /\
    luckFactor h' = luckFactor Sample.spirited /\
    lapFactors h' = lapFactors Sample.spirited.
Proof.
  apply (reset_keeps_innate_attributes Sample.oval Sample.half 0
           (mkWorld [Sample.spirited] 7 []) Sample.spirited).
  reflexivity.
Defined.

(** C2.  The claim asks [reset] to bring the momentum and the event state
    back to their start-of-race values (0, no event, duration 0,
    multiplier 1, a first event time between 3000 and 7000).  On a horse
    stopped with momentum 0.2 during a burst of speed, [reset] restores the
    race state proper and leaves all five as they were. *)
Theorem reset_leaves_momentum_and_event_state :
  exists h', horseAt (Horse_reset Sample.oval Sample.half 0
                        (mkWorld [Sample.spirited] 7 [])) 0 = Some h' /\
    (currentSpeed h' = 0 /\ distance h' = 0 /\ currentLap h' = 1%Z /\
     finished h' = false /\ finishTime h' = None /\
     catchUpFactor h' = 0 /\ leadHandicap h' = 0) /\
    momentum h' = 0.2 /\
    currentEvent h' = Some BurstOfSpeed /\
    eventDuration h' = 500 /\
    eventMultiplier h' = 1.25 /\
    nextEventTime h' = 20000 /\
    ~ momentum h' == 0 /\ ~ eventMultiplier h' == 1 /\
    ~ eventDuration h' == 0 /\ ~ nextEventTime h' <= 7000.
Proof.
  eexists. split; [reflexivity|]. simpl.
  repeat apply conj; try reflexivity;
    intros H; vm_compute in H; first [discriminate | apply H; reflexivity].
Qed.

(** ** The finish check *)

(** C3.  A call of [update] on a horse that has not finished makes it
    finished exactly when the distance it has reached in this call
    satisfies the condition of the finish check: at least
    [totalLaps * trackLength], with a remainder modulo [trackLength]
    between 0 and 50.  In that case the finish time is the time of the call
    and the scene is notified once; otherwise the finish time and the
    notifications are as before.  A horse that has finished is not touched
    again, so the finish time is written at most once. *)
Theorem update_finishes_exactly_on_the_line scene rnd time delta me w h :
  horseAt w me = Some h ->
  let w' := Horse_update scene rnd time delta me w in
  (finished h = true -> w' = w) /\
  (finished h = false ->
   exists h', horseAt w' me = Some h' /\
     (finished h' = true <-> onFinishLine scene (distance h')) /\
     (onFinishLine scene (distance h') ->
      finishTime h' = Some time /\ finishers w' = finishers w ++ [me]) /\
     (~ onFinishLine scene (distance h') ->
      finishTime h' = finishTime h /\ finishers w' = finishers w)).
Proof.
  intros Hh w'. split.
  - intros Hf. apply (finished_horse_is_frozen scene rnd time delta me w h Hh Hf).
  - intros Hf. subst w'.
    eexists. split; [apply (Horse_update_horseAt _ _ _ _ _ _ _ Hh)|].
    rewrite (Horse_update_finishers _ _ _ _ _ _ _ Hh).
    assert (Hrun : finished (self (entry w h)) = false) by exact Hf.
    rewrite (update_at_finish_check _ _ _ _ _ _ _ Hrun).
    remember (atFinishCheck scene rnd (horses w) me time delta (entry w h)) as s eqn:Es.
    assert (Hs : finished (self s) = false).
    { rewrite Es. rewrite (atFinishCheck_writes _ _ _ _ _ _ finished) by untouched.
      exact Hf. }
    assert (Ht : finishTime (self s) = finishTime h).
    { rewrite Es. rewrite (atFinishCheck_writes _ _ _ _ _ _ finishTime) by untouched.
      reflexivity. }
    assert (Hn : notified s = finishers w).
    { rewrite Es. rewrite atFinishCheck_quiet. reflexivity. }
    destruct (onFinishLine_dec scene (distance (self s))) as [Hon|Hoff].
    + rewrite (checkFinish_crossing _ _ _ _ Hs Hon). simpl.
      rewrite Hn. repeat apply conj; try tauto.
    + rewrite (checkFinish_short _ _ _ _ Hoff).
      rewrite Hs, Ht, Hn. repeat apply conj; try tauto.
      intros C. discriminate C.
Qed.

Lemma update_finishes_exactly_on_the_line_witness :
  exists h', horseAt (Horse_update Sample.oval Sample.half 61000 0 0
                        (mkWorld [Sample.runner 0 "Comet" 4 4000 0] 9 [])) 0
             = Some h' /\
    finished h' = true /\ finishTime h' = Some 61000.
Proof.
  destruct (update_finishes_exactly_on_the_line Sample.oval Sample.half
              61000 0 0 (mkWorld [Sample.runner 0 "Comet" 4 4000 0] 9 [])
              (Sample.runner 0 "Comet" 4 4000 0) eq_refl) as [_ Hrun].
  destruct (Hrun eq_refl) as (h' & Hat & Hiff & Hon & _).
  exists h'. split; [exact Hat|].
  assert (Hline : onFinishLine Sample.oval (distance h')).
  { vm_compute in Hat. injection Hat as <-.
    vm_compute. repeat split; intros C; discriminate C. }
  split; [apply Hiff, Hline | apply Hon, Hline].
Defined.

(** The two scenarios of the finish check, with a delta of 0 so that the
    horse stays where it stands: on the line after four laps of 1000 it
    finishes; 200 past the line it does not. *)
Example finish_on_the_line :
  option_map (fun h => (finished h, finishTime h))
    (horseAt (Horse_update Sample.oval Sample.half 61000 0 0
                (mkWorld [Sample.runner 0 "Comet" 4 4000 0] 9 [])) 0)
  = Some (true, Some 61000).
Proof. vm_compute. reflexivity. Qed.

Example no_finish_past_the_window :
  option_map (fun h => (finished h, finishTime h))
    (horseAt (Horse_update Sample.oval Sample.half 61000 0 0
                (mkWorld [Sample.runner 0 "Comet" 4 4200 0] 9 [])) 0)
  = Some (false, None).
Proof. vm_compute. reflexivity. Qed.

(** ** The lap counter and the lap factors *)

(** C5.  A call of [update] on a horse that has not finished sets
    [currentLap] to [min(totalLaps, floor(distance / trackLength) + 1)],
    the distance being the one the call starts with; so [currentLap] is at
    most [totalLaps].  When the horse is updated again, in whatever roster
    it then stands, and its distance has not decreased in the first call,
    its [currentLap] has not decreased either (the track having a positive
    length). *)
Theorem currentLap_clamped_and_monotone
    scene rnd me t1 d1 t2 d2 w1 w2 h0 :
  horseAt w1 me = Some h0 -> finished h0 = false ->
  exists h1,
    horseAt (Horse_update scene rnd t1 d1 me w1) me = Some h1 /\
    currentLap h1 =
      Z.min (totalLaps scene)
            (JS.floor (distance h0 / trackLength scene) + 1) /\
    (currentLap h1 <= totalLaps scene)%Z /\
    (0 < trackLength scene ->
     horseAt w2 me = Some h1 -> distance h0 <= distance h1 ->
     exists h2,
       horseAt (Horse_update scene rnd t2 d2 me w2) me = Some h2 /\
       (currentLap h1 <= currentLap h2)%Z).
Proof.
  intros Hh Hf.
  eexists. split; [apply (Horse_update_horseAt _ _ _ _ _ _ _ Hh)|].
  assert (Hlap : currentLap
            (self (exec (update scene rnd (horses w1) me t1 d1)
                     (entry w1 h0))) = lapOf scene (distance h0)).
  { rewrite update_currentLap by exact Hf. reflexivity. }
  rewrite Hlap. split; [reflexivity|]. split; [apply lapOf_le_totalLaps|].
  intros HL Hh1 Hd.
  eexists. split; [apply (Horse_update_horseAt _ _ _ _ _ _ _ Hh1)|].
  destruct (finished (self (exec (update scene rnd (horses w1) me t1 d1)
                              (entry w1 h0)))) eqn:Hf1.
  - rewrite update_finished by exact Hf1. simpl. rewrite Hlap. lia.
  - rewrite update_currentLap by exact Hf1. simpl.
    apply lapOf_monotone; assumption.
Qed.

Lemma currentLap_clamped_and_monotone_witness :
  let w1 := Horse_update Sample.oval Sample.half 30000 16 0
              (mkWorld [Sample.runner 0 "Comet" 4 1999 0] 9 []) in
  exists h1 h2,
    horseAt w1 0 = Some h1 /\
    horseAt (Horse_update Sample.oval Sample.half 30016 16 0 w1) 0 = Some h2 /\
    currentLap h1 = 2%Z /\ (currentLap h1 <= currentLap h2)%Z.
Proof.
  intros w1.
  destruct (currentLap_clamped_and_monotone Sample.oval Sample.half 0
              30000 16 30016 16
              (mkWorld [Sample.runner 0 "Comet" 4 1999 0] 9 []) w1
              (Sample.runner 0 "Comet" 4 1999 0) eq_refl eq_refl)
    as (h1 & Hat & Hlap & _ & Hnext).
  assert (Hd : distance (Sample.runner 0 "Comet" 4 1999 0) <= distance h1).
  { vm_compute in Hat. injection Hat as <-. vm_compute. intros C; discriminate C. }
  destruct (Hnext eq_refl Hat Hd) as (h2 & Hat2 & Hle).
  exists h1, h2. repeat apply conj; try assumption.
Defined.

(** C10.  In a call of [update] on a horse that has not finished, with at
    least one lap, a track of positive length, a distance that is not
    negative and one lap factor per lap, the index [currentLap - 1] that
    line 188 computes lies in [0, totalLaps): the lookup of line 189 finds
    an entry of [lapFactors] and the fallback literal is not used. *)
Theorem lap_factor_index_in_bounds scene rnd time delta me w h :
  horseAt w me = Some h -> finished h = false ->
  (1 <= totalLaps scene)%Z -> 0 < trackLength scene -> 0 <= distance h ->
  length (lapFactors h) = Z.to_nat (totalLaps scene) ->
  let s := atMomentum scene rnd (horses w) me time delta (entry w h) in
  let lapIndex := (currentLap (self s) - 1)%Z in
  (0 <= lapIndex < totalLaps scene)%Z /\
  exists lf,
    lapFactorAt (lapFactors (self s)) lapIndex = Some lf /\
    In lf (lapFactors h).
Proof.
  intros Hh Hf HT HL Hd Hlen s lapIndex. subst lapIndex s.
  rewrite atMomentum_currentLap.
  rewrite (atMomentum_writes _ _ _ _ _ _ lapFactors) by untouched.
  simpl.
  pose proof (lapOf_le_totalLaps scene (distance h)) as Hle.
  pose proof (lapOf_positive scene (distance h) HT HL Hd) as Hge.
  split; [lia|].
  apply lapFactorAt_in_bounds. rewrite Hlen. lia.
Qed.

Lemma lap_factor_index_in_bounds_witness :
  let w := mkWorld [Sample.runner 0 "Comet" 4 3999 0] 9 [] in
  let s := atMomentum Sample.oval Sample.half (horses w) 0 30000 16
             (entry w (Sample.runner 0 "Comet" 4 3999 0)) in
  (0 <= currentLap (self s) - 1 < 4)%Z /\
  exists lf,
    lapFactorAt (lapFactors (self s)) (currentLap (self s) - 1) = Some lf /\
    In lf (lapFactors (Sample.runner 0 "Comet" 4 3999 0)).
Proof.
  intros w s.
  apply (lap_factor_index_in_bounds Sample.oval Sample.half 30000 16 0 w
           (Sample.runner 0 "Comet" 4 3999 0)).
  - reflexivity.
  - reflexivity.
  - vm_compute. intros C; discriminate C.
  - reflexivity.
  - vm_compute. intros C; discriminate C.
  - reflexivity.
Defined.

(** ** The positioning service *)

Lemma service_on_member scene rnd me w h :
  horseAt w me = Some h ->
  horseAt (Horse_updateRacePositioningFactors scene rnd me w) me =
  Some (self (exec (updateRacePositioningFactors scene rnd (horses w) me)
                (entry w h))) /\
  <[me := self (entry w h)]> (horses w) = horses w.
Proof.
  intros H. split.
  - unfold Horse_updateRacePositioningFactors.
    rewrite (call_horseAt _ _ _ _ _ _ H). reflexivity.
  - simpl. apply list_insert_id, H.
Qed.

Lemma catchUpFormula_scenario u :
  0 <= u < 1 ->
  0.255 <= catchUpFormula 1000 1 2 950 900 u < 0.355.
Proof.
  intros [H0 H1]. unfold catchUpFormula. simpl Z.eqb. cbv iota zeta.
  assert (Hp : Qmin 0.25 (0.03 * inject_Z 1) == 0.03).
  { apply Q.min_r. vm_compute. intros C; discriminate C. }
  assert (Hd : Qmin 0.25 ((950 - 900) / 1000 * 1.5) == 0.075).
  { rewrite Q.min_r by (vm_compute; intros C; discriminate C).
    vm_compute. reflexivity. }
  rewrite Hp, Hd. split; lra.
Qed.

(** C4.  For a roster with [N >= 2] horses that have not finished, a race
    in progress and a track of positive length, the service gives the horse
    at rank [r > 0] the catch-up factor
    [min(0.25, 0.03 r) + min(0.25, percentBehind * 1.5) + randomBoost],
    plus 0.15 exactly when [r = N - 1]; [percentBehind] is the leader's
    advance over the horse divided by the track length, the leader's
    distance being the greatest among the active horses, and
    [randomBoost], a tenth of the next draw, lies in [0, 0.1).  The rank is
    the number of active horses strictly ahead of the horse, or level with
    it and earlier in the roster.  On a track
    of length 1000 with two horses at 950 and 900 the factor of the second
    lies in [0.255, 0.355), whatever the draw. *)
Theorem catchUpFactor_of_trailing_horse :
  (forall scene rnd me w h,
     horseAt w me = Some h ->
     raceInProgress scene = true -> finished h = false ->
     0 < trackLength scene ->
     0 <= rnd (draws w) < 1 ->
     (2 <= activeCount (horses w))%Z -> (0 < rankOf (horses w) me)%Z ->
     exists h',
       horseAt (Horse_updateRacePositioningFactors scene rnd me w) me
         = Some h' /\
       catchUpFactor h' =
         catchUpFormula (trackLength scene)
           (rankOf (horses w) me) (activeCount (horses w))
           (leaderDistance (horses w)) (distance h) (rnd (draws w)) /\
       0 <= rnd (draws w) * 0.1 < 0.1 /\
       rankOf (horses w) me = placesBefore (horses w) me h /\
       (forall k hk, horseAt w k = Some hk -> finished hk = false ->
                     distance hk <= leaderDistance (horses w))) /\
  (forall rnd n,
     0 <= rnd n < 1 ->
     exists h',
       horseAt (Horse_updateRacePositioningFactors Sample.sprint rnd 1
                  (mkWorld [Pair.A; Pair.B] n [])) 1 = Some h' /\
       0.255 <= catchUpFactor h' < 0.355).
Proof.
  assert (General : forall scene rnd me w h,
     horseAt w me = Some h ->
     raceInProgress scene = true -> finished h = false ->
     (2 <= activeCount (horses w))%Z -> (0 < rankOf (horses w) me)%Z ->
     exists h',
       horseAt (Horse_updateRacePositioningFactors scene rnd me w) me
         = Some h' /\
       catchUpFactor h' =
         catchUpFormula (trackLength scene)
           (rankOf (horses w) me) (activeCount (horses w))
           (leaderDistance (horses w)) (distance h) (rnd (draws w))).
  { intros scene rnd me w h Hh Hrace Hf HN Hr.
    destruct (service_on_member scene rnd me w h Hh) as [Hat Hid].
    eexists. split; [exact Hat|].
    pose proof (positioning_trailing scene rnd (horses w) me (entry w h)
                  Hrace Hf) as Hs.
    cbv zeta in Hs. rewrite Hid in Hs.
    destruct Hs as (Hc & _); [lia | exact Hr | exact Hc]. }
  split.
  - intros scene rnd me w h Hh Hrace Hf HL [Hu0 Hu1] HN Hr.
    destruct (General scene rnd me w h Hh Hrace Hf HN Hr) as (h' & Hat & Hc).
    exists h'. repeat apply conj; try assumption; try lra.
    + apply rankOf_counts; assumption.
    + intros k hk Hk Hfk. eapply leaderDistance_greatest; eassumption.
  - intros rnd n Hu.
    destruct (General Sample.sprint rnd 1%nat (mkWorld [Pair.A; Pair.B] n [])
                Pair.B eq_refl eq_refl eq_refl) as (h' & Hat & Hc).
    + vm_compute. intros C; discriminate C.
    + vm_compute. reflexivity.
    + exists h'. split; [exact Hat|]. rewrite Hc.
      apply (catchUpFormula_scenario (rnd n) Hu).
Qed.

Lemma catchUpFactor_of_trailing_horse_witness :
  exists h',
    horseAt (Horse_updateRacePositioningFactors Sample.sprint Sample.half 1
               (mkWorld [Pair.A; Pair.B] 0 [])) 1 = Some h' /\
    catchUpFactor h' = catchUpFormula 1000 1 2 950 900 0.5 /\
    0.255 <= catchUpFactor h' < 0.355.
Proof.
  destruct catchUpFactor_of_trailing_horse as [General Scenario].
  destruct (General Sample.sprint Sample.half 1%nat
              (mkWorld [Pair.A; Pair.B] 0 []) Pair.B)
    as (h' & Hat & Hc & _);
    try (vm_compute; first [reflexivity | intuition discriminate]).
  exists h'. split; [exact Hat|]. split; [exact Hc|].
    rewrite Hc. apply catchUpFormula_scenario.
    vm_compute. intuition discriminate.
Defined.

(** *** The two balancing factors *)

Lemma min_with_cap_zero y :
  0 <= y -> (Qmin 0.3 y == 0 <-> y == 0).
Proof.
  intros Hy. destruct (Q.min_spec 0.3 y) as [[Hlt ->]|[Hle ->]].
  - split; intros H.
    + vm_compute in H. discriminate H.
    + rewrite H in Hlt. vm_compute in Hlt. discriminate Hlt.
  - reflexivity.
Qed.

Lemma lead_is_zero_when_level d d2 L :
  0 < L -> ((d - d2) / L * 2 == 0 <-> d == d2).
Proof.
  intros HL. split; intros H.
  - assert (E : d - d2 == (d - d2) / L * 2 * (L / 2)) by (field; lra).
    rewrite H in E. lra.
  - rewrite H. field. lra.
Qed.

(** The service never assigns [leadHandicap] to a trailing horse: B, which
    got the handicap 0.1 when it led A by 50, keeps it after A has passed
    it, next to its catch-up factor. *)
Lemma passed_leader_keeps_its_handicap :
  let w0 := mkWorld [Pair.A_behind; Pair.B_ahead] 0 [] in
  let w1 := Horse_updateRacePositioningFactors Sample.sprint Sample.half 1 w0 in
  let w2 := mkWorld (<[0%nat := Pair.A_past]> (horses w1))
                    (draws w1) (finishers w1) in
  let w3 := Horse_updateRacePositioningFactors Sample.sprint Sample.half 1 w2 in
  rankOf (horses w0) 1 = 0%Z /\
  rankOf (horses w2) 1 = 1%Z /\ activeCount (horses w2) = 2%Z /\
  exists h1 h3,
    horseAt w1 1 = Some h1 /\ horseAt w3 1 = Some h3 /\
    leadHandicap h1 == 0.1 /\
    leadHandicap h3 == 0.1 /\ ~ leadHandicap h3 == 0 /\
    catchUpFactor h3 == 0.305 /\ ~ catchUpFactor h3 == 0.
Proof.
  cbv zeta. repeat apply conj; try (vm_compute; reflexivity).
  eexists. eexists.
  split; [vm_compute; reflexivity|].
  split; [vm_compute; reflexivity|].
  simpl. repeat apply conj; try (vm_compute; reflexivity);
    intros C; vm_compute in C; discriminate C.
Qed.

(** C1, as stated, fails on the first tick of a race: both horses stand on
    the starting line, the first is ranked 0 with no lead, and its update
    leaves it with a catch-up factor of 0 and a lead handicap of 0, so that
    neither of the two factors is non-zero. *)
Lemma level_leader_has_neither_factor :
  let w := mkWorld [Pair.A_start; Pair.B_start] 0 [] in
  activeCount (horses w) = 2%Z /\ rankOf (horses w) 0 = 0%Z /\
  exists h',
    horseAt (Horse_update Sample.sprint Sample.half 1016 16 0 w) 0 = Some h' /\
    catchUpFactor h' == 0 /\ leadHandicap h' == 0 /\
    ~ exactlyOneFactor h'.
Proof.
  cbv zeta. split; [vm_compute; reflexivity|].
  split; [vm_compute; reflexivity|].
  eexists. split; [vm_compute; reflexivity|].
  repeat apply conj; try (vm_compute; reflexivity).
  intros [[Hc _]|[_ Hl]]; [apply Hc | apply Hl]; vm_compute; reflexivity.
Qed.

(** C1, amended.  With at least two horses that have not finished, a race
    in progress and a track of positive length, the service leaves a horse
    of rank [r > 0] with a catch-up factor of at least 0.03, and the horse
    of rank 0 with a catch-up factor of 0 and the lead handicap
    [min(0.3, 2 * percentAhead)], which is not negative and is 0 exactly
    when the second horse is level with it.  Every active horse has a rank
    in [0, N): the number of active horses strictly ahead of it, or level
    with it and earlier in the roster. *)
Theorem positioning_factors_by_rank scene rnd me w h :
  horseAt w me = Some h ->
  raceInProgress scene = true -> finished h = false ->
  0 < trackLength scene -> 0 <= rnd (draws w) ->
  (2 <= activeCount (horses w))%Z ->
  exists h',
    horseAt (Horse_updateRacePositioningFactors scene rnd me w) me = Some h' /\
    (0 <= rankOf (horses w) me < activeCount (horses w))%Z /\
    rankOf (horses w) me = placesBefore (horses w) me h /\
    ((0 < rankOf (horses w) me)%Z -> 0.03 <= catchUpFactor h') /\
    (rankOf (horses w) me = 0%Z ->
     catchUpFactor h' = 0 /\
     leadHandicap h' =
       Qmin 0.3 ((distance h - secondDistance (horses w))
                 / trackLength scene * 2) /\
     0 <= leadHandicap h' /\
     (leadHandicap h' == 0 <-> distance h == secondDistance (horses w))).
Proof.
  intros Hh Hrace Hf HL Hu HN.
  destruct (service_on_member scene rnd me w h Hh) as [Hat Hid].
  eexists. split; [exact Hat|].
  pose proof (rankOf_range (horses w) me h Hh Hf) as Hrange.
  split; [exact Hrange|].
  split; [apply rankOf_counts; assumption|]. split.
  - intros Hr.
    pose proof (positioning_trailing scene rnd (horses w) me (entry w h)
                  Hrace Hf) as Hs.
    cbv zeta in Hs. rewrite Hid in Hs.
    destruct Hs as (Hc & _); [lia | exact Hr |]. rewrite Hc.
    apply catchUpFormula_at_least; try assumption.
    eapply leaderDistance_greatest; eassumption.
  - intros Hr.
    pose proof (positioning_leading scene rnd (horses w) me (entry w h)
                  Hrace Hf) as Hs.
    cbv zeta in Hs. rewrite Hid in Hs.
    destruct Hs as (Hl & Hc & _); [lia | lia |].
    split; [exact Hc|]. split; [exact Hl|].
    assert (Hlead : secondDistance (horses w) <= distance h).
    { destruct (rankOf_zero_head (horses w) me h Hh Hr) as [rest E].
      destruct (secondDistance_le_leader (horses w)) as [Hle|]; [|lia].
      unfold leaderDistance in Hle. rewrite E in Hle. exact Hle. }
    assert (Hy : 0 <= (distance h - secondDistance (horses w))
                      / trackLength scene * 2).
    { apply Qmult_le_0_compat; [|vm_compute; intros C; discriminate C].
      unfold Qdiv. apply Qmult_le_0_compat; [simpl; lra|].
      apply Qlt_le_weak, Qinv_lt_0_compat, HL. }
    rewrite Hl. simpl self. split.
    + apply Q.min_glb; [vm_compute; intros C; discriminate C | exact Hy].
    + rewrite (min_with_cap_zero _ Hy).
      apply lead_is_zero_when_level, HL.
Qed.

Lemma positioning_factors_by_rank_witness :
  exists h',
    horseAt (Horse_updateRacePositioningFactors Sample.sprint Sample.half 0
               (mkWorld [Pair.A; Pair.B] 0 [])) 0 = Some h' /\
    catchUpFactor h' = 0 /\ 0 <= leadHandicap h' /\ ~ leadHandicap h' == 0.
Proof.
  destruct (positioning_factors_by_rank Sample.sprint Sample.half 0
              (mkWorld [Pair.A; Pair.B] 0 []) Pair.A)
    as (h' & Hat & _ & _ & _ & Hlead);
    try (vm_compute; first [reflexivity | intros C; discriminate C]).
  destruct (Hlead eq_refl) as (Hc & _ & H0 & Hiff).
  exists h'. repeat apply conj; try assumption.
  intros Hz. apply Hiff in Hz. vm_compute in Hz. discriminate Hz.
Defined.

(** ** Momentum *)

(** C7.  In a call of [update] on a horse that has not finished, the
    momentum [m] that reaches line 192 is multiplied by 0.995 when
    [|m| > 0.01] and set to 0 otherwise.  Hence after [n] calls in which
    nothing else touches the momentum, a momentum that started at [m0] is
    [m0 * 0.995 ^ n] as long as every value it went through was above the
    threshold, and it is 0 as soon as one of them was not.  The numbers
    are exact rationals. *)
Theorem momentum_decays_geometrically :
  (forall scene rnd time delta me w h,
     horseAt w me = Some h -> finished h = false ->
     exists h',
       horseAt (Horse_update scene rnd time delta me w) me = Some h' /\
       let m := momentum (self (atMomentum scene rnd (horses w) me time delta
                                  (entry w h))) in
       (0.01 < Qabs m -> momentum h' = m * 0.995) /\
       (Qabs m <= 0.01 -> momentum h' = 0)) /\
  (forall n h h',
     quietTicks n h h' ->
     ((forall k, (k < n)%nat ->
                 0.01 < Qabs (momentum h * 0.995 ^ Z.of_nat k)) ->
      momentum h' == momentum h * 0.995 ^ Z.of_nat n) /\
     (forall k, (k < n)%nat ->
                Qabs (momentum h * 0.995 ^ Z.of_nat k) <= 0.01 ->
                momentum h' = 0)).
Proof.
  split.
  - intros scene rnd time delta me w h Hh Hf.
    eexists. split; [apply (Horse_update_horseAt _ _ _ _ _ _ _ Hh)|].
    cbv zeta. rewrite update_momentum by exact Hf.
    split; [apply decay_above | apply decay_below].
  - intros n h h' Hticks. rewrite (quietTicks_iter _ _ _ Hticks).
    destruct (iter_decay (momentum h) n)
      as [[Habove Heq]|[(j & Hj & Hbelow) Hzero]].
    + split; [intros _; exact Heq|].
      intros k Hk Hle. exfalso.
      apply (Qlt_not_le _ _ (Habove k Hk) Hle).
    + split; [|intros _ _ _; exact Hzero].
      intros Habove. exfalso.
      apply (Qlt_not_le _ _ (Habove j Hj) Hbelow).
Qed.

Lemma momentum_decays_geometrically_witness :
  exists h2, quietTicks 2 Sample.coasting h2 /\
             momentum h2 == 0.2 * 0.995 ^ 2.
Proof.
  destruct momentum_decays_geometrically as [_ Run].
  pose (w0 := mkWorld [Sample.coasting] 0 []).
  pose (h1 := self (exec (update Sample.oval Sample.half (horses w0) 0 2000 16)
                      (entry w0 Sample.coasting))).
  pose (w1 := mkWorld [h1] 1 []).
  pose (h2 := self (exec (update Sample.oval Sample.half (horses w1) 0 2016 16)
                      (entry w1 h1))).
  assert (T1 : quietTick Sample.coasting h1).
  { exists Sample.oval, Sample.half, 2000, 16, 0%nat, w0.
    repeat apply conj; vm_compute; reflexivity. }
  assert (T2 : quietTick h1 h2).
  { exists Sample.oval, Sample.half, 2016, 16, 0%nat, w1.
    repeat apply conj; vm_compute; reflexivity. }
  exists h2. split.
  - apply (quiet_more 1 _ h1); [|exact T2].
    apply (quiet_more 0 _ Sample.coasting); [apply quiet_none | exact T1].
  - apply (Run 2%nat Sample.coasting h2).
    + apply (quiet_more 1 _ h1); [|exact T2].
      apply (quiet_more 0 _ Sample.coasting); [apply quiet_none | exact T1].
    + intros k Hk.
      destruct k as [|[|k]]; [vm_compute; reflexivity | vm_compute; reflexivity | lia].
Defined.

(** ** Distance *)

(** C6.  In a race on a track of positive length, with [Math.random] in
    [0, 1), a call of [update] with [delta >= 0] on a horse that has not
    finished does not decrease its distance.  The horse is taken in the
    invariant the constructor establishes and every call keeps: attributes
    in the constructor's ranges (so [luckFactor <= 0.25]), a catch-up
    factor that is not negative, a positive event multiplier. *)
Theorem distance_never_decreases scene rnd time delta me w h :
  ValidScene scene -> unitInterval rnd ->
  horseAt w me = Some h -> finished h = false -> 0 <= delta ->
  WellFormed h ->
  exists h',
    horseAt (Horse_update scene rnd time delta me w) me = Some h' /\
    distance h <= distance h'.
Proof.
  intros Hscene Hrnd Hh Hf Hdelta Hwf.
  eexists. split; [apply (Horse_update_horseAt _ _ _ _ _ _ _ Hh)|].
  apply (update_distance scene rnd (horses w) me time delta (entry w h));
    assumption.
Qed.

Lemma distance_never_decreases_witness :
  exists h',
    horseAt (Horse_update Sample.oval Sample.half 30000 16 1
               (mkWorld [Sample.runner 0 "Aster" 4 1700 0;
                         Sample.runner 1 "Bramble" 4 1650 0] 12 [])) 1
      = Some h' /\
    distance (Sample.runner 1 "Bramble" 4 1650 0) <= distance h'.
Proof.
  apply (distance_never_decreases Sample.oval Sample.half 30000 16 1
           (mkWorld [Sample.runner 0 "Aster" 4 1700 0;
                     Sample.runner 1 "Bramble" 4 1650 0] 12 [])
           (Sample.runner 1 "Bramble" 4 1650 0)).
  - split; vm_compute; reflexivity.
  - intros k. split; vm_compute; [intros C; discriminate C | reflexivity].
  - reflexivity.
  - reflexivity.
  - vm_compute. intros C; discriminate C.
  - unfold WellFormed, innate, innateInRange. simpl.
    repeat apply conj;
      try (vm_compute; first [reflexivity | intros C; discriminate C]).
    repeat constructor; vm_compute; intros C; discriminate C.
Defined.

(** * Further properties *)

(** ** Race events *)

#[local] Arguments JS.truthy : simpl never.

Lemma truthy_start start : ~ start == 0 -> JS.truthy (Some start) = true.
Proof.
  intros H. unfold JS.truthy. destruct (Qeq_bool start 0) eqn:E; [|reflexivity].
  exfalso. apply H, Qeq_bool_iff, E.
Qed.

Lemma falsy_start start : start == 0 -> JS.truthy (Some start) = false.
Proof.
  intros H. unfold JS.truthy. apply Qeq_bool_iff in H. rewrite H. reflexivity.
Qed.

Ltac events_unfold :=
  unfold handleRaceEvents, exec, bind, this, assign, addMomentum, assign,
    Math_random, ret; simpl.

Lemma Horse_handleRaceEvents_at scene rnd time delta me w h :
  horseAt w me = Some h ->
  horseAt (Horse_handleRaceEvents scene rnd time delta me w) me =
    Some (self (exec (handleRaceEvents scene rnd time delta) (entry w h))) /\
  draws (Horse_handleRaceEvents scene rnd time delta me w) =
    cursor (exec (handleRaceEvents scene rnd time delta) (entry w h)).
Proof.
  intros H. unfold Horse_handleRaceEvents.
  rewrite (call_horseAt _ _ _ _ _ _ H), (call_draws _ _ _ _ _ _ H).
  split; reflexivity.
Qed.

Lemma handleRaceEvents_not_due scene rnd time delta s :
  (forall start, raceStartTime scene = Some start ->
                 start == 0 \/ time <= start + nextEventTime (self s)) ->
  exec (handleRaceEvents scene rnd time delta) s = s.
Proof.
  intros H. events_unfold.
  destruct (raceStartTime scene) as [start|]; [|reflexivity].
  destruct (H start eq_refl) as [H0|Hlate].
  - rewrite (falsy_start _ H0). reflexivity.
  - destruct (JS.truthy (Some start)); simpl; [|reflexivity].
    destruct (JS.gt time (start + nextEventTime (self s))) as [C|_];
      [|reflexivity].
    exfalso. apply (Qlt_not_le _ _ C Hlate).
Qed.

(** X1.  Until the next event check is due, or when the race start time
    is missing or 0, [handleRaceEvents] changes nothing: the roster, the
    number of random draws and the notifications are as before. *)
Theorem events_wait_for_the_schedule scene rnd time delta me w h :
  horseAt w me = Some h ->
  (forall start, raceStartTime scene = Some start ->
                 start == 0 \/ time <= start + nextEventTime h) ->
  Horse_handleRaceEvents scene rnd time delta me w = w.
Proof.
  intros Hh Hwait. unfold Horse_handleRaceEvents, call.
  assert (Hlook : horses w !! me = Some h) by exact Hh.
  rewrite Hlook. cbv beta.
  rewrite handleRaceEvents_not_due by exact Hwait. simpl.
  rewrite list_insert_id by exact Hlook.
  destruct w as [hs n fs]. reflexivity.
Qed.

Lemma events_wait_for_the_schedule_witness :
  Horse_handleRaceEvents Sample.oval Sample.half 5999 16 0
    (mkWorld [Sample.coasting] 3 []) = mkWorld [Sample.coasting] 3 [].
Proof.
  apply (events_wait_for_the_schedule Sample.oval Sample.half 5999 16 0
           (mkWorld [Sample.coasting] 3 []) Sample.coasting).
  - reflexivity.
  - intros start E. injection E as <-. right.
    vm_compute. intros C; discriminate C.
Defined.

(** The call when a check is due and an event is running. *)
Lemma handleRaceEvents_countdown scene rnd time delta s start e :
  checkDue scene time (self s) start -> currentEvent (self s) = Some e ->
  exec (handleRaceEvents scene rnd time delta) s =
  if JS.le (eventDuration (self s) - delta) 0 then
    mkSt (set_nextEventTime (time - start + 5000 + rnd (cursor s) * 7000)
            (set_eventMultiplier 1
               (set_currentEvent None
                  (set_eventDuration (eventDuration (self s) - delta)
                     (self s)))))
         (S (cursor s)) (notified s)
  else
    mkSt (set_eventDuration (eventDuration (self s) - delta) (self s))
         (cursor s) (notified s).
Proof.
  intros (Hstart & Hnz & Hdue) He. events_unfold.
  rewrite Hstart, (truthy_start _ Hnz). simpl.
  destruct (JS.gt time (start + nextEventTime (self s))) as [_|C];
    [|exfalso; apply (Qlt_not_le _ _ Hdue C)].
  rewrite He. simpl.
  destruct (JS.le (eventDuration (self s) - delta) 0); reflexivity.
Qed.

(** X2.  While an event runs and the check is due, a call only counts the
    event down: it takes [delta] off the remaining duration and, as long
    as some duration is left, changes nothing else and draws no random
    number, so no second event can start.  When the duration is used up
    the event ends: no current event, multiplier 1, one draw, and the next
    check between 5000 and 12000 after the present race time. *)
Theorem running_event_is_counted_down scene rnd time delta me w h start e :
  horseAt w me = Some h ->
  checkDue scene time h start -> currentEvent h = Some e ->
  0 <= rnd (draws w) < 1 ->
  let w' := Horse_handleRaceEvents scene rnd time delta me w in
  exists h',
    horseAt w' me = Some h' /\
    eventDuration h' = eventDuration h - delta /\
    momentum h' = momentum h /\
    (0 < eventDuration h - delta ->
     h' = set_eventDuration (eventDuration h - delta) h /\
     draws w' = draws w) /\
    (eventDuration h - delta <= 0 ->
     currentEvent h' = None /\ eventMultiplier h' = 1 /\
     draws w' = S (draws w) /\
     time - start + 5000 <= nextEventTime h' /\
     nextEventTime h' < time - start + 12000).
Proof.
  intros Hh Hdue He [Hr0 Hr1] w'. subst w'.
  destruct (Horse_handleRaceEvents_at scene rnd time delta me w h Hh)
    as [Hat Hdraws].
  eexists. split; [exact Hat|]. rewrite Hdraws.
  rewrite (handleRaceEvents_countdown scene rnd time delta (entry w h)
             start e Hdue He).
  simpl self. simpl cursor.
  destruct (JS.le (eventDuration h - delta) 0) as [Hend|Hleft]; simpl.
  - repeat apply conj; try reflexivity.
    + intros C. exfalso. apply (Qlt_not_le _ _ C Hend).
    + intros _. repeat apply conj; try reflexivity; lra.
  - repeat apply conj; try reflexivity.
    + intros _. split; reflexivity.
    + intros C. exfalso. apply (Qlt_not_le _ _ Hleft C).
Qed.

Lemma running_event_is_counted_down_witness :
  exists h',
    horseAt (Horse_handleRaceEvents Sample.oval Sample.half 30000 16 0
               (mkWorld [Meadow.bursting] 3 [])) 0 = Some h' /\
    eventDuration h' = 500 - 16 /\ currentEvent h' = Some BurstOfSpeed.
Proof.
  destruct (running_event_is_counted_down Sample.oval Sample.half 30000 16 0
              (mkWorld [Meadow.bursting] 3 []) Meadow.bursting 1000
              BurstOfSpeed eq_refl)
    as (h' & Hat & Hd & _ & Hleft & _).
  - repeat split; vm_compute; first [reflexivity | intros C; discriminate C].
  - reflexivity.
  - split; vm_compute; [intros C; discriminate C | reflexivity].
  - exists h'. split; [exact Hat|]. split; [exact Hd|].
    destruct Hleft as [-> _]; [vm_compute; reflexivity | reflexivity].
Defined.

(** X3.  When the check is due and no event runs, a call has one of two
    outcomes.  Either an event starts: its multiplier is the one of its
    kind, its duration lies in 800..2000 (bursts and slowdowns) or
    1000..2000 (comebacks and fatigue), the momentum and the schedule are
    untouched, and a comeback starts only for a horse whose catch-up factor
    exceeds 0.2.  Or no event starts: multiplier and duration are
    untouched, the next check is set between 4000 and 12000 after the
    present race time, and the momentum is unchanged, raised by a value in
    [0.15, 0.25) or lowered by a value in [0.1, 0.25). *)
Theorem idle_horse_draws_one_outcome scene rnd time delta me w h start :
  horseAt w me = Some h ->
  checkDue scene time h start -> currentEvent h = None ->
  unitInterval rnd ->
  exists h',
    horseAt (Horse_handleRaceEvents scene rnd time delta me w) me = Some h' /\
    ((exists e,
        currentEvent h' = Some e /\
        eventMultiplier h' = multiplierOf (Some e) /\
        durationRange e (eventDuration h') /\
        momentum h' = momentum h /\ nextEventTime h' = nextEventTime h /\
        (e = ComebackEffort -> 0.2 < catchUpFactor h))
     \/
     (currentEvent h' = None /\
      eventMultiplier h' = eventMultiplier h /\
      eventDuration h' = eventDuration h /\
      (time - start + 4000 <= nextEventTime h' /\
       nextEventTime h' < time - start + 12000) /\
      (momentum h' = momentum h \/
       (momentum h + 0.15 <= momentum h' /\ momentum h' < momentum h + 0.25) \/
       (momentum h - 0.25 < momentum h' /\ momentum h' <= momentum h - 0.1)))).
Proof.
  intros Hh (Hstart & Hnz & Hdue) He Hrnd.
  destruct (Horse_handleRaceEvents_at scene rnd time delta me w h Hh)
    as [Hat _].
  eexists. split; [exact Hat|].
  destruct (Hrnd (S (draws w))) as [Ha0 Ha1].
  destruct (Hrnd (S (S (draws w)))) as [Hb0 Hb1].
  destruct (Hrnd (S (S (S (draws w))))) as [Hc0 Hc1].
  events_unfold.
  rewrite Hstart, (truthy_start _ Hnz). simpl.
  destruct (JS.gt time (start + nextEventTime h)) as [_|C];
    [|exfalso; apply (Qlt_not_le _ _ Hdue C)].
  rewrite He. simpl.
  destruct (JS.lt (rnd (draws w)) 0.12); simpl.
  { left. exists BurstOfSpeed. simpl.
    repeat apply conj; try reflexivity; try lra; try (intros C; discriminate C). }
  destruct (JS.lt (rnd (draws w)) 0.24); simpl.
  { left. exists SlightSlowdown. simpl.
    repeat apply conj; try reflexivity; try lra; try (intros C; discriminate C). }
  destruct (JS.lt (rnd (draws w)) 0.36); simpl.
  { right. destruct (JS.lt (rnd (S (draws w))) 0.5); simpl;
      rewrite ?He; repeat apply conj; try reflexivity; lra. }
  destruct (JS.lt (rnd (draws w)) 0.42); simpl.
  { destruct (JS.gt (catchUpFactor h) 0.2) as [Hbehind|]; simpl.
    - left. exists ComebackEffort. simpl.
      repeat apply conj; try reflexivity; try lra; try (intros _; exact Hbehind).
    - right. rewrite ?He.
      repeat apply conj; try reflexivity; try lra; try (left; reflexivity). }
  destruct (JS.lt (rnd (draws w)) 0.48); simpl.
  { left. exists BriefFatigue. simpl.
    repeat apply conj; try reflexivity; try lra; try (intros C; discriminate C). }
  right. rewrite ?He.
  repeat apply conj; try reflexivity; try lra; try (left; reflexivity).
Qed.

Lemma idle_horse_draws_one_outcome_witness :
  exists h',
    horseAt (Horse_handleRaceEvents Sample.oval Sample.half 7000 16 0
               (mkWorld [Sample.coasting] 3 [])) 0 = Some h' /\
    currentEvent h' = None /\
    (7000 - 1000 + 4000 <= nextEventTime h' /\
     nextEventTime h' < 7000 - 1000 + 12000).
Proof.
  destruct (idle_horse_draws_one_outcome Sample.oval Sample.half 7000 16 0
              (mkWorld [Sample.coasting] 3 []) Sample.coasting 1000 eq_refl)
    as (h' & Hat & Hcases).
  - repeat split; vm_compute; first [reflexivity | intros C; discriminate C].
  - reflexivity.
  - intros k. split; vm_compute; [intros C; discriminate C | reflexivity].
  - exists h'. split; [exact Hat|].
    destruct Hcases as [(e & He & _)|(He & _ & _ & Hrange & _)].
    + exfalso. vm_compute in Hat. injection Hat as <-. discriminate He.
    + split; assumption.
Defined.

(** What the event state of a horse is read from. *)
Lemma handleRaceEvents_consistent scene rnd time delta s :
  EventConsistent (self s) ->
  EventConsistent (self (exec (handleRaceEvents scene rnd time delta) s)).
Proof.
  intros H. events_unfold.
  destruct (raceStartTime scene) as [start|]; [|exact H].
  destruct (JS.truthy (Some start)); simpl; [|exact H].
  destruct (JS.gt _ _); [|exact H].
  destruct (currentEvent (self s)) eqn:He; simpl.
  - destruct (JS.le _ _); simpl; [reflexivity|].
    unfold EventConsistent in *. simpl. congruence.
  - repeat (destruct (JS.lt _ _); simpl);
      try destruct (JS.gt _ _); simpl;
      first [ reflexivity
            | unfold EventConsistent in *; simpl; congruence ].
Qed.

Lemma handleRaceEvents_schedule scene rnd time delta s :
  unitInterval rnd ->
  let h' := self (exec (handleRaceEvents scene rnd time delta) s) in
  nextEventTime h' = nextEventTime (self s) \/
  nextEventTime (self s) + 4000 < nextEventTime h'.
Proof.
  intros Hrnd.
  destruct (Hrnd (cursor s)) as [Ha0 _].
  destruct (Hrnd (S (cursor s))) as [Hb0 _].
  destruct (Hrnd (S (S (cursor s)))) as [Hc0 _].
  destruct (Hrnd (S (S (S (cursor s))))) as [Hd0 _].
  events_unfold.
  destruct (raceStartTime scene) as [start|]; [|left; reflexivity].
  destruct (JS.truthy (Some start)); simpl; [|left; reflexivity].
  destruct (JS.gt _ _) as [Hdue|]; [|left; reflexivity].
  destruct (currentEvent (self s)); simpl.
  - destruct (JS.le _ _); simpl; [right; lra | left; reflexivity].
  - repeat (destruct (JS.lt _ _); simpl);
      try destruct (JS.gt _ _); simpl;
      first [ left; reflexivity | right; lra ].
Qed.

Section EventsInUpdate.

Variable scene : Scene.
Variable rnd : nat -> Q.
Variable peers : list Horse.
Variable me : nat.
Variables time delta : Q.

(** A reading that only [handleRaceEvents] can change comes out of
    [update] as it comes out of [handleRaceEvents], called on the horse as
    [update] found it. *)
Lemma update_reads_events {X : Type} (g : Horse -> X) s :
  finished (self s) = false ->
  untouchedBy g set_currentLap -> untouchedBy g set_momentum ->
  untouchedBy g set_catchUpFactor -> untouchedBy g set_leadHandicap ->
  untouchedBy g set_currentSpeed -> untouchedBy g set_distance ->
  untouchedBy g set_legMovement ->
  untouchedBy g set_finished -> untouchedBy g set_finishTime ->
  g (self (exec (update scene rnd peers me time delta) s)) =
  g (self (exec (handleRaceEvents scene rnd time delta)
             (exec (enterLap scene rnd peers me) s))) /\
  g (self (exec (enterLap scene rnd peers me) s)) = g (self s).
Proof.
  intros Hf. intros. split.
  - rewrite update_running by exact Hf.
    rewrite (preserves_exec g) by (apply checkFinish_writes; assumption).
    rewrite exec_assign. simpl.
    match goal with H : untouchedBy g set_legMovement |- _ => rewrite H end.
    rewrite (preserves_exec g) by (apply advance_writes; assumption).
    unfold atMomentum.
    rewrite (preserves_exec g)
      by (apply updateRacePositioningFactors_writes; assumption).
    reflexivity.
  - apply (preserves_exec g). apply enterLap_writes; assumption.
Qed.

End EventsInUpdate.

(** X4.  A call of [update] keeps the event multiplier of a horse in step
    with its current event: 1 without an event, 1.25 for a burst of speed,
    0.85 for a slowdown, 1.35 for a comeback and 0.8 for fatigue; so the
    multiplier always lies between 0.8 and 1.35. *)
Theorem update_keeps_event_and_multiplier_in_step
    scene rnd time delta me w h :
  horseAt w me = Some h -> EventConsistent h ->
  exists h',
    horseAt (Horse_update scene rnd time delta me w) me = Some h' /\
    EventConsistent h' /\
    0.8 <= eventMultiplier h' /\ eventMultiplier h' <= 1.35.
Proof.
  intros Hh Hc.
  eexists. split; [apply (Horse_update_horseAt _ _ _ _ _ _ _ Hh)|].
  set (s0 := entry w h).
  assert (Hstep : EventConsistent
            (self (exec (update scene rnd (horses w) me time delta) s0))).
  { destruct (finished (self s0)) eqn:Hf.
    - rewrite update_finished by exact Hf. exact Hc.
    - destruct (update_reads_events scene rnd (horses w) me time delta
                  (fun x => (eventMultiplier x, currentEvent x)) s0 Hf)
        as [Hfin Hlap]; try untouched.
      pose proof (handleRaceEvents_consistent scene rnd time delta
                    (exec (enterLap scene rnd (horses w) me) s0)) as Hev.
      unfold EventConsistent in *.
      injection Hfin as -> ->. injection Hlap as Hm He.
      apply Hev. rewrite Hm, He. exact Hc. }
  split; [exact Hstep|].
  unfold EventConsistent in Hstep. rewrite Hstep.
  destruct (currentEvent _) as [[| | |]|]; simpl;
    split; vm_compute; intros C; discriminate C.
Qed.

Lemma update_keeps_event_and_multiplier_in_step_witness :
  exists h',
    horseAt (Horse_update Sample.oval Sample.half 30000 16 0
               (mkWorld [Meadow.bursting] 3 [])) 0 = Some h' /\
    EventConsistent h' /\
    0.8 <= eventMultiplier h' /\ eventMultiplier h' <= 1.35.
Proof.
  apply (update_keeps_event_and_multiplier_in_step Sample.oval Sample.half
           30000 16 0 (mkWorld [Meadow.bursting] 3 []) Meadow.bursting);
    reflexivity.
Defined.

(** X5.  A call of [update] never moves the next event check of a horse
    backwards: the scheduled time is as before, or later by more than
    4000. *)
Theorem update_never_moves_the_schedule_back
    scene rnd time delta me w h :
  horseAt w me = Some h -> unitInterval rnd ->
  exists h',
    horseAt (Horse_update scene rnd time delta me w) me = Some h' /\
    (nextEventTime h' = nextEventTime h \/
     nextEventTime h + 4000 < nextEventTime h').
Proof.
  intros Hh Hrnd.
  eexists. split; [apply (Horse_update_horseAt _ _ _ _ _ _ _ Hh)|].
  set (s0 := entry w h).
  destruct (finished (self s0)) eqn:Hf.
  - rewrite update_finished by exact Hf. left. reflexivity.
  - destruct (update_reads_events scene rnd (horses w) me time delta
                nextEventTime s0 Hf) as [Hfin Hlap]; try untouched.
    rewrite Hfin.
    pose proof (handleRaceEvents_schedule scene rnd time delta
                  (exec (enterLap scene rnd (horses w) me) s0) Hrnd) as Hs.
    cbv zeta in Hs. rewrite Hlap in Hs. exact Hs.
Qed.

Lemma update_never_moves_the_schedule_back_witness :
  exists h',
    horseAt (Horse_update Sample.oval Sample.half 7000 16 0
               (mkWorld [Sample.coasting] 3 [])) 0 = Some h' /\
    (nextEventTime h' = nextEventTime Sample.coasting \/
     nextEventTime Sample.coasting + 4000 < nextEventTime h').
Proof.
  apply (update_never_moves_the_schedule_back Sample.oval Sample.half
           7000 16 0 (mkWorld [Sample.coasting] 3 []) Sample.coasting).
  - reflexivity.
  - intros k. split; vm_compute; [intros C; discriminate C | reflexivity].
Defined.

(** ** Ranks *)

Lemma findIndexFrom_nth {A : Type} (p : A -> bool) l k r :
  (0 <= k)%Z -> findIndexFrom p k l = r -> (k <= r)%Z ->
  exists x, nth_error l (Z.to_nat (r - k)) = Some x /\ p x = true.
Proof.
  revert k. induction l as [|y l IH]; simpl; intros k H0 E Hk.
  - lia.
  - destruct (p y) eqn:Ep.
    + subst r. rewrite Z.sub_diag. exists y. split; [reflexivity | exact Ep].
    + destruct (findIndexFrom_range p l (k + 1)) as [E1|E1].
      * rewrite E1 in E. lia.
      * destruct (IH (k + 1)%Z) as (x & Hx & Hp); [lia | exact E | lia |].
        exists x. split; [|exact Hp].
        replace (Z.to_nat (r - k)) with (S (Z.to_nat (r - (k + 1)))) by lia.
        exact Hx.
Qed.

(** X6.  Ranks are places: every horse that has not finished has a rank
    from 0 to N - 1, and two different horses never have the same rank, so
    that one horse at most is treated as the leader. *)
Theorem ranks_are_distinct hs i j hi hj :
  hs !! i = Some hi -> hs !! j = Some hj ->
  finished hi = false -> finished hj = false ->
  (0 <= rankOf hs i < activeCount hs)%Z /\
  (rankOf hs i = rankOf hs j -> i = j).
Proof.
  intros Hi Hj Hfi Hfj.
  pose proof (rankOf_range hs i hi Hi Hfi) as Ri.
  pose proof (rankOf_range hs j hj Hj Hfj) as Rj.
  split; [exact Ri|]. intros E.
  destruct (findIndexFrom_nth (fun p => Nat.eqb (fst p) i) (ranking hs) 0
              (rankOf hs i)) as (x & Hx & Hpx); [lia | reflexivity | lia |].
  destruct (findIndexFrom_nth (fun p => Nat.eqb (fst p) j) (ranking hs) 0
              (rankOf hs j)) as (y & Hy & Hpy); [lia | reflexivity | lia |].
  rewrite E in Hx. rewrite Hx in Hy. injection Hy as <-.
  apply Nat.eqb_eq in Hpx, Hpy. congruence.
Qed.

Lemma ranks_are_distinct_witness :
  (0 <= rankOf Meadow.field 1 < activeCount Meadow.field)%Z /\
  (rankOf Meadow.field 1 = rankOf Meadow.field 2 -> 1%nat = 2%nat).
Proof.
  apply (ranks_are_distinct Meadow.field 1 2 Meadow.second Meadow.third);
    reflexivity.
Defined.

(** ** Final-lap balancing *)

Section Balancing.

Variable scene : Scene.
Variable peers : list Horse.
Variable me : nat.

Local Abbreviation balancing := (applyFinalLapBalancing scene peers me).

Lemma balancing_idle s :
  (activeCount (<[me := self s]> peers) <= 1)%Z -> exec balancing s = s.
Proof.
  intros H. unfold applyFinalLapBalancing, exec, bind, this, sceneHorses.
  simpl. unfold activeCount in H. apply Z.leb_le in H. rewrite H. reflexivity.
Qed.

Lemma balancing_leading s :
  let hs := <[me := self s]> peers in
  (1 < activeCount hs)%Z -> rankOf hs me = 0%Z ->
  exec balancing s =
  if JS.gt (distance (self s) - secondDistance hs) (trackLength scene * 0.05)
  then mkSt (set_momentum (momentum (self s) + - 0.1) (self s))
            (cursor s) (notified s)
  else s.
Proof.
  intros hs HN Hr.
  unfold applyFinalLapBalancing, exec, bind, this, sceneHorses.
  simpl. fold hs. unfold activeCount in HN.
  destruct (Z.of_nat (length (activeOf hs)) <=? 1)%Z eqn:E;
    [apply Z.leb_le in E; lia|].
  change (sortByDistance (activeOf hs)) with (ranking hs).
  change (findIndex (fun p => Nat.eqb (fst p) me) (ranking hs))
    with (rankOf hs me).
  rewrite Hr. simpl. unfold secondDistance.
  pose proof (ranking_length hs) as Hlen. unfold activeCount in Hlen.
  destruct (ranking hs) as [|p1 [|[i second] rest]]; simpl in Hlen; try lia.
  destruct (JS.gt _ _); reflexivity.
Qed.

Lemma balancing_trailing s :
  let hs := <[me := self s]> peers in
  (1 < activeCount hs)%Z -> rankOf hs me <> 0%Z ->
  let boostFactor :=
    Qmin (0.1 + (inject_Z (rankOf hs me) / inject_Z (activeCount hs)) * 0.15)
         0.25 in
  exec balancing s =
  mkSt (set_momentum
          (if (rankOf hs me =? activeCount hs - 1)%Z
           then momentum (self s) + boostFactor + 0.1
           else momentum (self s) + boostFactor) (self s))
       (cursor s) (notified s).
Proof.
  intros hs HN Hr boostFactor. subst boostFactor.
  unfold applyFinalLapBalancing, exec, bind, this, sceneHorses.
  simpl. fold hs. unfold activeCount in HN.
  destruct (Z.of_nat (length (activeOf hs)) <=? 1)%Z eqn:E;
    [apply Z.leb_le in E; lia|].
  change (sortByDistance (activeOf hs)) with (ranking hs).
  change (findIndex (fun p => Nat.eqb (fst p) me) (ranking hs))
    with (rankOf hs me).
  rewrite ranking_length.
  destruct (rankOf hs me =? 0)%Z eqn:E0; [apply Z.eqb_eq in E0; lia|].
  unfold addMomentum, assign, ret. simpl.
  destruct (rankOf hs me =? activeCount hs - 1)%Z; reflexivity.
Qed.

End Balancing.

(** Between the places 1 and N - 1 the boost stays under its cap. *)
Lemma boost_between r N :
  (0 < r)%Z -> (r < N)%Z ->
  0.1 < Qmin (0.1 + (inject_Z r / inject_Z N) * 0.15) 0.25 /\
  Qmin (0.1 + (inject_Z r / inject_Z N) * 0.15) 0.25 < 0.25.
Proof.
  intros Hr HN.
  assert (Hr' : 0 < inject_Z r) by (change 0 with (inject_Z 0); rewrite <- Zlt_Qlt; lia).
  assert (HN' : inject_Z r < inject_Z N) by (rewrite <- Zlt_Qlt; lia).
  assert (Hpos : 0 < inject_Z r / inject_Z N).
  { apply Qlt_shift_div_l; lra. }
  assert (Hone : inject_Z r / inject_Z N < 1).
  { apply Qlt_shift_div_r; lra. }
  rewrite Q.min_l by lra. split; lra.
Qed.

(** X7.  [applyFinalLapBalancing] writes the momentum only and draws no
    random number.  With fewer than two horses still racing it does
    nothing.  Otherwise the leader loses 0.1 of momentum when it is ahead
    of the second by more than 5% of the track and is left alone when it
    is not; a horse behind gains more than 0.1 and less than 0.35, and less
    than 0.25 unless it is last. *)
Theorem final_lap_balancing_by_rank scene rnd me w h :
  horseAt w me = Some h ->
  let w' := Horse_applyFinalLapBalancing scene rnd me w in
  let r := rankOf (horses w) me in
  let N := activeCount (horses w) in
  ((N <= 1)%Z -> w' = w) /\
  ((2 <= N)%Z -> finished h = false ->
   exists h',
     horseAt w' me = Some h' /\ draws w' = draws w /\
     h' = set_momentum (momentum h') h /\
     (r = 0%Z ->
      (trackLength scene * 0.05 < distance h - secondDistance (horses w) ->
       momentum h' == momentum h - 0.1) /\
      (distance h - secondDistance (horses w) <= trackLength scene * 0.05 ->
       momentum h' = momentum h)) /\
     ((0 < r)%Z ->
      momentum h + 0.1 < momentum h' /\ momentum h' < momentum h + 0.35 /\
      ((r < N - 1)%Z -> momentum h' < momentum h + 0.25))).
Proof.
  intros Hh w' r N. subst w' r N.
  assert (Hid : <[me := self (entry w h)]> (horses w) = horses w)
    by (apply list_insert_id, Hh).
  assert (Hlook : horses w !! me = Some h) by exact Hh.
  unfold Horse_applyFinalLapBalancing. split.
  - intros HN. unfold call. rewrite Hlook. cbv beta.
    change (mkSt h (draws w) (finishers w)) with (entry w h).
    rewrite balancing_idle by (rewrite Hid; exact HN).
    simpl. rewrite list_insert_id by exact Hlook.
    destruct w as [hs n fs]. reflexivity.
  - intros HN Hf. eexists.
    split; [apply (call_horseAt _ _ _ _ _ _ Hh)|].
    rewrite (call_draws _ _ _ _ _ _ Hh). cbv beta.
    pose proof (rankOf_range (horses w) me h Hh Hf) as Hrange.
    destruct (Z.eq_dec (rankOf (horses w) me) 0%Z) as [Hr|Hr].
    + pose proof (balancing_leading scene (horses w) me (entry w h)) as Hb.
      cbv zeta in Hb. rewrite Hid in Hb. rewrite Hb by (lia || exact Hr).
      simpl self.
      destruct (JS.gt (distance h - secondDistance (horses w))
                      (trackLength scene * 0.05)) as [Hfar|Hnear]; simpl.
      * repeat apply conj; try reflexivity.
        -- intros _. split; [intros _; ring|].
           intros C. exfalso. apply (Qlt_not_le _ _ Hfar C).
        -- intros C. lia.
      * repeat apply conj; try reflexivity.
        -- destruct h; reflexivity.
        -- intros _. split; [|intros _; reflexivity].
           intros C. exfalso. apply (Qlt_not_le _ _ C Hnear).
        -- intros C. lia.
    + pose proof (balancing_trailing scene (horses w) me (entry w h)) as Hb.
      cbv zeta in Hb. rewrite Hid in Hb. rewrite Hb by (lia || exact Hr).
      simpl self. simpl.
      destruct (boost_between (rankOf (horses w) me) (activeCount (horses w)))
        as [Hlo Hhi]; [lia | lia |].
      repeat apply conj; try reflexivity.
      * intros C. contradiction.
      * intros _.
        destruct (rankOf (horses w) me =? activeCount (horses w) - 1)%Z eqn:E.
        -- apply Z.eqb_eq in E. repeat apply conj; try lra. intros C. lia.
        -- repeat apply conj; lra.
Qed.

Lemma final_lap_balancing_by_rank_witness :
  exists h',
    horseAt (Horse_applyFinalLapBalancing Sample.oval Sample.half 1
               (mkWorld Meadow.field 5 [])) 1 = Some h' /\
    momentum Meadow.second + 0.1 < momentum h' /\
    momentum h' < momentum Meadow.second + 0.25.
Proof.
  destruct (final_lap_balancing_by_rank Sample.oval Sample.half 1
              (mkWorld Meadow.field 5 []) Meadow.second eq_refl)
    as [_ Hrun].
  destruct Hrun as (h' & Hat & _ & _ & _ & Hbehind);
    [vm_compute; intros C; discriminate C | reflexivity |].
  destruct Hbehind as (Hlo & _ & Hmid); [vm_compute; reflexivity|].
  exists h'. repeat apply conj; try assumption.
  apply Hmid. vm_compute. reflexivity.
Defined.

(** ** Lap changes *)

Lemma enterLap_same_lap scene rnd peers me s :
  (lapOf scene (distance (self s)) <= currentLap (self s))%Z ->
  exec (enterLap scene rnd peers me) s =
  mkSt (set_currentLap (lapOf scene (distance (self s))) (self s))
       (cursor s) (notified s).
Proof.
  intros H. unfold enterLap. rewrite exec_bind. simpl fst. simpl snd.
  rewrite exec_seq, exec_assign. rewrite exec_bind. simpl fst. simpl snd.
  cbv zeta.
  match goal with
  | |- context [if ?c then _ else _] => destruct c eqn:E
  end.
  - change ((lapOf scene (distance (self s)) >? currentLap (self s))%Z = true)
      in E.
    rewrite Z.gtb_ltb in E. apply Z.ltb_lt in E. lia.
  - reflexivity.
Qed.



(** The number of active horses is read from the [finished] flags. *)
Lemma activeOf_from_length (l : list Horse) a :
  length (List.filter (fun p : nat * Horse => negb (finished (snd p)))
            (combine (seq a (length l)) l)) =
  length (List.filter (fun h => negb (finished h)) l).
Proof.
  revert a. induction l as [|x l IH]; intros a; simpl; [reflexivity|].
  destruct (negb (finished x)); simpl; rewrite IH; reflexivity.
Qed.

Lemma activeCount_insert hs me h h' :
  hs !! me = Some h -> finished h' = finished h ->
  activeCount (<[me := h']> hs) = activeCount hs.
Proof.
  intros Hh Hf. unfold activeCount, activeOf, indexed.
  rewrite !activeOf_from_length. f_equal.
  revert me Hh. induction hs as [|x hs IH]; intros me Hh; [discriminate Hh|].
  destruct me as [|me]; simpl in *.
  - inversion Hh; subst. rewrite Hf.
    destruct (negb (finished h)); reflexivity.
  - destruct (negb (finished x)); simpl; rewrite (IH me Hh); reflexivity.
Qed.

Lemma advance_cursor scene rnd delta s :
  cursor (exec (advance scene rnd delta) s) = S (cursor s).
Proof.
  unfold advance, applyMomentum, exec, bind, this, assign, Math_random, ret.
  simpl.
  destruct (JS.gt _ _); simpl;
    (destruct (JS.lt _ _); simpl; [|destruct (JS.gt _ _); simpl]);
    reflexivity.
Qed.

Lemma checkFinish_cursor scene me time s :
  cursor (exec (checkFinish scene me time) s) = cursor s.
Proof.
  unfold checkFinish, finishRace, horseFinished, exec, bind, this, assign, ret.
  simpl.
  destruct (negb (finished (self s))); [|reflexivity].
  destruct (JS.ge _ _); [|reflexivity].
  destruct (JS.ge _ _); [|reflexivity].
  destruct (JS.le _ _); reflexivity.
Qed.

(** X9.  A call of [update] is uneventful when the lap does not change,
    no event check is due, and the positioning service has nothing to do
    (race not in progress, or a single horse still racing): the call takes
    exactly one random draw, leaves both balancing factors as they were and
    changes the momentum by the decay alone. *)
Theorem uneventful_tick scene rnd time delta me w h :
  horseAt w me = Some h -> finished h = false ->
  (lapOf scene (distance h) <= currentLap h)%Z ->
  (forall start, raceStartTime scene = Some start ->
                 start == 0 \/ time <= start + nextEventTime h) ->
  raceInProgress scene = false \/ (activeCount (horses w) <= 1)%Z ->
  let w' := Horse_update scene rnd time delta me w in
  exists h',
    horseAt w' me = Some h' /\
    draws w' = S (draws w) /\
    momentum h' = decay (momentum h) /\
    catchUpFactor h' = catchUpFactor h /\
    leadHandicap h' = leadHandicap h /\
    quietTick h h'.
Proof.
  intros Hh Hf Hlap Hwait Halone w'. subst w'.
  set (s0 := entry w h).
  assert (Hpre : atMomentum scene rnd (horses w) me time delta s0 =
                 mkSt (set_currentLap (lapOf scene (distance h)) h)
                      (draws w) (finishers w)).
  { unfold atMomentum.
    rewrite (enterLap_same_lap scene rnd (horses w) me s0 Hlap).
    rewrite handleRaceEvents_not_due by exact Hwait.
    apply positioning_idle. simpl self.
    destruct Halone as [Hoff|Hone]; [left; exact Hoff|].
    right. right.
    rewrite (activeCount_insert (horses w) me h _ Hh) by reflexivity.
    exact Hone. }
  assert (Hm : momentum (self (exec (update scene rnd (horses w) me time delta)
                                 s0)) = decay (momentum h)).
  { rewrite update_momentum by exact Hf. rewrite Hpre. reflexivity. }
  assert (Hat : horseAt (Horse_update scene rnd time delta me w) me =
                Some (self (exec (update scene rnd (horses w) me time delta)
                              s0)))
    by (apply (Horse_update_horseAt _ _ _ _ _ _ _ Hh)).
  eexists. split; [exact Hat|].
  repeat apply conj.
  - unfold Horse_update. rewrite (call_draws _ _ _ _ _ _ Hh). cbv beta.
    fold s0. rewrite update_running by exact Hf.
    rewrite checkFinish_cursor, exec_assign. simpl cursor.
    rewrite advance_cursor, Hpre. reflexivity.
  - exact Hm.
  - rewrite update_running by exact Hf.
    rewrite (preserves_exec catchUpFactor)
      by (apply checkFinish_writes; untouched).
    rewrite exec_assign. simpl self.
    change (catchUpFactor (set_legMovement ?v ?x)) with (catchUpFactor x).
    rewrite (preserves_exec catchUpFactor) by (apply advance_writes; untouched).
    rewrite Hpre. reflexivity.
  - rewrite update_running by exact Hf.
    rewrite (preserves_exec leadHandicap)
      by (apply checkFinish_writes; untouched).
    rewrite exec_assign. simpl self.
    change (leadHandicap (set_legMovement ?v ?x)) with (leadHandicap x).
    rewrite (preserves_exec leadHandicap) by (apply advance_writes; untouched).
    rewrite Hpre. reflexivity.
  - exists scene, rnd, time, delta, me, w.
    repeat apply conj; try assumption.
    fold s0. rewrite Hpre. reflexivity.
Qed.

Lemma uneventful_tick_witness :
  exists h',
    horseAt (Horse_update Sample.oval Sample.half 2000 16 0
               (mkWorld [Sample.coasting] 0 [])) 0 = Some h' /\
    momentum h' = decay 0.2 /\ quietTick Sample.coasting h'.
Proof.
  destruct (uneventful_tick Sample.oval Sample.half 2000 16 0
              (mkWorld [Sample.coasting] 0 []) Sample.coasting eq_refl eq_refl)
    as (h' & Hat & _ & Hm & _ & _ & Hq).
  - vm_compute. intros C; discriminate C.
  - intros start E. injection E as <-. right.
    vm_compute. intros C; discriminate C.
  - right. vm_compute. intros C; discriminate C.
  - exists h'. repeat apply conj; assumption.
Defined.

(** ** The positioning service, in full *)

Section ServiceState.

Variable scene : Scene.
Variable rnd : nat -> Q.
Variable peers : list Horse.
Variable me : nat.

Local Abbreviation service := (updateRacePositioningFactors scene rnd peers me).

Lemma positioning_trailing_state s :
  raceInProgress scene = true -> finished (self s) = false ->
  let hs := <[me := self s]> peers in
  (1 < activeCount hs)%Z -> (0 < rankOf hs me)%Z ->
  let h1 :=
    set_catchUpFactor
      (catchUpFormula (trackLength scene) (rankOf hs me) (activeCount hs)
         (leaderDistance hs) (distance (self s)) (rnd (cursor s)))
      (self s) in
  exec service s =
  mkSt (if JS.lt (rnd (S (cursor s))) 0.02 then
          if JS.gt (inject_Z (rankOf hs me)) (inject_Z (activeCount hs) / 2)
          then set_momentum (momentum h1 + 0.2) h1 else h1
        else h1)
       (S (S (cursor s))) (notified s).
Proof.
  intros Hrace Hfin hs HN Hr h1. subst h1.
  unfold updateRacePositioningFactors, exec, bind, this, sceneHorses.
  simpl. rewrite Hrace, Hfin. simpl. fold hs.
  unfold activeCount in HN.
  destruct (Z.of_nat (length (activeOf hs)) <=? 1)%Z eqn:E;
    [apply Z.leb_le in E; lia|].
  change (sortByDistance (activeOf hs)) with (ranking hs).
  change (findIndex (fun p => Nat.eqb (fst p) me) (ranking hs))
    with (rankOf hs me).
  destruct (rankOf hs me >? 0)%Z eqn:E2;
    [|rewrite Z.gtb_ltb in E2; apply Z.ltb_ge in E2; lia].
  unfold catchUpFormula, leaderDistance.
  rewrite <- ranking_length.
  destruct (ranking hs) as [|[i leader] rest] eqn:E3.
  - unfold rankOf, findIndex in Hr. rewrite E3 in Hr. simpl in Hr. lia.
  - unfold Math_random, assign, addMomentum, assign, ret. simpl.
    destruct (rankOf hs me =? _)%Z; simpl;
      destruct (JS.lt _ _); simpl; try destruct (JS.gt _ _); simpl;
      reflexivity.
Qed.

Lemma positioning_leading_state s :
  raceInProgress scene = true -> finished (self s) = false ->
  let hs := <[me := self s]> peers in
  (1 < activeCount hs)%Z -> (rankOf hs me <= 0)%Z ->
  let percentAhead :=
    (distance (self s) - secondDistance hs) / trackLength scene in
  let h1 := set_leadHandicap (Qmin 0.3 (percentAhead * 2)) (self s) in
  exec service s =
  mkSt (set_catchUpFactor 0
          (if JS.lt (rnd (cursor s)) 0.05 then
             if JS.gt percentAhead 0.03
             then set_momentum (momentum h1 + - 0.1) h1 else h1
           else h1))
       (S (cursor s)) (notified s).
Proof.
  intros Hrace Hfin hs HN Hr percentAhead h1. subst percentAhead h1.
  unfold updateRacePositioningFactors, exec, bind, this, sceneHorses.
  simpl. rewrite Hrace, Hfin. simpl. fold hs.
  unfold activeCount in HN.
  destruct (Z.of_nat (length (activeOf hs)) <=? 1)%Z eqn:E;
    [apply Z.leb_le in E; lia|].
  change (sortByDistance (activeOf hs)) with (ranking hs).
  change (findIndex (fun p => Nat.eqb (fst p) me) (ranking hs))
    with (rankOf hs me).
  destruct (rankOf hs me >? 0)%Z eqn:E2;
    [rewrite Z.gtb_ltb in E2; apply Z.ltb_lt in E2; lia|].
  unfold secondDistance.
  pose proof (ranking_length hs) as Hlen. unfold activeCount in Hlen.
  destruct (ranking hs) as [|p1 [|[i second] rest]] eqn:E3;
    simpl in Hlen; try lia.
  unfold Math_random, assign, addMomentum, assign, ret. simpl.
  destruct (JS.lt _ _); simpl; try destruct (JS.gt _ _); simpl;
    reflexivity.
Qed.

End ServiceState.

(** X10.  What the positioning service writes, and when it nudges the
    momentum.  For a horse behind it takes two draws and writes the
    catch-up factor and possibly the momentum: 0.2 more, only when the
    second draw is under 0.02 and the rank is beyond half the field.  For
    the leader it takes one draw and writes the lead handicap, a catch-up
    factor of 0 and possibly the momentum: 0.1 less, only when the draw is
    under 0.05 and the lead exceeds 3% of the track.  No other field of the
    horse changes. *)
Theorem service_writes_and_nudges scene rnd me w h :
  horseAt w me = Some h ->
  raceInProgress scene = true -> finished h = false ->
  (2 <= activeCount (horses w))%Z ->
  let w' := Horse_updateRacePositioningFactors scene rnd me w in
  let r := rankOf (horses w) me in
  let N := activeCount (horses w) in
  let percentAhead :=
    (distance h - secondDistance (horses w)) / trackLength scene in
  exists h',
    horseAt w' me = Some h' /\
    ((0 < r)%Z ->
     draws w' = S (S (draws w)) /\
     h' = set_momentum (momentum h') (set_catchUpFactor (catchUpFactor h') h) /\
     (momentum h' = momentum h \/
      (momentum h' = momentum h + 0.2 /\
       rnd (S (draws w)) < 0.02 /\ inject_Z N / 2 < inject_Z r))) /\
    (r = 0%Z ->
     draws w' = S (draws w) /\
     h' = set_momentum (momentum h')
            (set_catchUpFactor 0 (set_leadHandicap (leadHandicap h') h)) /\
     (momentum h' = momentum h \/
      (momentum h' = momentum h + - 0.1 /\
       rnd (draws w) < 0.05 /\ 0.03 < percentAhead))).
Proof.
  intros Hh Hrace Hf HN w' r N percentAhead. subst w' r N percentAhead.
  assert (Hid : <[me := self (entry w h)]> (horses w) = horses w)
    by (apply list_insert_id, Hh).
  unfold Horse_updateRacePositioningFactors.
  eexists. split; [apply (call_horseAt _ _ _ _ _ _ Hh)|].
  rewrite (call_draws _ _ _ _ _ _ Hh).
  split.
  - intros Hr.
    pose proof (positioning_trailing_state scene rnd (horses w) me (entry w h)
                  Hrace Hf) as Hs.
    cbv zeta in Hs. rewrite Hid in Hs. rewrite Hs by (lia || exact Hr).
    simpl self. simpl cursor.
    destruct (JS.lt (rnd (S (draws w))) 0.02) as [Hdraw|];
      [destruct (JS.gt (inject_Z (rankOf (horses w) me))
                       (inject_Z (activeCount (horses w)) / 2)) as [Hback|]|];
      simpl; repeat apply conj; try reflexivity;
      first [ left; reflexivity
            | right; repeat apply conj; [reflexivity | exact Hdraw | exact Hback] ].
  - intros Hr.
    pose proof (positioning_leading_state scene rnd (horses w) me (entry w h)
                  Hrace Hf) as Hs.
    cbv zeta in Hs. rewrite Hid in Hs. rewrite Hs by (lia || exact Hr).
    simpl self. simpl cursor.
    destruct (JS.lt (rnd (draws w)) 0.05) as [Hdraw|];
      [destruct (JS.gt ((distance h - secondDistance (horses w))
                        / trackLength scene) 0.03) as [Hfar|]|];
      simpl; repeat apply conj; try reflexivity;
      first [ left; reflexivity
            | right; repeat apply conj; [reflexivity | exact Hdraw | exact Hfar] ].
Qed.

Lemma service_writes_and_nudges_witness :
  exists h',
    horseAt (Horse_updateRacePositioningFactors Sample.oval Sample.half 2
               (mkWorld Meadow.field 5 [])) 2 = Some h' /\
    momentum h' = momentum Meadow.third.
Proof.
  destruct (service_writes_and_nudges Sample.oval Sample.half 2
              (mkWorld Meadow.field 5 []) Meadow.third eq_refl eq_refl eq_refl)
    as (h' & Hat & Hbehind & _).
  - vm_compute. intros C; discriminate C.
  - exists h'. split; [exact Hat|].
    destruct Hbehind as (_ & _ & [Hm|(_ & Hdraw & _)]);
      [vm_compute; reflexivity | exact Hm |].
    exfalso. vm_compute in Hdraw. discriminate Hdraw.
Defined.

(** X11.  The positioning service changes nothing when the race is not in
    progress, when the horse has finished, or when fewer than two horses
    are still racing: roster, draws and notifications are as before. *)
Theorem service_is_idle_without_a_field scene rnd me w h :
  horseAt w me = Some h ->
  raceInProgress scene = false \/ finished h = true \/
  (activeCount (horses w) <= 1)%Z ->
  Horse_updateRacePositioningFactors scene rnd me w = w.
Proof.
  intros Hh Hidle.
  assert (Hlook : horses w !! me = Some h) by exact Hh.
  unfold Horse_updateRacePositioningFactors, call. rewrite Hlook.
  change (mkSt h (draws w) (finishers w)) with (entry w h).
  rewrite positioning_idle.
  - simpl. rewrite list_insert_id by exact Hlook.
    destruct w as [hs n fs]. reflexivity.
  - simpl self.
    rewrite (list_insert_id (horses w) me h Hlook).
    exact Hidle.
Qed.

Lemma service_is_idle_without_a_field_witness :
  Horse_updateRacePositioningFactors Sample.oval Sample.half 0
    (mkWorld [Sample.coasting; Sample.arrived] 4 [])
  = mkWorld [Sample.coasting; Sample.arrived] 4 [].
Proof.
  apply (service_is_idle_without_a_field Sample.oval Sample.half 0
           (mkWorld [Sample.coasting; Sample.arrived] 4 []) Sample.coasting).
  - reflexivity.
  - right. right. vm_compute. intros C; discriminate C.
Defined.

(** ** Balancing factors stay in range *)

Lemma catchUpFormula_below L r N leaderDist myDist u :
  u < 1 -> catchUpFormula L r N leaderDist myDist u < 0.75.
Proof.
  intros Hu. unfold catchUpFormula. cbv zeta.
  pose proof (Q.le_min_l 0.25 (0.03 * inject_Z r)) as Hp.
  pose proof (Q.le_min_l 0.25 ((leaderDist - myDist) / L * 1.5)) as Hd.
  destruct (r =? N - 1)%Z; lra.
Qed.

Lemma positioning_Balanced scene rnd peers me s :
  0 < trackLength scene -> unitInterval rnd ->
  (me < length peers)%nat ->
  Balanced (self s) ->
  Balanced (self (exec (updateRacePositioningFactors scene rnd peers me) s)).
Proof.
  intros HL Hrnd Hme Hb.
  destruct (raceInProgress scene) eqn:Hrace;
    [|rewrite positioning_idle by auto; exact Hb].
  destruct (finished (self s)) eqn:Hfin;
    [rewrite positioning_idle by auto; exact Hb|].
  set (hs := <[me := self s]> peers).
  destruct (Z_le_gt_dec (activeCount hs) 1) as [HN|HN];
    [rewrite positioning_idle by auto; exact Hb|].
  assert (Hat : hs !! me = Some (self s))
    by (apply list_lookup_insert_eq; exact Hme).
  pose proof (rankOf_range hs me (self s) Hat Hfin) as Hrange.
  destruct (Hrnd (cursor s)) as [Hu0 Hu1].
  destruct Hb as [Hcatch Hlead].
  destruct (Z_lt_le_dec 0 (rankOf hs me)) as [Hr|Hr].
  - destruct (positioning_trailing scene rnd peers me s Hrace Hfin)
      as (Hc & Hl & _); [fold hs; lia | exact Hr |].
    fold hs in Hc. split.
    + rewrite Hc. split.
      * apply (Qle_trans _ 0.03); [vm_compute; intros C; discriminate C|].
        apply catchUpFormula_at_least; try assumption.
        eapply leaderDistance_greatest; eassumption.
      * apply catchUpFormula_below, Hu1.
    + rewrite Hl. exact Hlead.
  - destruct (positioning_leading scene rnd peers me s Hrace Hfin)
      as (Hl & Hc & _); [fold hs; lia | exact Hr |].
    fold hs in Hl. split.
    + rewrite Hc. split; vm_compute; [intros C; discriminate C | reflexivity].
    + rewrite Hl. split; [|apply Q.le_min_l].
      apply Q.min_glb; [vm_compute; intros C; discriminate C|].
      assert (Hzero : rankOf hs me = 0%Z) by lia.
      destruct (rankOf_zero_head hs me (self s) Hat Hzero) as [rest E].
      destruct (secondDistance_le_leader hs) as [Hle|]; [|lia].
      unfold leaderDistance in Hle. rewrite E in Hle.
      apply Qmult_le_0_compat; [|vm_compute; intros C; discriminate C].
      unfold Qdiv. apply Qmult_le_0_compat; [lra|].
      apply Qlt_le_weak, Qinv_lt_0_compat, HL.
Qed.

(** X12.  On a track of positive length and with draws in [0, 1), a call
    of [update] keeps the balancing factors of a horse in range: the
    catch-up factor in [0, 0.75) and the lead handicap in [0, 0.3]. *)
Theorem update_keeps_factors_in_range scene rnd time delta me w h :
  0 < trackLength scene -> unitInterval rnd ->
  horseAt w me = Some h -> Balanced h ->
  exists h',
    horseAt (Horse_update scene rnd time delta me w) me = Some h' /\
    Balanced h'.
Proof.
  intros HL Hrnd Hh Hb.
  eexists. split; [apply (Horse_update_horseAt _ _ _ _ _ _ _ Hh)|].
  set (s0 := entry w h).
  destruct (finished (self s0)) eqn:Hf.
  - rewrite update_finished by exact Hf. exact Hb.
  - set (g := fun x : Horse => (catchUpFactor x, leadHandicap x)).
    assert (Hg : forall x y, g x = g y -> Balanced y -> Balanced x).
    { intros x y E. unfold g in E. injection E as Ec El.
      unfold Balanced. rewrite Ec, El. tauto. }
    apply (Hg _ (self (atMomentum scene rnd (horses w) me time delta s0))).
    + rewrite update_running by exact Hf.
      rewrite (preserves_exec g) by (apply checkFinish_writes; untouched).
      rewrite exec_assign. simpl self.
      change (g (set_legMovement ?v ?x)) with (g x).
      apply (preserves_exec g). apply advance_writes; untouched.
    + unfold atMomentum. apply positioning_Balanced; try assumption.
      * eapply lookup_lt_Some. exact Hh.
      * apply (Hg _ h); [|exact Hb].
        rewrite (preserves_exec g)
          by (apply handleRaceEvents_writes; untouched).
        apply (preserves_exec g). apply enterLap_writes; untouched.
Qed.

Lemma update_keeps_factors_in_range_witness :
  exists h',
    horseAt (Horse_update Sample.oval Sample.half 30000 16 1
               (mkWorld Meadow.field 5 [])) 1 = Some h' /\
    Balanced h'.
Proof.
  apply (update_keeps_factors_in_range Sample.oval Sample.half 30000 16 1
           (mkWorld Meadow.field 5 []) Meadow.second).
  - vm_compute. reflexivity.
  - intros k. split; vm_compute; [intros C; discriminate C | reflexivity].
  - reflexivity.
  - repeat split; vm_compute; first [reflexivity | intros C; discriminate C].
Defined.

(** ** Speed and progress *)

Lemma advance_speed scene rnd delta s :
  0.7 + catchUpFactor (self s) * 1.5 <=
  currentSpeed (self (exec (advance scene rnd delta) s)).
Proof.
  unfold advance, applyMomentum, exec, bind, this, assign, Math_random, ret.
  simpl.
  destruct (JS.gt _ _); simpl;
    (destruct (JS.lt _ _); simpl; [|destruct (JS.gt _ _); simpl]);
    apply Q.le_max_l.
Qed.

Lemma product_floor a b a0 b0 :
  0 <= a0 -> 0 <= b0 -> a0 <= a -> b0 <= b -> a0 * b0 <= a * b.
Proof. intros. nra. Qed.

Lemma atMomentum_EventConsistent scene rnd peers me time delta s :
  EventConsistent (self s) ->
  EventConsistent (self (atMomentum scene rnd peers me time delta s)).
Proof.
  intros H. unfold atMomentum.
  set (g := fun x : Horse => (eventMultiplier x, currentEvent x)).
  assert (Hg : forall x y, g x = g y -> EventConsistent y -> EventConsistent x).
  { intros x y E. unfold g in E. injection E as Em Ee.
    unfold EventConsistent. rewrite Em, Ee. tauto. }
  eapply Hg.
  - apply (preserves_exec g).
    apply updateRacePositioningFactors_writes; untouched.
  - apply handleRaceEvents_consistent.
    eapply Hg; [|exact H].
    apply (preserves_exec g). apply enterLap_writes; untouched.
Qed.

(** X13.  A horse that is racing never stands still.  In a valid scene,
    with draws in [0, 1), for a horse in the invariant of the race whose
    multiplier is the one of its event, a call of [update] with
    [delta >= 0] leaves a current speed of at least 0.7 and adds at least
    [17.5616 * delta / 1000] to the distance: the product of the minimum
    speed 0.7, the lowest stamina factor 0.7, random factor 0.8 and event
    multiplier 0.8, the constant 80 and the lowest speed scale 0.7. *)
Theorem racing_horse_always_advances scene rnd time delta me w h :
  ValidScene scene -> unitInterval rnd ->
  horseAt w me = Some h -> finished h = false -> 0 <= delta ->
  WellFormed h -> EventConsistent h ->
  exists h',
    horseAt (Horse_update scene rnd time delta me w) me = Some h' /\
    0.7 <= currentSpeed h' /\
    distance h + 17.5616 * (delta / 1000) <= distance h'.
Proof.
  intros Hscene Hrnd Hh Hf Hdelta Hwf Hev.
  eexists. split; [apply (Horse_update_horseAt _ _ _ _ _ _ _ Hh)|].
  set (s0 := entry w h).
  assert (Hrun : finished (self s0) = false) by exact Hf.
  rewrite update_running by exact Hrun.
  pose proof (atMomentum_WellFormed scene rnd (horses w) me Hscene Hrnd
                time delta s0 Hwf) as (Hi & Hc & _).
  pose proof (atMomentum_EventConsistent scene rnd (horses w) me time delta
                s0 Hev) as Hev1.
  pose proof (atMomentum_writes scene rnd (horses w) me time delta distance s0)
    as Hd.
  remember (atMomentum scene rnd (horses w) me time delta s0) as s1 eqn:Es1.
  assert (Hmult : 0.8 <= eventMultiplier (self s1)).
  { unfold EventConsistent in Hev1. rewrite Hev1.
    destruct (currentEvent (self s1)) as [[| | |]|]; simpl;
      vm_compute; intros C; discriminate C. }
  split.
  - rewrite (preserves_exec currentSpeed)
      by (apply checkFinish_writes; untouched).
    rewrite exec_assign. simpl self.
    change (currentSpeed (set_legMovement ?v ?x)) with (currentSpeed x).
    pose proof (advance_speed scene rnd delta s1) as Hs. lra.
  - rewrite (preserves_exec distance)
      by (apply checkFinish_writes; untouched).
    rewrite exec_assign. simpl self.
    change (distance (set_legMovement ?v ?x)) with (distance x).
    change (distance h) with (distance (self s0)).
    rewrite <- Hd by untouched.
    destruct (advance_distance scene rnd delta s1)
      as (speed & sf & sc & -> & Hspeed & Hsf & Hsc).
    unfold innate, innateInRange in Hi.
    destruct Hi as (_ & _ & _ & [Hl0 Hl1] & _).
    destruct (Hrnd (cursor s1)) as [Hu0 Hu1].
    destruct (instantRandomFactor_range _ _ Hu0 Hu1 Hl0 Hl1) as [Hr _].
    assert (Hsec : 0 <= delta / 1000).
    { unfold Qdiv. apply Qmult_le_0_compat; [exact Hdelta|].
      vm_compute. intros C; discriminate C. }
    set (rf := 1 + (rnd (cursor s1) - 0.5) * (luckFactor (self s1) + 0.15))
      in *.
    set (em := eventMultiplier (self s1)) in *.
    set (sec := delta / 1000) in *.
    assert (P1 : 0.7 * 0.7 <= speed * sf)
      by (apply product_floor; lra).
    assert (P2 : 0.7 * 0.7 * 0.8 <= speed * sf * rf)
      by (apply product_floor; lra).
    assert (P3 : 0.7 * 0.7 * 0.8 * 0.8 <= speed * sf * rf * em)
      by (apply product_floor; lra).
    assert (P4 : 0.7 * 0.7 * 0.8 * 0.8 * sec <= speed * sf * rf * em * sec).
    { apply Qmult_le_compat_r; assumption. }
    assert (P5 : 0.7 * 0.7 * 0.8 * 0.8 * sec * 80
                 <= speed * sf * rf * em * sec * 80).
    { apply Qmult_le_compat_r; [assumption|].
      vm_compute. intros C; discriminate C. }
    assert (P6 : 0.7 * 0.7 * 0.8 * 0.8 * sec * 80 * 0.7
                 <= speed * sf * rf * em * sec * 80 * sc).
    { apply product_floor; lra. }
    lra.
Qed.

Lemma racing_horse_always_advances_witness :
  exists h',
    horseAt (Horse_update Sample.oval Sample.half 30000 16 1
               (mkWorld Meadow.field 5 [])) 1 = Some h' /\
    0.7 <= currentSpeed h' /\
    distance Meadow.second + 17.5616 * (16 / 1000) <= distance h'.
Proof.
  apply (racing_horse_always_advances Sample.oval Sample.half 30000 16 1
           (mkWorld Meadow.field 5 []) Meadow.second).
  - split; vm_compute; reflexivity.
  - intros k. split; vm_compute; [intros C; discriminate C | reflexivity].
  - reflexivity.
  - reflexivity.
  - vm_compute. intros C; discriminate C.
  - unfold WellFormed, innate, innateInRange. simpl.
    repeat apply conj;
      try (vm_compute; first [reflexivity | intros C; discriminate C]).
    repeat constructor; vm_compute; intros C; discriminate C.
  - reflexivity.
Defined.

(** ** The finish window *)

(** Within the lap that starts at [n] track lengths, the remainder of the
    finish check is the distance covered in that lap. *)
Lemma rem_within_lap (n : Z) L d :
  (0 <= n)%Z -> 0 < L ->
  inject_Z n * L <= d -> d < inject_Z (n + 1) * L ->
  JS.rem d L = d - L * inject_Z n.
Proof.
  intros Hn HL Hlo Hhi.
  assert (Hq0 : inject_Z n <= d / L) by (apply Qle_shift_div_l; assumption).
  assert (Hq1 : d / L < inject_Z (n + 1)) by (apply Qlt_shift_div_r; assumption).
  assert (Hfloor : Qfloor (d / L) = n).
  { pose proof (Qfloor_le (d / L)) as F0.
    pose proof (Qlt_floor (d / L)) as F1.
    assert (A : inject_Z (Qfloor (d / L)) < inject_Z (n + 1))
      by (eapply Qle_lt_trans; eassumption).
    assert (B : inject_Z n < inject_Z (Qfloor (d / L) + 1))
      by (eapply Qle_lt_trans; eassumption).
    rewrite <- Zlt_Qlt in A, B. lia. }
  unfold JS.rem, JS.trunc.
  destruct (Qlt_le_dec (d / L) 0) as [C|_].
  - exfalso. assert (0 <= inject_Z n)
      by (change 0 with (inject_Z 0); rewrite <- Zle_Qle; exact Hn).
    lra.
  - rewrite Hfloor. reflexivity.
Qed.

Lemma update_finish_outcome scene rnd peers me time delta s :
  finished (self s) = false ->
  let s' := exec (update scene rnd peers me time delta) s in
  (onFinishLine scene (distance (self s')) ->
   finished (self s') = true /\ finishTime (self s') = Some time) /\
  (~ onFinishLine scene (distance (self s')) -> finished (self s') = false).
Proof.
  intros Hf s'. subst s'.
  rewrite (update_at_finish_check _ _ _ _ _ _ _ Hf).
  remember (atFinishCheck scene rnd peers me time delta s) as s1 eqn:Es.
  assert (Hs : finished (self s1) = false).
  { rewrite Es. rewrite (atFinishCheck_writes _ _ _ _ _ _ finished) by untouched.
    exact Hf. }
  destruct (onFinishLine_dec scene (distance (self s1))) as [Hon|Hoff].
  - rewrite (checkFinish_crossing _ _ _ _ Hs Hon). simpl.
    split; [intros _; split; reflexivity | intros C; contradiction].
  - rewrite (checkFinish_short _ _ _ _ Hoff).
    split; [intros C; contradiction | intros _; exact Hs].
Qed.

(** X14.  On a track longer than 50, a horse finishes in the call that
    leaves it within 50 of the start line after at least [totalLaps] whole
    laps, and its finish time is the time of that call.  A call that
    leaves it further into a lap, or short of the race distance, does not
    finish it: a horse that overshoots the window runs on until the next
    passage of the line. *)
Theorem finish_needs_the_window scene rnd time delta me w h (n : Z) :
  horseAt w me = Some h -> finished h = false ->
  50 < trackLength scene -> (0 <= totalLaps scene <= n)%Z ->
  exists h',
    horseAt (Horse_update scene rnd time delta me w) me = Some h' /\
    (inject_Z n * trackLength scene <= distance h' /\
     distance h' <= inject_Z n * trackLength scene + 50 ->
     finished h' = true /\ finishTime h' = Some time) /\
    (inject_Z n * trackLength scene + 50 < distance h' /\
     distance h' < inject_Z (n + 1) * trackLength scene ->
     finished h' = false) /\
    (distance h' < inject_Z (totalLaps scene) * trackLength scene ->
     finished h' = false).
Proof.
  intros Hh Hf HL Hn.
  eexists. split; [apply (Horse_update_horseAt _ _ _ _ _ _ _ Hh)|].
  assert (Hrun : finished (self (entry w h)) = false) by exact Hf.
  destruct (update_finish_outcome scene rnd (horses w) me time delta
              (entry w h) Hrun) as [Hon Hoff].
  cbv zeta in Hon, Hoff.
  remember (distance (self (exec (update scene rnd (horses w) me time delta)
                              (entry w h)))) as d eqn:Ed.
  assert (HL0 : 0 < trackLength scene) by lra.
  assert (Hlaps : inject_Z (totalLaps scene) <= inject_Z n)
    by (rewrite <- Zle_Qle; lia).
  assert (Hnext : inject_Z (n + 1) * trackLength scene
                  == inject_Z n * trackLength scene + trackLength scene)
    by (rewrite inject_Z_plus; ring).
  assert (Hcomm : trackLength scene * inject_Z n
                  == inject_Z n * trackLength scene) by ring.
  assert (Htotal : inject_Z (totalLaps scene) * trackLength scene
                   <= inject_Z n * trackLength scene)
    by (apply Qmult_le_compat_r; lra).
  assert (Hrem : inject_Z n * trackLength scene <= d ->
                 d < inject_Z (n + 1) * trackLength scene ->
                 JS.rem d (trackLength scene)
                 == d - inject_Z n * trackLength scene).
  { intros Hlo Hhi.
    rewrite (rem_within_lap n (trackLength scene) d); try assumption;
      [|lia].
    rewrite Hcomm. reflexivity. }
  set (p := inject_Z n * trackLength scene) in *.
  repeat apply conj.
  - intros [Hlo Hhi]. apply Hon. unfold onFinishLine.
    rewrite Hrem by (rewrite ?Hnext; lra).
    repeat split; lra.
  - intros [Hlo Hhi]. apply Hoff. unfold onFinishLine.
    rewrite Hrem by (rewrite ?Hnext; lra).
    intros (_ & _ & C). lra.
  - intros Hshort. apply Hoff. unfold onFinishLine.
    intros (C & _). lra.
Qed.

Lemma finish_needs_the_window_witness :
  exists h',
    horseAt (Horse_update Sample.oval Sample.half 61000 0 0
               (mkWorld [Sample.runner 0 "Comet" 4 4030 0] 9 [])) 0
      = Some h' /\
    finished h' = true /\ finishTime h' = Some 61000.
Proof.
  destruct (finish_needs_the_window Sample.oval Sample.half 61000 0 0
              (mkWorld [Sample.runner 0 "Comet" 4 4030 0] 9 [])
              (Sample.runner 0 "Comet" 4 4030 0) 4 eq_refl eq_refl)
    as (h' & Hat & Hin & _).
  - vm_compute. reflexivity.
  - split; vm_compute; intros C; discriminate C.
  - exists h'. split; [exact Hat|]. apply Hin.
    vm_compute in Hat. injection Hat as <-.
    split; vm_compute; intros C; discriminate C.
Defined.

(** ** The constructor and [reset] *)




(** Nested field assignments are normalised innermost first. *)
Ltac setters :=
  cbv [set_legMovement set_laneOffset set_leadHandicap set_catchUpFactor
       set_position set_finishTime set_finished set_currentLap set_distance
       set_currentSpeed lane name baseSpeed stamina acceleration luckFactor
       currentSpeed distance currentLap finished finishTime position
       catchUpFactor leadHandicap nextEventTime eventDuration currentEvent
       eventMultiplier momentum lapFactors laneOffset legMovement].

Lemma reset_exec scene s :
  exec (reset scene) s =
  mkSt (set_legMovement 0
         (set_laneOffset (laneOffsetOf scene (lane (self s)))
           (set_leadHandicap 0 (set_catchUpFactor 0 (set_position None
             (set_finishTime None (set_finished false (set_currentLap 1
               (set_distance 0 (set_currentSpeed 0 (self s)))))))))))
       (cursor s) (notified s).
Proof. reflexivity. Qed.

Lemma reset_twice scene s :
  exec (reset scene) (exec (reset scene) s) = exec (reset scene) s.
Proof.
  rewrite !reset_exec. cbn [self cursor notified]. setters. reflexivity.
Qed.

Lemma reset_fresh scene rnd ln nm s0 c n :
  exec (reset scene) (mkSt (fst (construct scene rnd ln nm s0)) c n)
  = mkSt (fst (construct scene rnd ln nm s0)) c n.
Proof.
  rewrite reset_exec. cbn [self cursor notified].
  unfold construct, bind, Math_random, ret. cbn [fst snd cursor self notified].
  match goal with |- context [drawLapFactors rnd ?k ?s1] =>
    destruct (drawLapFactors rnd k s1) as [lfs s2] end.
  cbn [fst snd]. setters. reflexivity.
Qed.

(** X16.  [reset] writes start-of-race values only: a second [reset]
    changes nothing more, and a horse fresh from the constructor of the
    same scene is left exactly as it is, lane offset included. *)
Theorem reset_is_idle_on_fresh_horses scene rnd me w :
  Horse_reset scene rnd me (Horse_reset scene rnd me w)
  = Horse_reset scene rnd me w /\
  (forall ln nm s,
     horseAt w me = Some (fst (construct scene rnd ln nm s)) ->
     Horse_reset scene rnd me w = w).
Proof.
  split.
  - unfold Horse_reset, call.
    destruct (horses w !! me) as [h|] eqn:E.
    + cbn [horses draws finishers].
      rewrite list_lookup_insert_eq by (eapply lookup_lt_Some; exact E).
      rewrite list_insert_insert_eq.
      match goal with |- context [exec (reset scene) (mkSt (self ?s) (cursor ?s) (notified ?s))] =>
        replace (mkSt (self s) (cursor s) (notified s)) with s by (destruct s; reflexivity) end.
      rewrite reset_twice. reflexivity.
    + rewrite E. reflexivity.
  - intros ln nm s Hh.
    assert (Hlook : horses w !! me = Some (fst (construct scene rnd ln nm s)))
      by exact Hh.
    unfold Horse_reset, call. rewrite Hlook.
    rewrite reset_fresh. cbn [self cursor notified].
    rewrite list_insert_id by exact Hlook.
    destruct w as [hs n fs]. reflexivity.
Qed.

Lemma reset_is_idle_on_fresh_horses_witness :
  let fresh := fst (construct Sample.oval Sample.half 0 "Clover"
                      (mkSt Sample.coasting 0 [])) in
  Horse_reset Sample.oval Sample.half 0 (mkWorld [fresh] 13 [])
  = mkWorld [fresh] 13 [].
Proof.
  intros fresh.
  destruct (reset_is_idle_on_fresh_horses Sample.oval Sample.half 0
              (mkWorld [fresh] 13 [])) as [_ Hfresh].
  apply (Hfresh 0%Z "Clover"%string (mkSt Sample.coasting 0 [])).
  reflexivity.
Defined.
(** ** The random numbers a call takes *)

(** Case analysis on every branch of a body. *)
Ltac branches :=
  repeat match goal with
  | |- context [if ?x then _ else _] => destruct x
  | |- context [match ?x with _ => _ end] => destruct x
  end.

Lemma applyFinalLapBalancing_cursor scene peers me s :
  cursor (exec (applyFinalLapBalancing scene peers me) s) = cursor s.
Proof.
  unfold applyFinalLapBalancing, addMomentum, exec, bind, this, assign,
    sceneHorses, ret.
  cbn [fst snd cursor self notified].
  branches; reflexivity.
Qed.

Lemma enterLap_cursor scene rnd peers me s :
  (cursor s <= cursor (exec (enterLap scene rnd peers me) s) <= cursor s + 2)%nat.
Proof.
  unfold enterLap. rewrite exec_bind. cbn [fst snd this].
  rewrite exec_seq, exec_assign, exec_bind. cbn [fst snd this self cursor notified].
  match goal with |- context [if ?c then _ else _] => destruct c end;
    [|rewrite exec_ret; cbn [cursor]; lia].
  rewrite exec_bind. cbn [fst snd Math_random self cursor notified].
  rewrite exec_seq.
  match goal with |- context [exec (if ?c then applyFinalLapBalancing _ _ _ else _)] =>
    destruct c end;
  [rewrite applyFinalLapBalancing_cursor | rewrite exec_ret];
  (match goal with |- context [JS.lt ?a ?b] => destruct (JS.lt a b) end;
   [rewrite exec_bind; cbn [fst snd Math_random self cursor notified];
    unfold addMomentum; rewrite exec_assign; cbn [cursor]; lia
   | rewrite exec_ret; cbn [cursor]; lia]).
Qed.

Lemma handleRaceEvents_cursor scene rnd time delta s :
  (cursor s <= cursor (exec (handleRaceEvents scene rnd time delta) s) <= cursor s + 4)%nat.
Proof.
  unfold handleRaceEvents, addMomentum, exec, bind, this, assign, Math_random, ret.
  cbn [fst snd cursor self notified].
  destruct (raceStartTime scene) as [t0|]; [|cbn [snd cursor]; lia].
  destruct (negb (JS.truthy (Some t0))); [cbn [snd cursor]; lia|].
  destruct (JS.gt _ _); [|cbn [snd cursor]; lia].
  destruct (currentEvent (self s)).
  - cbn [fst snd cursor self notified].
    destruct (JS.le _ _); cbn [fst snd cursor self notified]; lia.
  - cbn [fst snd cursor self notified].
    repeat (match goal with |- context [JS.lt ?a ?b] => destruct (JS.lt a b) end;
            cbn [fst snd cursor self notified]; try lia).
    all: try (destruct (JS.gt _ _); cbn [fst snd cursor self notified]; lia).
Qed.

Lemma updateRacePositioningFactors_cursor scene rnd peers me s :
  (cursor s <= cursor (exec (updateRacePositioningFactors scene rnd peers me) s) <= cursor s + 2)%nat.
Proof.
  unfold updateRacePositioningFactors, addMomentum, exec, bind, this, assign,
    sceneHorses, Math_random, ret.
  cbn [fst snd cursor self notified].
  destruct (negb (raceInProgress scene) || finished (self s));
    [cbn [snd cursor]; lia|].
  destruct (_ <=? 1)%Z; [cbn [snd cursor]; lia|].
  destruct (_ >? 0)%Z.
  - destruct (sortByDistance _) as [|[i leader] rest]; [cbn [snd cursor]; lia|].
    cbn [fst snd cursor self notified].
    destruct (_ =? _)%Z; cbn [fst snd cursor self notified];
      (destruct (JS.lt _ _); [destruct (JS.gt _ _)|]);
      cbn [fst snd cursor self notified]; lia.
  - destruct (sortByDistance _) as [|[i a] [|[j b] rest]];
      try (cbn [snd cursor]; lia).
    cbn [fst snd cursor self notified].
    destruct (JS.lt _ _); [destruct (JS.gt _ _)|];
      cbn [fst snd cursor self notified]; lia.
Qed.

(** X17.  A call of [update] on a horse that has not finished takes at
    least one random number, the one of the instant random factor, and at
    most nine: two on entering a lap, four in the race events, two in the
    positioning factors. *)
Theorem update_takes_one_to_nine_draws scene rnd time delta me w h :
  horseAt w me = Some h -> finished h = false ->
  (draws w + 1 <= draws (Horse_update scene rnd time delta me w)
   <= draws w + 9)%nat.
Proof.
  intros Hh Hf. unfold Horse_update.
  rewrite (call_draws _ _ _ _ _ _ Hh).
  assert (Hrun : finished (self (entry w h)) = false) by exact Hf.
  rewrite (update_running _ _ _ _ _ _ _ Hrun).
  rewrite checkFinish_cursor, exec_assign. cbn [cursor].
  rewrite advance_cursor. unfold atMomentum.
  pose proof (enterLap_cursor scene rnd (horses w) me (entry w h)) as H1.
  pose proof (handleRaceEvents_cursor scene rnd time delta
                (exec (enterLap scene rnd (horses w) me) (entry w h))) as H2.
  pose proof (updateRacePositioningFactors_cursor scene rnd (horses w) me
                (exec (handleRaceEvents scene rnd time delta)
                   (exec (enterLap scene rnd (horses w) me) (entry w h))))
    as H3.
  change (cursor (entry w h)) with (draws w) in H1.
  lia.
Qed.

Lemma update_takes_one_to_nine_draws_witness :
  (9 + 1 <= draws (Horse_update Sample.oval Sample.half 1000 16 0
                     (mkWorld [Sample.coasting] 9 []))
   <= 9 + 9)%nat.
Proof.
  apply (update_takes_one_to_nine_draws Sample.oval Sample.half 1000 16 0
           (mkWorld [Sample.coasting] 9 []) Sample.coasting);
    reflexivity.
Defined.

(** ** What [update] leaves alone *)

(** X18.  [update] never writes the lane, the name, the innate attributes,
    the lane offset or the position of a horse, and it touches no other
    member of the roster, whose length stays.  The leg movement grows by
    [delta * 0.01] in a call on a horse that has not finished. *)
Theorem update_leaves_identity_alone scene rnd time delta me w h :
  horseAt w me = Some h ->
  let w' := Horse_update scene rnd time delta me w in
  (exists h', horseAt w' me = Some h' /\
     lane h' = lane h /\ name h' = name h /\ innate h' = innate h /\
     laneOffset h' = laneOffset h /\ position h' = position h /\
     legMovement h' =
       (if finished h then legMovement h else legMovement h + delta * 0.01)) /\
  (forall k, k <> me -> horseAt w' k = horseAt w k) /\
  length (horses w') = length (horses w).
Proof.
  intros Hh w'. subst w'. repeat apply conj.
  - eexists. split; [apply (Horse_update_horseAt _ _ _ _ _ _ _ Hh)|].
    repeat apply conj.
    + apply (update_writes scene rnd (horses w) me lane); untouched.
    + apply (update_writes scene rnd (horses w) me name); untouched.
    + apply (update_writes scene rnd (horses w) me innate); untouched.
    + apply (update_writes scene rnd (horses w) me laneOffset); untouched.
    + apply (update_writes scene rnd (horses w) me position); untouched.
    + destruct (finished h) eqn:Hf.
      * rewrite update_finished by exact Hf. reflexivity.
      * assert (Hrun : finished (self (entry w h)) = false) by exact Hf.
        rewrite (update_running _ _ _ _ _ _ _ Hrun).
        rewrite (preserves_exec legMovement
                   (checkFinish scene me time))
          by (apply checkFinish_writes; untouched).
        rewrite exec_assign. cbn [self].
        rewrite (preserves_exec legMovement (advance scene rnd delta))
          by (apply advance_writes; untouched).
        rewrite (atMomentum_writes _ _ _ _ _ _ legMovement) by untouched.
        reflexivity.
  - intros k Hk. unfold Horse_update. apply call_others. exact Hk.
  - unfold Horse_update, call. unfold horseAt in Hh. rewrite Hh.
    cbn [horses]. apply length_insert.
Qed.

Lemma update_leaves_identity_alone_witness :
  exists h', horseAt (Horse_update Sample.oval Sample.half 1000 16 0
                        (mkWorld [Sample.coasting] 9 [])) 0 = Some h' /\
    name h' = name Sample.coasting /\
    legMovement h' = legMovement Sample.coasting + 16 * 0.01.
Proof.
  destruct (update_leaves_identity_alone Sample.oval Sample.half 1000 16 0
              (mkWorld [Sample.coasting] 9 []) Sample.coasting eq_refl)
    as [(h' & Hat & _ & Hname & _ & _ & _ & Hleg) _].
  exists h'. repeat apply conj; [exact Hat | exact Hname | exact Hleg].
Defined.

(** ** Arrivals *)

Lemma Horse_update_missing scene rnd time delta me w :
  horseAt w me = None -> Horse_update scene rnd time delta me w = w.
Proof.
  unfold horseAt, Horse_update, call. intros H. rewrite H. reflexivity.
Qed.

Lemma Horse_update_arrival scene rnd time delta me w h :
  horseAt w me = Some h -> finished h = false ->
  exists h', horseAt (Horse_update scene rnd time delta me w) me = Some h' /\
    (finished h' = true /\
     finishers (Horse_update scene rnd time delta me w) = finishers w ++ [me]
     \/
     finished h' = false /\
     finishers (Horse_update scene rnd time delta me w) = finishers w).
Proof.
  intros Hh Hf.
  eexists. split; [apply (Horse_update_horseAt _ _ _ _ _ _ _ Hh)|].
  rewrite (Horse_update_finishers _ _ _ _ _ _ _ Hh).
  assert (Hrun : finished (self (entry w h)) = false) by exact Hf.
  rewrite (update_at_finish_check _ _ _ _ _ _ _ Hrun).
  remember (atFinishCheck scene rnd (horses w) me time delta (entry w h))
    as s eqn:Es.
  assert (Hs : finished (self s) = false).
  { rewrite Es. rewrite (atFinishCheck_writes _ _ _ _ _ _ finished) by untouched.
    exact Hf. }
  assert (Hn : notified s = finishers w).
  { rewrite Es. rewrite atFinishCheck_quiet. reflexivity. }
  destruct (onFinishLine_dec scene (distance (self s))) as [Hon|Hoff].
  - left. rewrite (checkFinish_crossing _ _ _ _ Hs Hon). cbn [self notified].
    rewrite Hn. split; reflexivity.
  - right. rewrite (checkFinish_short _ _ _ _ Hoff). split; assumption.
Qed.

Lemma Horse_update_keeps_arrivals scene rnd time delta me w :
  ArrivalsInOrder w ->
  let w' := Horse_update scene rnd time delta me w in
  ArrivalsInOrder w' /\
  (exists later, finishers w' = finishers w ++ later) /\
  (forall k h, horseAt w k = Some h -> finished h = true ->
               horseAt w' k = Some h) /\
  length (horses w') = length (horses w).
Proof.
  intros [Hnd Hiff] w'. subst w'.
  assert (Hstay : Horse_update scene rnd time delta me w = w ->
            ArrivalsInOrder (Horse_update scene rnd time delta me w) /\
            (exists later, finishers (Horse_update scene rnd time delta me w)
                           = finishers w ++ later) /\
            (forall k h, horseAt w k = Some h -> finished h = true ->
               horseAt (Horse_update scene rnd time delta me w) k = Some h) /\
            length (horses (Horse_update scene rnd time delta me w))
            = length (horses w)).
  { intros ->. split; [exact (conj Hnd Hiff)|]. split; [|split].
    - exists []. rewrite app_nil_r. reflexivity.
    - intros k h0 H _. exact H.
    - reflexivity. }
  destruct (horseAt w me) as [h|] eqn:Hh;
    [|apply Hstay, Horse_update_missing, Hh].
  destruct (finished h) eqn:Hf;
    [apply Hstay, (finished_horse_is_frozen _ _ _ _ _ _ _ Hh Hf)|].
  clear Hstay.
  assert (Hnew : ~ In me (finishers w)).
  { intros C. apply Hiff in C. destruct C as (h0 & H0 & F0).
    rewrite Hh in H0. injection H0 as <-. rewrite Hf in F0. discriminate F0. }
  assert (Hothers : forall k, k <> me ->
            horseAt (Horse_update scene rnd time delta me w) k = horseAt w k).
  { intros k Hk. unfold Horse_update. apply call_others. exact Hk. }
  assert (Hlen : length (horses (Horse_update scene rnd time delta me w))
                 = length (horses w)).
  { unfold Horse_update, call. unfold horseAt in Hh. rewrite Hh.
    cbn [horses]. apply length_insert. }
  assert (Hkept : forall k h0, horseAt w k = Some h0 -> finished h0 = true ->
            horseAt (Horse_update scene rnd time delta me w) k = Some h0).
  { intros k h0 H0 F0. rewrite Hothers; [exact H0|].
    intros ->. rewrite Hh in H0. injection H0 as <-.
    rewrite Hf in F0. discriminate F0. }
  destruct (Horse_update_arrival scene rnd time delta me w h Hh Hf)
    as (h' & Hat & [[Hfin Hlist] | [Hfin Hlist]]).
  - split; [|repeat apply conj; try assumption].
    + split.
      * rewrite Hlist. apply List.NoDup_app.
        -- exact Hnd.
        -- constructor; [intros C; destruct C | constructor].
        -- intros k Hk [<-|[]]. exact (Hnew Hk).
      * intros k. rewrite Hlist. split.
        -- intros Hk. apply in_app_or in Hk.
           destruct Hk as [Hk|[<-|[]]].
           ++ apply Hiff in Hk. destruct Hk as (h0 & H0 & F0).
              exists h0. split; [apply Hkept; assumption | exact F0].
           ++ exists h'. split; assumption.
        -- intros (h0 & H0 & F0). apply in_or_app.
           destruct (Nat.eq_dec k me) as [->|Hk]; [right; left; reflexivity|].
           left. apply Hiff. exists h0. rewrite <- (Hothers k Hk).
           split; assumption.
    + exists [me]. exact Hlist.
  - split; [|repeat apply conj; try assumption].
    + split.
      * rewrite Hlist. exact Hnd.
      * intros k. rewrite Hlist. split.
        -- intros Hk. apply Hiff in Hk. destruct Hk as (h0 & H0 & F0).
           exists h0. split; [apply Hkept; assumption | exact F0].
        -- intros (h0 & H0 & F0).
           destruct (Nat.eq_dec k me) as [->|Hk].
           ++ rewrite Hat in H0. injection H0 as <-.
              rewrite Hfin in F0. discriminate F0.
           ++ apply Hiff. exists h0. rewrite <- (Hothers k Hk).
              split; assumption.
    + exists []. rewrite app_nil_r. exact Hlist.
Qed.

Lemma run_cons scene rnd t ticks w :
  run scene rnd (t :: ticks) w =
  run scene rnd ticks
    (Horse_update scene rnd (tickTime t) (tickDelta t) (tickHorse t) w).
Proof. reflexivity. Qed.

(** X19.  Through any sequence of calls of [update], on any members of
    the roster in any order: if the scene has been told of exactly the
    finished horses, of each once, this remains so; the list of arrivals is
    only ever extended at its end; a horse that has finished stays as it
    was; and the roster keeps its length. *)
Theorem arrivals_are_the_finished_horses scene rnd ticks w :
  ArrivalsInOrder w ->
  let w' := run scene rnd ticks w in
  ArrivalsInOrder w' /\
  (exists later, finishers w' = finishers w ++ later) /\
  (forall k h, horseAt w k = Some h -> finished h = true ->
               horseAt w' k = Some h) /\
  length (horses w') = length (horses w).
Proof.
  revert w. induction ticks as [|t ticks IH]; intros w Hw; cbn zeta.
  - split; [exact Hw|]. split; [|split].
    + exists []. rewrite app_nil_r. reflexivity.
    + intros k h H _. exact H.
    + reflexivity.
  - destruct (Horse_update_keeps_arrivals scene rnd (tickTime t) (tickDelta t)
                (tickHorse t) w Hw) as (Hw1 & [l1 Hl1] & Hk1 & Hn1).
    destruct (IH _ Hw1) as (Hw2 & [l2 Hl2] & Hk2 & Hn2).
    rewrite run_cons.
    split; [exact Hw2|]. split; [|split].
    + exists (l1 ++ l2). rewrite Hl2, Hl1, app_assoc. reflexivity.
    + intros k h H F. apply Hk2; [apply Hk1; assumption | exact F].
    + rewrite Hn2. exact Hn1.
Qed.

Lemma arrivals_are_the_finished_horses_witness :
  let w := mkWorld [Sample.runner 0 "Comet" 4 4000 0; Sample.coasting] 9 [] in
  let w' := run Sample.oval Sample.half
              [mkTick 61000 0 0; mkTick 61000 16 1; mkTick 61016 16 0] w in
  ArrivalsInOrder w' /\ length (horses w') = 2%nat.
Proof.
  intros w w'.
  assert (Hw : ArrivalsInOrder w).
  { split; [constructor|]. intros k. split; [intros []|].
    intros (h & Hat & Hf).
    destruct k as [|[|k]]; cbn in Hat; try discriminate Hat;
      injection Hat as <-; discriminate Hf. }
  destruct (arrivals_are_the_finished_horses Sample.oval Sample.half
              [mkTick 61000 0 0; mkTick 61000 16 1; mkTick 61016 16 0] w Hw)
    as (Hw' & _ & _ & Hlen).
  split; [exact Hw' | exact Hlen].
Defined.

(** ** The colour of a horse *)

Lemma floor_of_scaled_draw r (n : Z) :
  0 <= r -> r < 1 -> (0 < n)%Z -> (0 <= JS.floor (r * inject_Z n) < n)%Z.
Proof.
  intros H0 H1 Hn. unfold JS.floor.
  assert (Hq : 0 < inject_Z n)
    by (change 0 with (inject_Z 0); rewrite <- Zlt_Qlt; exact Hn).
  split.
  - change 0%Z with (Qfloor 0). apply Qfloor_resp_le.
    apply Qmult_le_0_compat; [exact H0 | apply Qlt_le_weak, Hq].
  - rewrite Zlt_Qlt. apply Qle_lt_trans with (r * inject_Z n).
    + apply Qfloor_le.
    + apply Qlt_le_trans with (1 * inject_Z n).
      * apply Qmult_lt_compat_r; assumption.
      * rewrite Qmult_1_l. apply Qle_refl.
Qed.

Lemma colors_nonzero c : In c colors -> c <> 0%Z.
Proof.
  unfold colors. cbn [In]. intros H C. subst c.
  repeat (destruct H as [H|H]; [discriminate H|]). exact H.
Qed.

Lemma getRandomColor_palette rnd s :
  unitInterval rnd ->
  exists c, fst (getRandomColor rnd s) = Some c /\ In c colors /\
            cursor (snd (getRandomColor rnd s)) = S (cursor s).
Proof.
  intros Hrnd. unfold getRandomColor, bind, Math_random, ret.
  cbn [fst snd cursor self notified].
  destruct (Hrnd (cursor s)) as [H0 H1].
  pose proof (floor_of_scaled_draw (rnd (cursor s))
                (Z.of_nat (length colors)) H0 H1 eq_refl) as [Hlo Hhi].
  unfold elementAt.
  destruct (Z.ltb_spec (JS.floor (rnd (cursor s) * inject_Z (Z.of_nat (length colors)))) 0)
    as [C|_]; [lia|].
  destruct (nth_error colors
              (Z.to_nat (JS.floor (rnd (cursor s) * inject_Z (Z.of_nat (length colors))))))
    as [c|] eqn:E.
  - exists c. repeat apply conj; try reflexivity.
    eapply List.nth_error_In. exact E.
  - apply List.nth_error_None in E. lia.
Qed.

(** X20.  With draws in [0, 1), the colour of a horse is never missing and
    never 0: a colour that is given and not 0 is kept and no random number
    is taken; a missing colour and the colour 0 are replaced by a member of
    the palette, for one random number. *)
Theorem colour_is_given_or_from_the_palette rnd color s :
  unitInterval rnd ->
  exists c, fst (chooseColor rnd color s) = Some c /\ c <> 0%Z /\
    (color = Some c /\ snd (chooseColor rnd color s) = s
     \/
     (color = None \/ color = Some 0%Z) /\ In c colors /\
     cursor (snd (chooseColor rnd color s)) = S (cursor s)).
Proof.
  intros Hrnd.
  destruct (getRandomColor_palette rnd s Hrnd) as (c & Hc & Hin & Hcur).
  unfold chooseColor. destruct color as [g|].
  - destruct (Z.eqb_spec g 0) as [->|Hg].
    + exists c. repeat apply conj; try assumption.
      * apply colors_nonzero, Hin.
      * right. repeat apply conj; try assumption. right. reflexivity.
    + exists g. repeat apply conj; try assumption; try reflexivity.
      left. split; reflexivity.
  - exists c. repeat apply conj; try assumption.
    + apply colors_nonzero, Hin.
    + right. repeat apply conj; try assumption. left. reflexivity.
Qed.

Lemma colour_is_given_or_from_the_palette_witness :
  exists c, fst (chooseColor Sample.half (Some 0%Z)
                   (mkSt Sample.coasting 0 [])) = Some c /\ c <> 0%Z.
Proof.
  destruct (colour_is_given_or_from_the_palette Sample.half (Some 0%Z)
              (mkSt Sample.coasting 0 [])) as (c & Hc & Hnz & _).
  - intros k. split; vm_compute; [intros C; discriminate C | reflexivity].
  - exists c. split; assumption.
Defined.

(** ** Lanes *)

(** X21.  On a track of positive width and height with at least one
    horse, the lane offset of every lane from 0 on is positive, an outer
    lane has the greater offset, and the offsets of two lanes differ by a
    tenth of the lane width for each lane between them. *)
Theorem lanes_fan_outwards scene (l1 l2 : Z) :
  0 < Qmin (trackWidth scene) (trackHeight scene) ->
  (1 <= numHorses scene)%Z ->
  (0 <= l1 < l2)%Z ->
  0 < laneOffsetOf scene l1 /\
  laneOffsetOf scene l1 < laneOffsetOf scene l2 /\
  laneOffsetOf scene l2 - laneOffsetOf scene l1 ==
    inject_Z (l2 - l1)
    * (Qmin (trackWidth scene) (trackHeight scene) / 300 * 0.1).
Proof.
  intros Hmin Hn Hl. unfold laneOffsetOf. cbv zeta.
  set (m := Qmin (trackWidth scene) (trackHeight scene)) in *.
  set (f := JS.floor (inject_Z (numHorses scene) / 2)).
  assert (Hf : inject_Z f <= inject_Z (numHorses scene) * (1 # 2))
    by (apply (Qfloor_le (inject_Z (numHorses scene) / 2))).
  assert (Hn' : 1 <= inject_Z (numHorses scene))
    by (change 1 with (inject_Z 1); rewrite <- Zle_Qle; exact Hn).
  assert (H1 : 0 <= inject_Z l1)
    by (change 0 with (inject_Z 0); rewrite <- Zle_Qle; lia).
  assert (H12 : inject_Z l1 + 1 <= inject_Z l2).
  { change 1 with (inject_Z 1). rewrite <- inject_Z_plus, <- Zle_Qle. lia. }
  assert (Hsub : inject_Z (f - 1) == inject_Z f - 1).
  { unfold Z.sub. rewrite inject_Z_plus. reflexivity. }
  assert (Hd : inject_Z (l2 - l1) == inject_Z l2 - inject_Z l1).
  { unfold Z.sub. rewrite inject_Z_plus, inject_Z_opp. reflexivity. }
  assert (Hw : 0 < m / 300).
  { apply Qlt_shift_div_l; [reflexivity|]. rewrite Qmult_0_l. exact Hmin. }
  rewrite Hsub, Hd.
  set (lw := m / 300) in *.
  set (n := inject_Z (numHorses scene)) in *.
  set (a := inject_Z l1) in *. set (b := inject_Z l2) in *.
  set (g := inject_Z f) in *.
  clearbody lw n a b g.
  repeat apply conj.
  - assert (E : (n - 1 - (g - 1)) * lw + (a - (g - 1)) * (lw * 0.1)
                == lw * ((n - g) + 0.1 * (a + 1 - g))) by ring.
    rewrite E. apply Qmult_lt_0_compat; [exact Hw | ].
    clear - Hf Hn' H1. lra.
  - assert (E : (n - 1 - (g - 1)) * lw + (b - (g - 1)) * (lw * 0.1)
                - ((n - 1 - (g - 1)) * lw + (a - (g - 1)) * (lw * 0.1))
                == lw * (0.1 * (b - a))) by ring.
    assert (P : 0 < lw * (0.1 * (b - a)))
      by (apply Qmult_lt_0_compat; [exact Hw | clear - H12; lra]).
    rewrite <- E in P. clear - P. lra.
  - ring.
Qed.

Lemma lanes_fan_outwards_witness :
  0 < laneOffsetOf Sample.oval 0 /\
  laneOffsetOf Sample.oval 0 < laneOffsetOf Sample.oval 1.
Proof.
  destruct (lanes_fan_outwards Sample.oval 0 1) as (H0 & H1 & _).
  - vm_compute. reflexivity.
  - vm_compute. intros C. discriminate C.
  - lia.
  - split; assumption.
Defined.

(** ** Sprite and label *)



